(** * echomox / reservoir: membrane system and echo state network

    A shallow embedding of [reservoir/membrane.go], of the construction,
    update, reset, training and prediction code of [reservoir/esn.go] and of
    the membrane phase of [reservoir/filter.go], with the properties the
    specification states about them and further properties of the code.

    Conventions of the embedding.
    - [float64] is Rocq's primitive binary64 float ([PrimFloat.float]); the
      operations [*], [+], [-], [<] are the IEEE 754 ones Go uses.  All NaNs
      are one value (Go never distinguishes them through [==] or [<]).
      Products and sums are rounded one operation at a time.
    - Go's [int] is a 64-bit two's complement integer, modelled as [Z] with
      the wrap-around written where arithmetic can leave the range.
    - A [*Membrane] is an address into a heap of membranes; [nil] is [None].
    - A Go [map[K]bool] in which only [true] is ever stored is a [gset K].
    - A run-time panic (index out of range, negative [make] size) is [None]
      in the functions that can reach one. *)

From Stdlib Require Import ZArith List Floats Lia Sorted.
From stdpp Require Import base option list sets gmap strings pretty.

Local Open Scope Z_scope.
Set Warnings "-clear-no-such-hyp".

(* ===================================================================== *)
(** * Numbers *)
(* ===================================================================== *)

Module Int.
(** Go's [int] on a 64-bit platform. *)
Definition min_int : Z := - 2 ^ 63.
Definition max_int : Z := 2 ^ 63 - 1.
Definition in_range (z : Z) : Prop := min_int <= z <= max_int.

(** The value of an arithmetic result after two's complement wrap-around. *)
Definition wrap (z : Z) : Z := (z + 2 ^ 63) mod 2 ^ 64 - 2 ^ 63.

Definition add (a b : Z) : Z := wrap (a + b).

(** [x++] *)
Definition incr (a : Z) : Z := add a 1.
End Int.

Module F64.
(** [float64(i)] for an [int] [i]: the nearest binary64 value. The primitive
    conversion takes a 63-bit unsigned integer, so the sign is split off and
    the one magnitude that does not fit, [2^63], is written as a constant. *)
Definition of_int (z : Z) : float :=
  if z =? - 2 ^ 63 then (- 0x1p+63)%float
  else if z <? 0 then (- of_uint63 (Uint63.of_Z (- z)))%float
  else of_uint63 (Uint63.of_Z z).

(** [math.Abs] *)
Definition Abs (x : float) : float := abs x.

(** [a > b] *)
Definition gt (a b : float) : bool := (b <? a)%float.

(** [a != b] *)
Definition ne (a b : float) : bool := negb (a =? b)%float.

(** The decimal constants of the source, each the binary64 value nearest to
    the literal. *)
Definition c_1_2 : float := 0x1.3333333333333p+0%float.   (* 1.2 *)
Definition c_0_1 : float := 0x1.999999999999ap-4%float.   (* 0.1 *)
Definition c_1_1 : float := 0x1.199999999999ap+0%float.   (* 1.1 *)
Definition c_0_8 : float := 0x1.999999999999ap-1%float.   (* 0.8 *)
Definition c_0_01 : float := 0x1.47ae147ae147bp-7%float.  (* 0.01 *)
Definition c_0_05 : float := 0x1.999999999999ap-5%float.  (* 0.05 *)
Definition c_0_2 : float := 0x1.999999999999ap-3%float.   (* 0.2 *)
End F64.

(* ===================================================================== *)
(** * Membranes: data model *)
(* ===================================================================== *)

(** [type Object struct] *)
Record Object := mkObject {
  Type_ : string;      (* Type *)
  Value : float;
  Charge : Z;
  Mobility : float
}.

#[global] Instance Object_inhabited : Inhabited Object :=
  populate (mkObject "" 0%float 0 0%float).

(** [type EvolutionRule struct]; a [nil] [Transform] is [None].  A transform
    is a function of the slice it is given (a fresh copy of the matched
    objects) and of nothing else. *)
Record EvolutionRule := mkRule {
  Name : string;
  Priority : Z;
  InputTypes : list string;
  OutputTypes : list string;
  Conditions : list string;
  Transform : option (list Object -> list Object)
}.

(** An address: the position of a membrane in the heap. *)
Abbreviation addr := nat.

(** [type Membrane struct] *)
Record Membrane := mkMembrane {
  ID : string;
  Level : Z;
  Permeability : float;
  Objects : list Object;
  Rules : list EvolutionRule;
  Parent : option addr;
  Children : list addr
}.

Definition set_Objects (objs : list Object) (m : Membrane) : Membrane :=
  mkMembrane (ID m) (Level m) (Permeability m) objs (Rules m) (Parent m) (Children m).

Definition set_Rules (rs : list EvolutionRule) (m : Membrane) : Membrane :=
  mkMembrane (ID m) (Level m) (Permeability m) (Objects m) rs (Parent m) (Children m).

Definition set_Parent (p : option addr) (m : Membrane) : Membrane :=
  mkMembrane (ID m) (Level m) (Permeability m) (Objects m) (Rules m) p (Children m).

Definition set_Children (cs : list addr) (m : Membrane) : Membrane :=
  mkMembrane (ID m) (Level m) (Permeability m) (Objects m) (Rules m) (Parent m) cs.

(** The errors of the package, named as the specification's taxonomy names
    them; the source builds each with [fmt.Errorf]. *)
Inductive error :=
  | DimensionMismatch (expected got : nat)  (* "input dimension mismatch: expected %d, got %d" *)
  | SizeMismatch (nstates ntargets : nat)   (* "number of states (%d) must match number of targets (%d)" *)
  | EmptyInput                              (* "no training data provided" *)
  | NilTarget                               (* "target membrane is nil" *)
  | NotFound (id : string)                  (* "membrane %s not found" *)
  | Wrapped (context : string) (e : error). (* fmt.Errorf("...: %w", err) *)

(** [NewMembrane] *)
Definition NewMembrane (id : string) (level : Z) (permeability : float) : Membrane :=
  mkMembrane id level permeability [] [] None [].

(** [AddObject], [AddRule] on the membrane value. *)
Definition AddObject (obj : Object) (m : Membrane) : Membrane :=
  set_Objects (Objects m ++ [obj]) m.

Definition AddRule (rule : EvolutionRule) (m : Membrane) : Membrane :=
  set_Rules (Rules m ++ [rule]) m.

(* ===================================================================== *)
(** * Evolve *)
(* ===================================================================== *)

(** ** The exchange sort of the rules, on indices as in the source *)

(** The body of the inner loop: exchange positions [i] and [j] when the rule
    at [j] has the larger priority.  Both indices are below the length in
    every call, the other branch is never taken. *)
Definition exchange_step (i : nat) (a : list EvolutionRule) (j : nat) : list EvolutionRule :=
  match a !! i, a !! j with
  | Some ri, Some rj =>
      if Priority ri <? Priority rj then <[i := rj]> (<[j := ri]> a) else a
  | _, _ => a
  end.

(** [for j := i + 1; j < len(sortedRules); j++] *)
Definition inner_loop (a : list EvolutionRule) (i : nat) : list EvolutionRule :=
  foldl (exchange_step i) a (seq (S i) (length a - S i)).

(** [for i := 0; i < len(sortedRules); i++] on a copy of the rules. *)
Definition sortRules (rules : list EvolutionRule) : list EvolutionRule :=
  foldl inner_loop rules (seq 0 (length rules)).

(** ** findMatches *)

(** The scan [for i, obj := range m.Objects] with its state: the provisional
    [match] and the set [typeNeeded].  [iobjs] are the remaining objects with
    their indices.  The result is the value of [matches] at the end. *)
Fixpoint scan_objects (iobjs : list (nat * Object)) (usedObjects : gset nat)
    (match_ : list nat) (typeNeeded : gset string) : list (list nat) :=
  match iobjs with
  | [] => []
  | (i, obj) :: rest =>
      if decide (i ∈ usedObjects) then
        scan_objects rest usedObjects match_ typeNeeded
      else if decide (Type_ obj ∈ typeNeeded) then
        let match' := match_ ++ [i] in
        let typeNeeded' := typeNeeded ∖ {[ Type_ obj ]} in
        if decide (size typeNeeded' = 0%nat) then [match']
        else scan_objects rest usedObjects match' typeNeeded'
      else scan_objects rest usedObjects match_ typeNeeded
  end.

Definition findMatches (objs : list Object) (rule : EvolutionRule)
    (usedObjects : gset nat) : list (list nat) :=
  if decide (length (InputTypes rule) = 0%nat) then []
  else
    let typeNeeded : gset string := list_to_set (InputTypes rule) in
    scan_objects (imap (fun i o => (i, o)) objs) usedObjects [] typeNeeded.

(** ** The rule loop *)

(** The state of the loop over the sorted rules.  [accepted] is a history
    variable, absent from the source: it records, in order, every accepted
    match with its rule; no other field is computed from it. *)
Record loop_state := mkLoop {
  newObjects : list Object;
  usedObjects : gset nat;
  accepted : list (EvolutionRule * list nat)
}.

(** [inputObjs[i] = m.Objects[idx]]; the indices of a match are indices of
    [m.Objects] (lemma [findMatches_in_range]), the default is never read. *)
Definition inputObjs (objs : list Object) (match_ : list nat) : list Object :=
  map (fun idx => objs !!! idx) match_.

(** What a rule adds to [newObjects] for one match. *)
Definition produce (objs : list Object) (rm : EvolutionRule * list nat) : list Object :=
  match Transform (fst rm) with
  | Some f => f (inputObjs objs (snd rm))
  | None => []
  end.

(** The body of [for _, match := range matches]. *)
Definition apply_match (objs : list Object) (rule : EvolutionRule)
    (st : loop_state) (match_ : list nat) : loop_state :=
  let used' := foldl (fun u idx => {[ idx ]} ∪ u) (usedObjects st) match_ in
  mkLoop (newObjects st ++ produce objs (rule, match_)) used'
         (accepted st ++ [(rule, match_)]).

(** The body of [for _, rule := range sortedRules]. *)
Definition rule_step (objs : list Object) (st : loop_state) (rule : EvolutionRule) : loop_state :=
  foldl (apply_match objs rule) st (findMatches objs rule (usedObjects st)).

Definition evolve_loop (objs : list Object) (rules : list EvolutionRule) : loop_state :=
  foldl (rule_step objs) (mkLoop [] ∅ []) (sortRules rules).

(** [remainingObjects]: the objects whose index is not in [usedObjects]. *)
Definition remainingObjects (objs : list Object) (used : gset nat) : list Object :=
  omap (fun io : nat * Object => if decide (fst io ∈ used) then None else Some (snd io))
       (imap (fun i o => (i, o)) objs).

(** [func (m *Membrane) Evolve() error], on the membrane value. *)
Definition Evolve (m : Membrane) : Membrane * option error :=
  let st := evolve_loop (Objects m) (Rules m) in
  (set_Objects (remainingObjects (Objects m) (usedObjects st) ++ newObjects st) m, None).

(* ===================================================================== *)
(** * The heap of membranes, PassObjects *)
(* ===================================================================== *)

(** Membranes live in a heap, addressed by position; allocation appends.  An
    address at or beyond the length has no counterpart in Go (a pointer is
    [nil] or valid); the operations leave the heap as it is there. *)
Abbreviation heap := (list Membrane).

Definition alloc (m : Membrane) (h : heap) : addr * heap := (length h, h ++ [m]).

(** [target.AddObject(obj)] through the pointer. *)
Definition heap_AddObject (target : addr) (obj : Object) (h : heap) : heap :=
  alter (AddObject obj) target h.

(** [m.Evolve()] through the pointer. *)
Definition heap_Evolve (a : addr) (h : heap) : heap * option error :=
  match h !! a with
  | Some m => let '(m', err) := Evolve m in (<[a := m']> h, err)
  | None => (h, None)
  end.

(** [passProb] and the threshold test of [PassObjects]. *)
Definition passProb (permeability : float) (obj : Object) : float :=
  let p := (permeability * Mobility obj)%float in
  if F64.gt (F64.Abs (F64.of_int (Charge obj))) 0%float then (p * F64.c_1_2)%float else p.

Definition passes (permeability : float) (obj : Object) : bool :=
  F64.gt (passProb permeability obj) 0.5%float.

(** The body of [for _, obj := range m.Objects]: the state is the heap (the
    target is written through its pointer) and the local [remaining]. *)
Definition pass_body (permeability : float) (target : addr)
    (st : heap * list Object) (obj : Object) : heap * list Object :=
  if passes permeability obj then (heap_AddObject target obj (fst st), snd st)
  else (fst st, snd st ++ [obj]).

(** [func (m *Membrane) PassObjects(target *Membrane) error].  The range
    expression [m.Objects] is evaluated once, before the first iteration;
    [m.Objects = remaining] is the last write. *)
Definition PassObjects (m : addr) (target : option addr) (h : heap) : heap * option error :=
  match target with
  | None => (h, Some NilTarget)
  | Some t =>
      match h !! m with
      | Some src =>
          let st := foldl (pass_body (Permeability src) t) (h, []) (Objects src) in
          (alter (set_Objects (snd st)) m (fst st), None)
      | None => (h, None)
      end
  end.

(** [ComputeDissolution] *)
Definition ComputeDissolution (m : Membrane) : bool :=
  let chargedCount := length (filter (fun obj => Charge obj ≠ 0) (Objects m)) in
  (10 <? Z.of_nat chargedCount).

(* ===================================================================== *)
(** * The default rules *)
(* ===================================================================== *)

Definition spam_transform (objs : list Object) : list Object :=
  let totalValue :=
    foldl (fun t obj => if Charge obj <? 0 then (t + Value obj)%float else t) 0%float objs in
  [mkObject "spam_score" totalValue (-1) F64.c_0_8].

Definition ham_transform (objs : list Object) : list Object :=
  let totalValue :=
    foldl (fun t obj => if 0 <? Charge obj then (t + Value obj)%float else t) 0%float objs in
  [mkObject "ham_score" totalValue 1 F64.c_0_8].

Definition affective_transform (objs : list Object) : list Object :=
  map (fun obj => mkObject "modulated_signal" (Value obj * F64.c_1_1)%float
                           (Charge obj) (Mobility obj)) objs.

Definition CreateDefaultRules : list EvolutionRule :=
  [ mkRule "spam_detection" 100 ["token"; "negative_signal"] ["spam_score"] []
           (Some spam_transform);
    mkRule "ham_detection" 100 ["token"; "positive_signal"] ["ham_score"] []
           (Some ham_transform);
    mkRule "affective_modulation" 50 ["emotion_signal"] ["modulated_signal"] []
           (Some affective_transform) ].

(* ===================================================================== *)
(** * MembraneSystem *)
(* ===================================================================== *)

(** [type MembraneSystem struct] *)
Record MembraneSystem := mkSystem {
  Root : addr;
  All : list addr;
  StepCount : Z
}.

(** A loop over a slice whose body may return an error: the first error ends
    the loop. *)
Fixpoint for_each {A} (body : A -> heap -> heap * option error) (l : list A) (h : heap)
    : heap * option error :=
  match l with
  | [] => (h, None)
  | x :: l' =>
      match body x h with
      | (h', None) => for_each body l' h'
      | (h', Some e) => (h', Some e)
      end
  end.

Definition wrap_err (context : string) (r : heap * option error) : heap * option error :=
  (fst r, Wrapped context <$> snd r).

(** The permeability of the children created at depth [currentDepth]. *)
Definition child_permeability (currentDepth : Z) : float :=
  (0.5 + F64.c_0_1 * F64.of_int currentDepth)%float.

(** One iteration of [for i := 0; i < 2; i++] in [buildHierarchy], up to the
    recursive call: returns the new child's address. *)
Definition spawn_child (parent : addr) (currentDepth : Z) (i : Z)
    (s : MembraneSystem * heap) : option (addr * (MembraneSystem * heap)) :=
  let '(ms, h) := s in
  p ← h !! parent;
  let id := (ID p +:+ "_" +:+ pretty i)%string in
  let '(child, h) := alloc (NewMembrane id currentDepth (child_permeability currentDepth)) h in
  (* parent.AddChild(child) *)
  let h := alter (set_Parent (Some parent)) child h in
  let h := alter (fun m => set_Children (Children m ++ [child]) m) parent h in
  (* ms.All = append(ms.All, child) *)
  let ms := mkSystem (Root ms) (All ms ++ [child]) (StepCount ms) in
  (* child.AddRule(rule) for each default rule *)
  let h := foldl (fun h rule => alter (AddRule rule) child h) h CreateDefaultRules in
  Some (child, (ms, h)).

(** [buildHierarchy].  The recursion of the source ends because
    [currentDepth] grows towards [maxDepth]; [fuel] bounds its depth here and
    [None] is an exhausted bound (or an address outside the heap).
    [currentDepth + 1] is at most [maxDepth] and cannot wrap. *)
Fixpoint buildHierarchy (fuel : nat) (parent : addr) (maxDepth currentDepth : Z)
    (s : MembraneSystem * heap) : option (MembraneSystem * heap) :=
  if maxDepth <=? currentDepth then Some s
  else
    match fuel with
    | O => None
    | S fuel' =>
        foldl (fun (os : option (MembraneSystem * heap)) (i : Z) =>
                 s ← os;
                 cs ← spawn_child parent currentDepth i s;
                 buildHierarchy fuel' (fst cs) maxDepth (Int.add currentDepth 1) (snd cs))
              (Some s) [0; 1]
    end.

(** [NewMembraneSystem(depth)], allocating after the membranes of [h]. *)
Definition NewMembraneSystem (depth : Z) (h : heap) : option (MembraneSystem * heap) :=
  let '(root, h) := alloc (NewMembrane "root" 0 1%float) h in
  let system := mkSystem root [root] 0 in
  buildHierarchy (Z.to_nat depth) root depth 1 (system, h).

(** The transport of one membrane in [Step]: to the parent when there is one,
    then to every child. *)
Definition transport (a : addr) (h : heap) : heap * option error :=
  match h !! a with
  | None => (h, None)
  | Some membrane =>
      let r :=
        match Parent membrane with
        | Some p => wrap_err "passing objects to parent" (PassObjects a (Some p) h)
        | None => (h, None)
        end in
      match r with
      | (h', Some e) => (h', Some e)
      | (h', None) =>
          let children := from_option Children [] (h' !! a) in
          for_each (fun child h =>
                      wrap_err "passing objects to child" (PassObjects a (Some child) h))
                   children h'
      end
  end.

(** [func (ms *MembraneSystem) Step() error] *)
Definition Step (ms : MembraneSystem) (h : heap) : (MembraneSystem * heap) * option error :=
  match for_each (fun a h => wrap_err "evolving membrane" (heap_Evolve a h)) (All ms) h with
  | (h1, Some e) => ((ms, h1), Some e)
  | (h1, None) =>
      match for_each transport (All ms) h1 with
      | (h2, Some e) => ((ms, h2), Some e)
      | (h2, None) =>
          ((mkSystem (Root ms) (All ms) (Int.incr (StepCount ms)), h2), None)
      end
  end.

(** [InjectObject] *)
Definition InjectObject (membraneID : string) (obj : Object) (ms : MembraneSystem) (h : heap)
    : heap * option error :=
  match filter (fun a => from_option (fun m => bool_decide (ID m = membraneID)) false (h !! a))
               (All ms) with
  | a :: _ => (heap_AddObject a obj h, None)
  | [] => (h, Some (NotFound membraneID))
  end.

(** [CollectResults] *)
Definition CollectResults (ms : MembraneSystem) (h : heap) : list Object :=
  flat_map (fun a => match h !! a with
                     | Some m => if decide (length (Children m) = 0%nat) then Objects m else []
                     | None => []
                     end) (All ms).

(* ===================================================================== *)
(** * The membrane phase of the message filter *)
(* ===================================================================== *)

(** [processMembraneSystem] of [reservoir/filter.go], the caller of
    [InjectObject] and [Step]. *)
Section Filter.
(** [strings.ToLower] and [strings.Contains], of Go's library. *)
Variable ToLower : string -> string.
Variable Contains : string -> string -> bool.

Definition positive_signal : Object :=
  mkObject "positive_signal" 1%float 1 0x1.6666666666666p-1%float.   (* Mobility 0.7 *)

Definition negative_signal : Object :=
  mkObject "negative_signal" 1.5%float (-1) 0x1.ccccccccccccdp-1%float.  (* Mobility 0.9 *)

Definition positiveKeywords : list string := ["thank"; "please"; "regards"; "sincerely"].
Definition negativeKeywords : list string := ["click here"; "buy now"; "free money"; "act now"].

(** [for _, kw := range keywords { if strings.Contains(lower, kw) {
    rf.membraneSystem.InjectObject("root", obj) } }]; the error
    [InjectObject] returns is dropped. *)
Definition inject_signals (lower : string) (keywords : list string) (obj : Object)
    (ms : MembraneSystem) (h : heap) : heap :=
  foldl (fun h kw => if Contains lower kw then fst (InjectObject "root" obj ms h) else h)
        h keywords.

(** [for i := 0; i < n; i++ { if err := Step(); err != nil { return err } }] *)
Fixpoint step_loop (n : nat) (ms : MembraneSystem) (h : heap)
    : (MembraneSystem * heap) * option error :=
  match n with
  | O => ((ms, h), None)
  | S n' =>
      match Step ms h with
      | (s, Some e) => (s, Some e)
      | ((ms', h'), None) => step_loop n' ms' h'
      end
  end.

(** [func (rf *ReservoirFilter) processMembraneSystem(content string) error],
    on the filter's membrane system. *)
Definition processMembraneSystem (content : string) (ms : MembraneSystem) (h : heap)
    : (MembraneSystem * heap) * option error :=
  let lower := ToLower content in
  let h := inject_signals lower positiveKeywords positive_signal ms h in
  let h := inject_signals lower negativeKeywords negative_signal ms h in
  step_loop 3 ms h.
End Filter.

(* ===================================================================== *)
(** * The echo state network *)
(* ===================================================================== *)

(** [type ESNParams struct] *)
Record ESNParams := mkParams {
  ReservoirSize : Z;
  SpectralRadius : float;
  InputScaling : float;
  LeakRate : float;
  Sparsity : float;
  RidgeParam : float;
  TreeDepth : Z
}.

(** [type PersonaTrait struct] *)
Record PersonaTrait := mkPersona {
  Valence : float;
  Arousal : float;
  Dominance : float;
  Attention : float;
  Memory : float;
  Creativity : float
}.

Abbreviation vector := (list float).
Abbreviation matrix := (list (list float)).

(** [make([]float64, n)] and [make([][]float64, r)] with rows of [c] zeros. *)
Definition zeros (n : nat) : vector := replicate n 0%float.
Definition zero_matrix (r c : nat) : matrix := replicate r (zeros c).

(** Option-valued loops: a [None] is a panic and ends the computation. *)
Definition foldlM {A B} (f : A -> B -> option A) (a : A) (l : list B) : option A :=
  foldl (fun acc x => acc ≫= fun a => f a x) (Some a) l.

(** [sum := 0.0; for j := 0; j < n; j++ { sum += a[j] * b[j] }] *)
Definition dot (n : nat) (a b : vector) : option float :=
  foldlM (fun sum j => x ← a !! j; y ← b !! j; Some (sum + x * y)%float) 0%float (seq 0 n).

Section ESN.
(** The two things the engine takes from outside the package: the
    pseudo-random generator ([*rand.Rand], whose [Float64] returns a number
    and advances the generator) and [math.Tanh]. *)
Variable Rng : Type.
Variable rng_Float64 : Rng -> float * Rng.
Variable Tanh : float -> float.

(** [type ESN struct].  The lock [mu] and the logger [log] carry no data of
    the model: every method below runs with the lock held from its first
    to its last statement. *)
Record ESN := mkESN {
  params : ESNParams;
  persona : PersonaTrait;
  inputWeights : matrix;
  reservoirWeights : matrix;
  outputWeights : matrix;
  state : vector;
  membranes : list Membrane;
  rng : Rng;
  trained : bool
}.

Definition set_state (v : vector) (e : ESN) : ESN :=
  mkESN (params e) (persona e) (inputWeights e) (reservoirWeights e) (outputWeights e)
        v (membranes e) (rng e) (trained e).

Definition set_rng (g : Rng) (e : ESN) : ESN :=
  mkESN (params e) (persona e) (inputWeights e) (reservoirWeights e) (outputWeights e)
        (state e) (membranes e) g (trained e).

Definition set_inputWeights (w : matrix) (e : ESN) : ESN :=
  mkESN (params e) (persona e) w (reservoirWeights e) (outputWeights e)
        (state e) (membranes e) (rng e) (trained e).

(** One row of [setInputWeights]: [inputDim] draws, in column order. *)
Fixpoint draw_row (inputDim : nat) (scale : float) (g : Rng) : vector * Rng :=
  match inputDim with
  | O => ([], g)
  | S k =>
      let '(u, g) := rng_Float64 g in
      let '(row, g) := draw_row k scale g in
      (((u * 2 - 1) * scale)%float :: row, g)
  end.

Fixpoint draw_rows (n inputDim : nat) (scale : float) (g : Rng) : matrix * Rng :=
  match n with
  | O => ([], g)
  | S k =>
      let '(row, g) := draw_row inputDim scale g in
      let '(rows, g) := draw_rows k inputDim scale g in
      (row :: rows, g)
  end.

(** [setInputWeights(inputDim)]; [make] panics on a negative size. *)
Definition setInputWeights (inputDim : nat) (e : ESN) : option ESN :=
  let n := ReservoirSize (params e) in
  if n <? 0 then None
  else
    let '(w, g) := draw_rows (Z.to_nat n) inputDim (InputScaling (params e)) (rng e) in
    Some (set_rng g (set_inputWeights w e)).

(** [newState[i]] of [Update]. *)
Definition new_state_at (e : ESN) (input : vector) (i : nat) : option float :=
  wi ← inputWeights e !! i;
  inputSum ← dot (length input) wi input;
  ri ← reservoirWeights e !! i;
  recurrentSum ← dot (length (state e)) ri (state e);
  si ← state e !! i;
  let activation := Tanh (inputSum + recurrentSum)%float in
  let activation := (activation * (1 + F64.c_0_1 * Valence (persona e)))%float in
  let leakRate := (LeakRate (params e) * (1 + F64.c_0_2 * Attention (persona e)))%float in
  Some ((1 - leakRate) * si + leakRate * activation)%float.

(** [applyMembraneEvolution]: one draw per membrane; when it is below the
    permeability every component of the state is scaled. *)
Definition membrane_decay (st : vector * Rng) (membrane : Membrane) : vector * Rng :=
  let '(v, g) := st in
  let '(u, g) := rng_Float64 g in
  if (u <? Permeability membrane)%float then
    let factor := (1 - F64.c_0_05 * F64.of_int (Level membrane))%float in
    (map (fun x => (x * factor)%float) v, g)
  else (v, g).

Definition applyMembraneEvolution (e : ESN) : ESN :=
  let '(v, g) := foldl membrane_decay (state e, rng e) (membranes e) in
  set_rng g (set_state v e).

(** The inner loop of [applyRicciFlow] for neuron [i]: the sum and the
    count of the states of the neurons [j] with a non-zero weight. *)
Definition neighbours (w : matrix) (v : vector) (i : nat) : option (float * float) :=
  row ← w !! i;
  foldlM (fun nc j =>
            wij ← row !! j;
            sj ← v !! j;
            Some (if F64.ne wij 0%float
                  then ((fst nc + sj)%float, (snd nc + 1)%float) else nc))
         (0%float, 0%float) (seq 0 (length v)).

(** One iteration of the outer loop of [applyRicciFlow]; the state is
    updated in place, later neurons read the corrected values. *)
Definition ricci_step (e : ESN) (v : vector) (i : nat) : option vector :=
  nc ← neighbours (reservoirWeights e) v i;
  let '(neighbors, count) := nc in
  if F64.gt count 0%float then
    si ← v !! i;
    let avgNeighbor := (neighbors / count)%float in
    let curvature := (si - avgNeighbor)%float in
    let flowCoeff := (F64.c_0_01 * Memory (persona e))%float in
    Some (<[i := (si - flowCoeff * curvature)%float]> v)
  else Some v.

Definition applyRicciFlow (e : ESN) : option ESN :=
  v ← foldlM (ricci_step e) (state e) (seq 0 (length (state e)));
  Some (set_state v e).

(** [func (esn *ESN) Update(ctx, input) error].  The result is the engine
    after the call with the returned error; [None] is a panic. *)
Definition Update (e : ESN) (input : vector) : option (ESN * option error) :=
  e ← (if decide (length (inputWeights e) = 0%nat)
       then setInputWeights (length input) e else Some e);
  row0 ← inputWeights e !! 0%nat;
  if decide (length input ≠ length row0) then
    Some (e, Some (DimensionMismatch (length row0) (length input)))
  else
    newState ← mapM (new_state_at e input) (seq 0 (length (state e)));
    (* copy(esn.state, newState) *)
    let e := set_state newState e in
    let e := applyMembraneEvolution e in
    e ← applyRicciFlow e;
    Some (e, None).

(** [func (esn *ESN) Reset()] *)
Definition Reset (e : ESN) : ESN :=
  set_state (map (fun _ => 0%float) (state e)) e.

(** [func (esn *ESN) GetState() []float64]: a copy of the state. *)
Definition GetState (e : ESN) : vector := state e.

(** *** TrainOutput *)

Definition learningRate : float := F64.c_0_01.
Definition epochs : nat := 100.

(** The forward pass for one sample. *)
Definition forward (w : matrix) (inputDim outputDim : nat) (x : vector) : option vector :=
  mapM (fun i => wi ← w !! i; dot inputDim wi x) (seq 0 outputDim).

(** The backward pass for output [i] of one sample: the row of weights
    after [for j := 0; j < inputDim; j++]. *)
Definition backward_row (ridge : float) (inputDim : nat) (x : vector) (err : float)
    (wi : vector) : option vector :=
  foldlM (fun wi j =>
            xj ← x !! j;
            wij ← wi !! j;
            let gradient := (err * xj + ridge * wij)%float in
            Some (<[j := (wij - learningRate * gradient)%float]> wi))
         wi (seq 0 inputDim).

(** The body of [for s := range states]. *)
Definition train_sample (ridge : float) (inputDim outputDim : nat)
    (w : matrix) (xt : vector * vector) : option matrix :=
  let '(x, t) := xt in
  predictions ← forward w inputDim outputDim x;
  foldlM (fun w i =>
            p ← predictions !! i;
            ti ← t !! i;
            wi ← w !! i;
            wi' ← backward_row ridge inputDim x (p - ti)%float wi;
            Some (<[i := wi']> w))
         w (seq 0 outputDim).

(** [for epoch := 0; epoch < epochs; epoch++] over all samples. *)
Definition gradient_descent (ridge : float) (inputDim outputDim : nat)
    (states targets : matrix) (w : matrix) : option matrix :=
  foldlM (fun w _ => foldlM (train_sample ridge inputDim outputDim) w (zip states targets))
         w (seq 0 epochs).

Definition set_trained (w : matrix) (e : ESN) : ESN :=
  mkESN (params e) (persona e) (inputWeights e) (reservoirWeights e) w
        (state e) (membranes e) (rng e) true.

(** [func (esn *ESN) TrainOutput(ctx, states, targets) error].  The call of
    the logger at the end is not modelled. *)
Definition TrainOutput (e : ESN) (states targets : matrix) : option (ESN * option error) :=
  if decide (length states ≠ length targets) then
    Some (e, Some (SizeMismatch (length states) (length targets)))
  else if decide (length states = 0%nat) then
    Some (e, Some EmptyInput)
  else
    s0 ← states !! 0%nat;
    t0 ← targets !! 0%nat;
    let inputDim := length s0 in
    let outputDim := length t0 in
    (* Initialize output weights *)
    let w := zero_matrix outputDim inputDim in
    w ← gradient_descent (RidgeParam (params e)) inputDim outputDim states targets w;
    Some (set_trained w e, None).

(** The training the specification describes: the output weights are
    allocated only when absent, an engine that has them resumes from them.
    Written from the specification's sentence, for comparison with
    [TrainOutput]. *)
Definition TrainOutput_resuming (e : ESN) (states targets : matrix)
    : option (ESN * option error) :=
  if decide (length states ≠ length targets) then
    Some (e, Some (SizeMismatch (length states) (length targets)))
  else if decide (length states = 0%nat) then
    Some (e, Some EmptyInput)
  else
    s0 ← states !! 0%nat;
    t0 ← targets !! 0%nat;
    let inputDim := length s0 in
    let outputDim := length t0 in
    let w := if decide (length (outputWeights e) = 0%nat)
             then zero_matrix outputDim inputDim else outputWeights e in
    w ← gradient_descent (RidgeParam (params e)) inputDim outputDim states targets w;
    Some (set_trained w e, None).

(** A sequence of [Update] calls; a call that returns an error leaves the
    engine as that call left it and the sequence goes on. *)
Definition updates (e : ESN) (inputs : list vector) : option ESN :=
  foldlM (fun e input => fst <$> Update e input) e inputs.
End ESN.

Arguments Update {Rng} rng_Float64 Tanh e input.
Arguments updates {Rng} rng_Float64 Tanh e inputs.
Arguments Reset {Rng} e.
Arguments GetState {Rng} e.
Arguments TrainOutput {Rng} e states targets.
Arguments TrainOutput_resuming {Rng} e states targets.
Arguments setInputWeights {Rng} rng_Float64 inputDim e.
Arguments params {Rng} e.
Arguments persona {Rng} e.
Arguments inputWeights {Rng} e.
Arguments reservoirWeights {Rng} e.
Arguments outputWeights {Rng} e.
Arguments state {Rng} e.
Arguments membranes {Rng} e.
Arguments rng {Rng} e.
Arguments trained {Rng} e.

(* ===================================================================== *)
(** * The construction of the network, and Predict *)
(* ===================================================================== *)

(** The errors of [NewESN] and [Predict]. *)
Inductive esn_error :=
  | ReservoirSizeNotPositive   (* "reservoir size must be positive" *)
  | SpectralRadiusOutOfRange   (* "spectral radius must be in (0, 1)" *)
  | LeakRateOutOfRange         (* "leak rate must be in (0, 1]" *)
  | NotTrained                 (* "network not trained" *)
  | OutputWeightsMissing.      (* "output weights not initialized" *)

(** [DefaultESNParams] *)
Definition DefaultESNParams : ESNParams :=
  mkParams 100 0x1.e666666666666p-1%float (* 0.95 *) 1%float
           0x1.3333333333333p-2%float (* 0.3 *) F64.c_0_1
           0x1.5798ee2308c3ap-27%float (* 1e-8 *) 3.

(** [DefaultPersonaTrait] of [filter.go] *)
Definition DefaultPersonaTrait : PersonaTrait :=
  mkPersona F64.c_0_2 0x1.3333333333333p-1%float (* 0.6 *) 0.5%float
            F64.c_0_8 0x1.6666666666666p-1%float (* 0.7 *) 0.5%float.

Section ESNConstruction.
(** The generator, with the two methods the construction calls:
    [Float64] and [NormFloat64]. *)
Variable Rng : Type.
Variable rng_Float64 : Rng -> float * Rng.
Variable rng_NormFloat64 : Rng -> float * Rng.

Definition set_reservoirWeights (w : matrix) (e : ESN Rng) : ESN Rng :=
  mkESN Rng (params e) (persona e) (inputWeights e) w (outputWeights e)
        (state e) (membranes e) (rng e) (trained e).

Definition set_membranes (ms : list Membrane) (e : ESN Rng) : ESN Rng :=
  mkESN Rng (params e) (persona e) (inputWeights e) (reservoirWeights e) (outputWeights e)
        (state e) ms (rng e) (trained e).

(** One row of the reservoir matrix in [initializeReservoir]: for each
    column a draw of [Float64], and a draw of [NormFloat64] when the first
    is below the sparsity; the entry stays 0 otherwise. *)
Fixpoint init_row (n : nat) (sparsity : float) (g : Rng) : vector * Rng :=
  match n with
  | O => ([], g)
  | S k =>
      let '(u, g) := rng_Float64 g in
      let '(w, g) := if (u <? sparsity)%float then rng_NormFloat64 g else (0%float, g) in
      let '(row, g) := init_row k sparsity g in
      (w :: row, g)
  end.

Fixpoint init_rows (rows n : nat) (sparsity : float) (g : Rng) : matrix * Rng :=
  match rows with
  | O => ([], g)
  | S k =>
      let '(row, g) := init_row n sparsity g in
      let '(rest, g) := init_rows k n sparsity g in
      (row :: rest, g)
  end.

(** [for i := range v { v[i] = esn.rng.NormFloat64() }] *)
Fixpoint draw_normal (n : nat) (g : Rng) : vector * Rng :=
  match n with
  | O => ([], g)
  | S k =>
      let '(x, g) := rng_NormFloat64 g in
      let '(v, g) := draw_normal k g in
      (x :: v, g)
  end.

(** The normalisation of [scaleSpectralRadius]: the division of every
    component by the square root of the sum of the squares. *)
Definition normalize (v : vector) : vector :=
  let norm := sqrt (foldl (fun s val => (s + val * val)%float) 0%float v) in
  map (fun x => (x / norm)%float) v.

(** [newV[i] += esn.reservoirWeights[i][j] * v[j]] for every row [i] and
    every [j] in the range of the row. *)
Definition mat_vec (w : matrix) (v : vector) : option vector :=
  mapM (fun row => dot (length row) row v) w.

(** [for iter := 0; iter < 50; iter++] *)
Definition power_iteration (w : matrix) (v : vector) : option vector :=
  foldlM (fun v _ => normalize <$> mat_vec w v) v (seq 0 50).

(** The estimate of the largest eigenvalue, before [math.Abs]. *)
Definition eigenvalue_estimate (w : matrix) (v : vector) : option float :=
  foldlM (fun eigenvalue i =>
            row ← w !! i;
            product ← dot (length row) row v;
            vi ← v !! i;
            Some (eigenvalue + product * vi)%float)
         0%float (seq 0 (length v)).

(** [scaleSpectralRadius]; the error it returns is always [nil]. *)
Definition scaleSpectralRadius (e : ESN Rng) : option (ESN Rng) :=
  let w := reservoirWeights e in
  let '(v, g) := draw_normal (length w) (rng e) in
  v ← power_iteration w (normalize v);
  eigenvalue ← eigenvalue_estimate w v;
  let eigenvalue := F64.Abs eigenvalue in
  let w :=
    if F64.gt eigenvalue 0%float then
      let scale := (SpectralRadius (params e) / eigenvalue)%float in
      map (map (fun x => (x * scale)%float)) w
    else w in
  Some (set_rng Rng g (set_reservoirWeights w e)).

(** The membranes of one level in [initializeMembranes]: [1 << level] of
    them, the shift being the one of a 64-bit [int]. *)
Definition level_membranes (arousal : float) (level : Z) : list Membrane :=
  let numMembranes := Int.wrap (2 ^ level) in
  map (fun i : nat =>
         mkMembrane ("L" +:+ pretty level +:+ "_M" +:+ pretty (Z.of_nat i)) level
                    (0.5 + 0.5 * arousal)%float [] [] None [])
      (seq 0 (Z.to_nat numMembranes)).

(** [initializeMembranes] *)
Definition initializeMembranes (e : ESN Rng) : ESN Rng :=
  let depth := TreeDepth (params e) in
  set_membranes
    (flat_map (fun level : nat => level_membranes (Arousal (persona e)) (Z.of_nat level))
              (seq 0 (Z.to_nat depth)))
    e.

(** [initializeReservoir]; the error it returns is always [nil]. *)
Definition initializeReservoir (e : ESN Rng) : option (ESN Rng) :=
  let n := ReservoirSize (params e) in
  if n <? 0 then None
  else
    let '(w, g) := init_rows (Z.to_nat n) (Z.to_nat n) (Sparsity (params e)) (rng e) in
    e ← scaleSpectralRadius (set_rng Rng g (set_reservoirWeights w e));
    Some (initializeMembranes e).

(** [func NewESN(log, params, persona)], which returns an engine or an
    error.  [g0] is the generator the source seeds from the clock.  [None]
    is a panic. *)
Definition NewESN (params : ESNParams) (persona : PersonaTrait) (g0 : Rng)
    : option (ESN Rng + esn_error) :=
  if ReservoirSize params <=? 0 then Some (inr ReservoirSizeNotPositive)
  else if ((SpectralRadius params <=? 0) || (1 <=? SpectralRadius params))%float
  then Some (inr SpectralRadiusOutOfRange)
  else if ((LeakRate params <=? 0) || (1 <? LeakRate params))%float
  then Some (inr LeakRateOutOfRange)
  else
    let esn := mkESN Rng params persona [] [] []
                     (zeros (Z.to_nat (ReservoirSize params))) [] g0 false in
    inl <$> initializeReservoir esn.

(** [func (esn *ESN) Predict(ctx) ([]float64, error)].  A [matrix] does not
    tell a [nil] slice from an empty one: the result of the test
    [esn.outputWeights == nil] is the argument [weights_nil]. *)
Definition Predict (weights_nil : bool) (e : ESN Rng) : option (vector + esn_error) :=
  if negb (trained e) then Some (inr NotTrained)
  else if weights_nil then Some (inr OutputWeightsMissing)
  else
    output ← mapM (fun wi => dot (length (state e)) wi (state e)) (outputWeights e);
    Some (inl output).
End ESNConstruction.

Arguments NewESN {Rng} rng_Float64 rng_NormFloat64 params persona g0.
Arguments Predict {Rng} weights_nil e.
Arguments initializeMembranes {Rng} e.
Arguments scaleSpectralRadius {Rng} rng_NormFloat64 e.
Arguments initializeReservoir {Rng} rng_Float64 rng_NormFloat64 e.

(* ===================================================================== *)
(** * Definitions used to state the properties *)
(* ===================================================================== *)

(** ** The exchange sort, by recursion on the list *)

(** One pass of the inner loop seen from the element held at position [i]:
    the element left there and the rest of the slice after the pass. *)
Fixpoint bubble (x : EvolutionRule) (rest : list EvolutionRule)
    : EvolutionRule * list EvolutionRule :=
  match rest with
  | [] => (x, [])
  | y :: rest' =>
      if Priority x <? Priority y
      then (fst (bubble y rest'), x :: snd (bubble y rest'))
      else (fst (bubble x rest'), y :: snd (bubble x rest'))
  end.

Fixpoint selection (n : nat) (l : list EvolutionRule) : list EvolutionRule :=
  match n, l with
  | S n', x :: rest => fst (bubble x rest) :: selection n' (snd (bubble x rest))
  | _, _ => l
  end.

(** Rules in descending order of priority. *)
Definition priority_ge (r1 r2 : EvolutionRule) : Prop := Priority r2 <= Priority r1.

(** ** What an evolution consumed and produced *)

(** The indices consumed by a list of accepted matches. *)
Definition consumed (acc : list (EvolutionRule * list nat)) : gset nat :=
  list_to_set (concat (map snd acc)).

(** The objects at the indices outside [used], in ascending index order. *)
Definition kept (objs : list Object) (used : gset nat) : list Object :=
  map (fun i => objs !!! i) (filter (fun i => i ∉ used) (seq 0 (length objs))).

(** The objects produced by a list of accepted matches, in order. *)
Definition produced (objs : list Object) (acc : list (EvolutionRule * list nat)) : list Object :=
  concat (map (produce objs) acc).

(** The rule with its input types listed once each. *)
Definition distinct_inputs (r : EvolutionRule) : EvolutionRule :=
  mkRule (Name r) (Priority r) (remove_dups (InputTypes r)) (OutputTypes r)
         (Conditions r) (Transform r).

(** ** Concrete membranes used as examples *)

Definition out_object : Object := mkObject "out" 2%float 0 0.5%float.

(** A rule that lists the type ["a"] twice. *)
Definition dup_rule : EvolutionRule :=
  mkRule "needs_two" 10 ["a"; "a"] ["out"] [] (Some (λ _, [out_object])).

(** A membrane holding a single object of type ["a"] and that rule. *)
Definition dup_membrane : Membrane :=
  mkMembrane "m" 0 0.5%float [mkObject "a" 1%float 0 0.5%float] [dup_rule] None [].

(** A rule without transform, and a membrane in which it matches. *)
Definition nil_rule : EvolutionRule := mkRule "sink" 10 ["a"] [] [] None.

Definition nil_membrane : Membrane :=
  mkMembrane "m" 0 0.5%float
    [mkObject "a" 1%float 0 0.5%float; mkObject "b" 1%float 1 0.5%float]
    [nil_rule] None [].

(** A rule that requires nothing. *)
Definition empty_rule : EvolutionRule :=
  mkRule "free" 10 [] ["out"] [] (Some (λ _, [out_object])).

Definition empty_membrane : Membrane :=
  mkMembrane "m" 0 0.5%float [mkObject "a" 1%float 0 0.5%float] [empty_rule] None [].

(** ** The pass test as the specification words it *)

(** [permeability · mobility · (1.2 if charge ≠ 0 else 1.0) > 0.5] *)
Definition passes_spec (permeability : float) (obj : Object) : bool :=
  let factor := if Charge obj =? 0 then 1%float else F64.c_1_2 in
  F64.gt (permeability * Mobility obj * factor)%float 0.5%float.

(** A membrane of permeability 1 holding one charged object of mobility 1. *)
Definition charged_object : Object := mkObject "x" 1%float 1 1%float.

Definition self_membrane : Membrane :=
  mkMembrane "m" 0 1%float [charged_object] [] None [].

(** ** Finite or infinite binary64 values of a given sign *)

Definition signed_nonzero (s : bool) (x : spec_float) : Prop :=
  x = S754_infinity s ∨ ∃ m e, x = S754_finite s m e.

(** ** Engines used as examples *)

(** The engine with other output weights and another [trained] flag. *)
Definition with_output {Rng} (w : matrix) (t : bool) (e : ESN Rng) : ESN Rng :=
  mkESN Rng (params e) (persona e) (inputWeights e) (reservoirWeights e) w
        (state e) (membranes e) (rng e) t.

Definition neutral_persona : PersonaTrait :=
  mkPersona 0%float 0%float 0%float 0%float 0%float 0%float.

(** An engine with one neuron and no ridge penalty, not yet trained; its
    generator is a constant one. *)
Definition fresh_engine : ESN unit :=
  mkESN unit (mkParams 1 0.5%float 1%float 0.5%float 0.5%float 0%float 1)
        neutral_persona [] [[0.5%float]] [] [0%float] [] tt false.

(** The same engine already trained, with the output weight 1. *)
Definition trained_engine : ESN unit := with_output [[1%float]] true fresh_engine.

Definition constant_rng (u : unit) : float * unit := (0.25%float, tt).

(** The engine [fresh_engine] after three [Update] calls, the second with an
    input of the wrong length. *)
Definition update_inputs : list vector := [[1%float]; [1%float; 1%float]; [0.5%float]].

Definition updated_engine : ESN unit :=
  Eval vm_compute in
    default fresh_engine (updates constant_rng (λ x, x) fresh_engine update_inputs).

(** ** The shape of a membrane hierarchy *)

(** The membranes reachable from [root] through the [Children] lists. *)
Inductive reachable (h : heap) (root : addr) : addr → Prop :=
  | reach_root : reachable h root root
  | reach_child p m c :
      reachable h root p → h !! p = Some m → c ∈ Children m → reachable h root c.

(** A membrane of a hierarchy allocated from address [base] on: the root, or
    a child one level below its parent, which was allocated before it and
    lists it among its children. *)
Definition wf_cell (base : nat) (h : heap) (a : addr) (m : Membrane) : Prop :=
  (a = base ∧ ID m = "root" ∧ Level m = 0 ∧ Permeability m = 1%float ∧ Parent m = None)
  ∨ (∃ p mp, (base ≤ p < a)%nat ∧ Parent m = Some p ∧ h !! p = Some mp
             ∧ Level m = Level mp + 1
             ∧ Permeability m = child_permeability (Level m)
             ∧ a ∈ Children mp).

Definition wf_system (base : nat) (ms : MembraneSystem) (h : heap) : Prop :=
  Root ms = base
  ∧ All ms = seq base (length h - base)
  ∧ (base < length h)%nat
  ∧ (∀ a m, (base ≤ a)%nat → h !! a = Some m → wf_cell base h a m)
  ∧ (∀ a m c, (base ≤ a)%nat → h !! a = Some m → c ∈ Children m → (a < c < length h)%nat).

(** What a construction step may do to the heap it starts from: extend it,
    and keep the level of every membrane and the membranes below [base]. *)
Definition heap_extends (base : nat) (h h' : heap) : Prop :=
  (length h ≤ length h')%nat
  ∧ (∀ a m, h !! a = Some m → ∃ m', h' !! a = Some m' ∧ Level m' = Level m)
  ∧ take base h' = take base h.

(** ** The operations of a system step *)

(** The calls a step makes on the membranes, as data. *)
Inductive step_op :=
  | OpEvolve (a : addr)           (* a.Evolve() *)
  | OpPass (src tgt : addr).      (* src.PassObjects(tgt) *)

(** Running one call on the heap. *)
Definition run_op (h : heap) (op : step_op) : heap :=
  match op with
  | OpEvolve a => (heap_Evolve a h).1
  | OpPass src tgt => (PassObjects src (Some tgt) h).1
  end.

(** The transports of one membrane: to its parent when it has one, then to
    its children in the order of its child list. *)
Definition transports_of (h : heap) (a : addr) : list step_op :=
  match h !! a with
  | Some m =>
      match Parent m with Some p => [OpPass a p] | None => [] end
      ++ map (OpPass a) (Children m)
  | None => []
  end.

(** Two heaps with the same membranes and the same parent and child
    pointers; the object lists may differ. *)
Definition same_structure (h h' : heap) : Prop :=
  ∀ a, (Parent <$> h' !! a) = (Parent <$> h !! a)
       ∧ (Children <$> h' !! a) = (Children <$> h !! a).

(** A system whose step counter holds the largest [int]. *)
Definition last_step_system : MembraneSystem := mkSystem 0%nat [0%nat] Int.max_int.

(** ** The membranes of the repository's tests *)

(** [TestMembraneEvolution] *)
Definition test_rule : EvolutionRule :=
  mkRule "test_rule" 10 ["token"] ["processed"] []
         (Some (λ _, [mkObject "processed" 2%float 0 0.5%float])).

Definition test_membrane : Membrane :=
  AddRule test_rule
    (AddObject (mkObject "positive_signal" F64.c_0_8 1 0x1.6666666666666p-1%float)
       (AddObject (mkObject "token" 1%float 0 0.5%float)
          (NewMembrane "test" 0 0.5%float))).

(** A membrane with the default rules holding a token and a negative signal
    of value 3. *)
Definition spam_membrane : Membrane :=
  mkMembrane "m" 1 0.5%float
    [mkObject "token" 1%float 0 0.5%float; mkObject "negative_signal" 3%float (-1) 0.5%float]
    CreateDefaultRules None [].

(** ** All the objects of a heap *)

(** The objects of all membranes, membrane after membrane. *)
Definition all_objects (h : heap) : list Object := concat (map Objects h).


(** ** The hierarchy as a complete binary tree *)

(** The number of membranes [buildHierarchy] creates below one membrane when
    [k] levels remain to be built. *)
Fixpoint descendants_count (k : nat) : nat :=
  match k with
  | O => 0%nat
  | S k' => (2 * S (descendants_count k'))%nat
  end.

(** The addresses of the two children created below a membrane, the first
    free address being [a]: the first child, then, after the first child's
    own descendants, the second. *)
Definition child_addrs (k : nat) (a : addr) : list addr :=
  match k with
  | O => []
  | S k' => [a; (a + S (descendants_count k'))%nat]
  end.

(** The membranes created below the membrane at [parent], whose identifier
    is [pid], in the order of their creation, [k] levels remaining, the
    children being of level [cur] and the first free address being [a]. *)
Fixpoint descendants (k : nat) (parent : addr) (pid : string) (cur : Z) (a : addr)
    : list Membrane :=
  match k with
  | O => []
  | S k' =>
      let child (i : Z) (c : addr) :=
        mkMembrane (pid +:+ "_" +:+ pretty i) cur (child_permeability cur) []
                   CreateDefaultRules (Some parent) (child_addrs k' (S c)) in
      let c0 := a in
      let c1 := (a + S (descendants_count k'))%nat in
      child 0 c0 :: descendants k' c0 (pid +:+ "_" +:+ pretty 0) (cur + 1) (S c0)
      ++ child 1 c1 :: descendants k' c1 (pid +:+ "_" +:+ pretty 1) (cur + 1) (S c1)
  end.


(** ** The signals of the message filter *)

(** The objects [processMembraneSystem] injects for a lower-cased content,
    in the order of their injection. *)
Definition signals_of (Contains : string → string → bool) (lower : string) : list Object :=
  flat_map (λ kw, if Contains lower kw then [positive_signal] else []) positiveKeywords
  ++ flat_map (λ kw, if Contains lower kw then [negative_signal] else []) negativeKeywords.

(** The heap in which the root of the system holds the objects [objs]. *)
Definition with_root_objects (objs : list Object) (ms : MembraneSystem) (h : heap) : heap :=
  alter (set_Objects objs) (Root ms) h.

(** The system with another step counter. *)
Definition with_StepCount (c : Z) (ms : MembraneSystem) : MembraneSystem :=
  mkSystem (Root ms) (All ms) c.

(** An object that passes both from the root to a child and from a child of
    the root back to the root. *)
Definition bounces (obj : Object) : Prop :=
  passes 1%float obj = true ∧ passes (child_permeability 1) obj = true.


(** The heap and the system [NewMembraneSystem] builds after the membranes
    of [h0], [k] levels below the root, the root holding the objects
    [objs] and the counter holding [c]. *)
Definition tree_heap (k : nat) (h0 : heap) (objs : list Object) : heap :=
  h0 ++ mkMembrane "root" 0 1%float objs [] None (child_addrs k (S (length h0)))
     :: descendants k (length h0) "root" 1 (S (length h0)).

Definition tree_system (k : nat) (h0 : heap) (c : Z) : MembraneSystem :=
  mkSystem (length h0) (seq (length h0) (S (descendants_count k))) c.


(** ** Engines with consistent dimensions *)

(** An engine of [n] neurons, [n] positive: the state has [n] components,
    the reservoir matrix is [n] by [n], and the input matrix is absent or
    has [n] rows of one length. *)
Definition wf_engine {Rng} (e : ESN Rng) : Prop :=
  let n := length (state e) in
  (0 < n)%nat
  ∧ ReservoirSize (params e) = Z.of_nat n
  ∧ length (reservoirWeights e) = n
  ∧ Forall (λ row, length row = n) (reservoirWeights e)
  ∧ (inputWeights e = []
     ∨ (length (inputWeights e) = n
        ∧ ∃ k, Forall (λ row, length row = k) (inputWeights e))).

(** The input dimension of an engine: the length of the first row of its
    input matrix, when it has one. *)
Definition input_dimension {Rng} (e : ESN Rng) : option nat :=
  length <$> inputWeights e !! 0%nat.


(** What an update leaves alone: everything but the state (whose length it
    keeps), the generator and, on the first call, the input matrix. *)
Definition update_frame {Rng} (e e' : ESN Rng) : Prop :=
  params e' = params e ∧ persona e' = persona e
  ∧ reservoirWeights e' = reservoirWeights e ∧ outputWeights e' = outputWeights e
  ∧ membranes e' = membranes e ∧ trained e' = trained e
  ∧ length (state e') = length (state e).


(** The three tests of [NewESN] on the parameters, each in the sense of the
    float comparison the source makes (a NaN fails none of them). *)
Definition valid_params (p : ESNParams) : bool :=
  (0 <? ReservoirSize p)
  && negb (SpectralRadius p <=? 0)%float && negb (1 <=? SpectralRadius p)%float
  && negb (LeakRate p <=? 0)%float && negb (1 <? LeakRate p)%float.


(** ** Ragged training data *)

(** Sample [s] of the training data is too short: its state row is shorter
    than the first state row while there is an output to compute, or its
    target row is shorter than the first target row. *)
Definition short_sample (states targets : matrix) (s : nat) : Prop :=
  ∃ s0 t0 x t,
    states !! 0%nat = Some s0 ∧ targets !! 0%nat = Some t0
    ∧ states !! s = Some x ∧ targets !! s = Some t
    ∧ ((length x < length s0 ∧ 0 < length t0)%nat ∨ (length t < length t0)%nat).


(** ** More engines used as examples *)

(** Parameters of a network of two neurons and three membrane levels. *)
Definition small_params : ESNParams :=
  mkParams 2 0.5%float 1%float 0.5%float 0.5%float 0%float 3.

(** The engine [NewESN] builds for them with the constant generator. *)
Definition small_engine : ESN unit :=
  Eval vm_compute in
    match NewESN constant_rng constant_rng small_params neutral_persona tt with
    | Some (inl e) => e
    | _ => fresh_engine
    end.

(** [fresh_engine] after a training on one sample. *)
Definition fresh_engine_trained : ESN unit :=
  Eval vm_compute in
    match TrainOutput fresh_engine [[1%float]] [[2%float]] with
    | Some (e, _) => e
    | None => fresh_engine
    end.

(** An engine with a single membrane, of level 0 and permeability 1. *)
Definition one_membrane_engine : ESN unit :=
  mkESN unit (mkParams 1 0.5%float 1%float 0.5%float 0.5%float 0%float 1)
        neutral_persona [] [[0.5%float]] [] [0.75%float]
        [mkMembrane "L0_M0" 0 1%float [] [] None []] tt false.


(** Two heaps whose membranes differ at most in their object lists. *)
Definition same_but_objects (h h' : heap) : Prop :=
  length h' = length h
  ∧ ∀ a m, h !! a = Some m → ∃ objs, h' !! a = Some (set_Objects objs m).


(* ===================================================================== *)
(** * Properties of the rule sort *)
(* ===================================================================== *)

Section SortRules.
Implicit Types (a pre rest seen todo : list EvolutionRule) (x y : EvolutionRule).

Lemma bubble_length x rest : length (snd (bubble x rest)) = length rest.
Proof.
  revert x; induction rest as [|y rest IH]; intros x; simpl; [done|].
  destruct (Priority x <? Priority y); simpl; by rewrite IH.
Qed.

Lemma exchange_step_middle pre x seen y todo :
  exchange_step (length pre) (pre ++ x :: seen ++ y :: todo) (S (length pre + length seen))
  = if Priority x <? Priority y
    then pre ++ y :: seen ++ x :: todo
    else pre ++ x :: seen ++ y :: todo.
Proof.
  unfold exchange_step.
  rewrite list_lookup_middle by done.
  replace (S (length pre + length seen)) with (length (pre ++ x :: seen) + 0)%nat
    by (rewrite length_app; simpl; lia).
  replace (pre ++ x :: seen ++ y :: todo) with ((pre ++ x :: seen) ++ y :: todo)
    by (by rewrite <- app_assoc).
  rewrite lookup_app_r by lia.
  replace (length (pre ++ x :: seen) + 0 - length (pre ++ x :: seen))%nat with 0%nat by lia.
  simpl. destruct (Priority x <? Priority y); [|done].
  rewrite insert_app_r. simpl.
  rewrite <- app_assoc. simpl.
  replace (length pre) with (length pre + 0)%nat at 1 by lia.
  by rewrite insert_app_r.
Qed.

Lemma inner_loop_bubble_gen pre todo : ∀ x seen,
  foldl (exchange_step (length pre)) (pre ++ x :: seen ++ todo)
        (seq (S (length pre + length seen)) (length todo))
  = pre ++ fst (bubble x todo) :: seen ++ snd (bubble x todo).
Proof.
  induction todo as [|y todo IH]; intros x seen; [done|].
  cbn [length seq foldl]. rewrite exchange_step_middle.
  cbn [bubble].
  destruct (Priority x <? Priority y); cbn [fst snd].
  - specialize (IH y (seen ++ [x])).
    rewrite length_app in IH. cbn [length] in IH.
    replace (S (length pre + (length seen + 1))) with (S (S (length pre + length seen)))
      in IH by lia.
    rewrite <- !app_assoc in IH. exact IH.
  - specialize (IH x (seen ++ [y])).
    rewrite length_app in IH. cbn [length] in IH.
    replace (S (length pre + (length seen + 1))) with (S (S (length pre + length seen)))
      in IH by lia.
    rewrite <- !app_assoc in IH. exact IH.
Qed.

Lemma inner_loop_bubble pre x rest :
  inner_loop (pre ++ x :: rest) (length pre)
  = pre ++ fst (bubble x rest) :: snd (bubble x rest).
Proof.
  unfold inner_loop.
  replace (length (pre ++ x :: rest) - S (length pre))%nat with (length rest)
    by (rewrite length_app; simpl; lia).
  pose proof (inner_loop_bubble_gen pre rest x []) as H.
  simpl in H. by rewrite Nat.add_0_r in H.
Qed.

Lemma sortRules_selection_gen n : ∀ pre rest,
  length rest = n →
  foldl inner_loop (pre ++ rest) (seq (length pre) n) = pre ++ selection n rest.
Proof.
  induction n as [|n IH]; intros pre rest Hn; [done|].
  destruct rest as [|x rest]; [done|]. simpl in Hn.
  cbn [seq foldl selection]. rewrite inner_loop_bubble.
  specialize (IH (pre ++ [fst (bubble x rest)]) (snd (bubble x rest))).
  rewrite length_app in IH. cbn [length] in IH.
  replace (length pre + 1)%nat with (S (length pre)) in IH by lia.
  rewrite <- !app_assoc in IH. apply IH.
  rewrite bubble_length. lia.
Qed.

Lemma sortRules_selection a : sortRules a = selection (length a) a.
Proof. exact (sortRules_selection_gen (length a) [] a eq_refl). Qed.

Lemma bubble_perm x rest : fst (bubble x rest) :: snd (bubble x rest) ≡ₚ x :: rest.
Proof.
  revert x; induction rest as [|y rest IH]; intros x; simpl; [done|].
  destruct (Priority x <? Priority y); simpl.
  - etrans; [apply Permutation_swap|]. by rewrite IH.
  - etrans; [apply Permutation_swap|]. rewrite IH. apply Permutation_swap.
Qed.

Lemma bubble_max x rest :
  Priority x <= Priority (fst (bubble x rest))
  ∧ Forall (priority_ge (fst (bubble x rest))) (snd (bubble x rest)).
Proof.
  revert x; induction rest as [|y rest IH]; intros x; simpl.
  - split; [lia | constructor].
  - destruct (Z.ltb_spec (Priority x) (Priority y)); simpl.
    + destruct (IH y) as [Hy Hall]. split; [lia|].
      constructor; [unfold priority_ge; lia | done].
    + destruct (IH x) as [Hx Hall]. split; [done|].
      constructor; [unfold priority_ge; lia | done].
Qed.

Lemma selection_perm n : ∀ l, selection n l ≡ₚ l.
Proof.
  induction n as [|n IH]; intros [|x rest]; simpl; try done.
  rewrite IH. apply bubble_perm.
Qed.

Lemma selection_sorted n : ∀ l, length l = n → StronglySorted priority_ge (selection n l).
Proof.
  induction n as [|n IH]; intros [|x rest] Hl; simpl in *; try done; try constructor.
  - apply IH. rewrite bubble_length. lia.
  - rewrite selection_perm. apply bubble_max.
Qed.

Lemma sortRules_perm a : sortRules a ≡ₚ a.
Proof. rewrite sortRules_selection. apply selection_perm. Qed.

Lemma sortRules_sorted a : StronglySorted priority_ge (sortRules a).
Proof. rewrite sortRules_selection. by apply selection_sorted. Qed.
End SortRules.

(* ===================================================================== *)
(** * Properties of findMatches *)
(* ===================================================================== *)

Section FindMatches.
Implicit Types (objs : list Object) (used : gset nat) (tn : gset string)
               (iobjs : list (nat * Object)) (mt : list nat).

Lemma scan_objects_length iobjs used : ∀ mt tn,
  (length (scan_objects iobjs used mt tn) ≤ 1)%nat.
Proof.
  induction iobjs as [|[i obj] rest IH]; intros mt tn; simpl; [lia|].
  repeat case_decide; simpl; auto.
Qed.

(** A match extends the provisional match by unused objects of pairwise
    distinct types, taken in scan order, whose types are exactly the types
    still needed. *)
Lemma scan_objects_inv iobjs used : ∀ mt tn mt',
  mt' ∈ scan_objects iobjs used mt tn →
  ∃ ext : list (nat * Object),
    mt' = mt ++ map fst ext
    ∧ ext `sublist_of` iobjs
    ∧ Forall (λ io, io.1 ∉ used) ext
    ∧ NoDup (map (λ io, Type_ io.2) ext)
    ∧ list_to_set (map (λ io, Type_ io.2) ext) = tn.
Proof.
  induction iobjs as [|[i obj] rest IH]; intros mt tn mt' Hin; simpl in Hin.
  { by apply elem_of_nil in Hin. }
  destruct (decide (i ∈ used)) as [Hu|Hu].
  { destruct (IH _ _ _ Hin) as (ext & ? & ? & ? & ? & ?).
    exists ext. split_and!; try done. by apply sublist_cons. }
  destruct (decide (Type_ obj ∈ tn)) as [Ht|Ht].
  - destruct (decide (size (tn ∖ {[Type_ obj]}) = 0%nat)) as [Hz|Hz].
    + apply list_elem_of_singleton in Hin. subst mt'.
      exists [(i, obj)]. split_and!; try done.
      * apply sublist_skip, sublist_nil_l.
      * by repeat constructor.
      * apply NoDup_singleton.
      * simpl. apply size_empty_inv, leibniz_equiv in Hz.
        rewrite (union_difference_singleton_L _ _ Ht), Hz. set_solver.
    + destruct (IH _ _ _ Hin) as (ext & -> & Hsub & Hall & Hnd & Hset).
      exists ((i, obj) :: ext). split_and!.
      * by rewrite <- app_assoc.
      * by apply sublist_skip.
      * by constructor.
      * simpl. apply NoDup_cons. split; [|done].
        intros Hin'. apply (elem_of_list_to_set (C := gset string)) in Hin'.
        rewrite Hset in Hin'. apply elem_of_difference in Hin' as [_ Hn].
        apply Hn. by apply elem_of_singleton.
      * simpl. rewrite Hset. symmetry. by apply union_difference_singleton_L.
  - destruct (IH _ _ _ Hin) as (ext & ? & ? & ? & ? & ?).
    exists ext. split_and!; try done. by apply sublist_cons.
Qed.

Lemma findMatches_length objs r used : (length (findMatches objs r used) ≤ 1)%nat.
Proof.
  unfold findMatches. case_decide; simpl; [lia|]. apply scan_objects_length.
Qed.

Lemma findMatches_cases objs r used :
  findMatches objs r used = [] ∨ ∃ mt, findMatches objs r used = [mt].
Proof.
  pose proof (findMatches_length objs r used) as H.
  destruct (findMatches objs r used) as [|mt [|]]; simpl in H; eauto; lia.
Qed.

Lemma findMatches_no_inputs objs r used : InputTypes r = [] → findMatches objs r used = [].
Proof. intros H. unfold findMatches. by rewrite H. Qed.

(** The matcher looks at the required types as a set. *)
Lemma findMatches_set_eq objs r r' used :
  list_to_set (InputTypes r) =@{gset string} list_to_set (InputTypes r') →
  findMatches objs r used = findMatches objs r' used.
Proof.
  intros Hset. unfold findMatches. rewrite Hset.
  destruct (InputTypes r) as [|t ts], (InputTypes r') as [|t' ts']; simpl in *;
    try done; set_solver.
Qed.

Lemma list_to_set_remove_dups (l : list string) :
  list_to_set (remove_dups l) =@{gset string} list_to_set l.
Proof.
  apply set_eq. intros x. by rewrite !elem_of_list_to_set, elem_of_remove_dups.
Qed.

Lemma findMatches_distinct_inputs objs r used :
  findMatches objs r used = findMatches objs (distinct_inputs r) used.
Proof. apply findMatches_set_eq. simpl. by rewrite list_to_set_remove_dups. Qed.

(** The shape of a match: indices of unused objects of [objs], whose types
    are pairwise distinct and are exactly the required types. *)
Lemma findMatches_inv objs r used mt :
  mt ∈ findMatches objs r used →
  Forall (λ i, (i < length objs)%nat ∧ i ∉ used) mt
  ∧ NoDup (map Type_ (inputObjs objs mt))
  ∧ list_to_set (map Type_ (inputObjs objs mt)) =@{gset string} list_to_set (InputTypes r)
  ∧ length mt = size (list_to_set (InputTypes r) : gset string).
Proof.
  unfold findMatches. case_decide; [by intros ?%elem_of_nil|].
  intros (ext & -> & Hsub & Hall & Hnd & Hset)%scan_objects_inv. simpl.
  assert (Hlk : Forall (λ io, objs !! io.1 = Some io.2) ext).
  { apply Forall_forall. intros [i o] Hin%(sublist_subseteq _ _ Hsub).
    apply elem_of_lookup_imap in Hin as (j & y & [= -> ->] & Hj). done. }
  assert (Hobjs : inputObjs objs (map fst ext) = map snd ext).
  { unfold inputObjs. rewrite map_map. apply Forall_fmap_ext_1.
    eapply Forall_impl; [exact Hlk|]. intros [i o] Hio; simpl in *.
    by apply list_lookup_total_correct. }
  rewrite Hobjs, map_map. split_and!; try done.
  - apply Forall_fmap. rewrite Forall_forall in Hlk, Hall |- *.
    intros io Hin. simpl. split; [|by apply Hall].
    eapply lookup_lt_Some, Hlk, Hin.
  - rewrite <- Hset, size_list_to_set by done. by rewrite !length_map.
Qed.

Lemma findMatches_in_range objs r used mt :
  mt ∈ findMatches objs r used → Forall (λ i, (i < length objs)%nat) mt.
Proof.
  intros H%findMatches_inv. eapply Forall_impl; [apply H|]. by intros ? [? _].
Qed.
End FindMatches.

Section FindMatchesComplete.
Implicit Types (objs : list Object) (used : gset nat) (tn : gset string)
               (iobjs : list (nat * Object)) (mt : list nat).

(** The scan finds a match as soon as every needed type has an unused
    object among the objects still to be scanned. *)
Lemma scan_objects_complete iobjs used : ∀ mt tn,
  tn ≠ ∅ →
  (∀ t, t ∈ tn → ∃ io, io ∈ iobjs ∧ Type_ io.2 = t ∧ io.1 ∉ used) →
  ∃ mt', scan_objects iobjs used mt tn = [mt'].
Proof.
  induction iobjs as [|[i obj] rest IH]; intros mt tn Hne Hav.
  { destruct (set_choose_L tn Hne) as [t Ht].
    destruct (Hav t Ht) as (io & Hin & _). by apply elem_of_nil in Hin. }
  simpl.
  assert (Hrest : ∀ tn', tn' ⊆ tn → (i ∈ used ∨ Type_ obj ∉ tn') →
            ∀ t, t ∈ tn' → ∃ io, io ∈ rest ∧ Type_ io.2 = t ∧ io.1 ∉ used).
  { intros tn' Hsub Hskip t Ht.
    destruct (Hav t (Hsub _ Ht)) as (io & Hin & Hty & Hu).
    apply elem_of_cons in Hin as [->|Hin]; [|by exists io].
    simpl in *. destruct Hskip as [?|Hn]; [done|]. by subst t. }
  destruct (decide (i ∈ used)) as [Hu|Hu].
  { apply IH; [done|]. apply Hrest; auto. }
  destruct (decide (Type_ obj ∈ tn)) as [Ht|Ht].
  - destruct (decide (size (tn ∖ {[Type_ obj]}) = 0%nat)) as [Hz|Hz]; [by eexists|].
    apply IH.
    + intros Hempty. apply Hz. rewrite Hempty. apply size_empty.
    + apply Hrest; [apply subseteq_difference_l; done|].
      right. intros [_ Hn]%elem_of_difference. apply Hn. by apply elem_of_singleton.
  - apply IH; [done|]. apply Hrest; auto.
Qed.

Lemma findMatches_complete objs r used :
  InputTypes r ≠ [] →
  (∀ t, t ∈ InputTypes r → ∃ i o, objs !! i = Some o ∧ Type_ o = t ∧ i ∉ used) →
  ∃ mt, findMatches objs r used = [mt].
Proof.
  intros Hne Hav. unfold findMatches.
  case_decide as Hlen; [by destruct (InputTypes r)|].
  apply scan_objects_complete.
  - destruct (InputTypes r) as [|t ts]; [done|]. simpl. set_solver.
  - intros t Ht%elem_of_list_to_set.
    destruct (Hav t Ht) as (i & o & Hlk & Hty & Hu).
    exists (i, o). split_and!; try done.
    by apply (elem_of_lookup_imap_2 (λ i o, (i, o))).
Qed.
End FindMatchesComplete.

(* ===================================================================== *)
(** * Properties of the rule loop of Evolve *)
(* ===================================================================== *)

Section EvolveLoop.
Implicit Types (objs : list Object) (used : gset nat) (st : loop_state)
               (r : EvolutionRule) (mt : list nat)
               (acc : list (EvolutionRule * list nat)).

Lemma elem_of_concat {A} (x : A) (ls : list (list A)) :
  x ∈ concat ls ↔ ∃ l, l ∈ ls ∧ x ∈ l.
Proof.
  rewrite list_elem_of_In, in_concat. by setoid_rewrite list_elem_of_In.
Qed.

Lemma mark_used mt : ∀ used,
  foldl (λ u idx, {[idx]} ∪ u) used mt = list_to_set mt ∪ used.
Proof.
  induction mt as [|i mt IH]; intros used; simpl; [set_solver|].
  rewrite IH. set_solver.
Qed.

Lemma produced_cons objs rm acc :
  produced objs (rm :: acc) = produce objs rm ++ produced objs acc.
Proof. done. Qed.

Lemma consumed_cons r mt acc : consumed ((r, mt) :: acc) = list_to_set mt ∪ consumed acc.
Proof. unfold consumed. simpl. by rewrite list_to_set_app_L. Qed.

Lemma rule_step_no_match objs st r :
  findMatches objs r (usedObjects st) = [] → rule_step objs st r = st.
Proof. intros H. unfold rule_step. by rewrite H. Qed.

Lemma rule_step_match objs st r mt :
  findMatches objs r (usedObjects st) = [mt] →
  rule_step objs st r
  = mkLoop (newObjects st ++ produce objs (r, mt))
           (list_to_set mt ∪ usedObjects st)
           (accepted st ++ [(r, mt)]).
Proof.
  intros H. unfold rule_step. rewrite H. simpl. unfold apply_match.
  by rewrite mark_used.
Qed.

(** What the loop over a list of rules adds to its state: the matches it
    accepted, at most one for each rule and in the order of the rules,
    what they produce and what they consume. *)
Lemma rule_loop_inv objs (rs : list EvolutionRule) : ∀ st,
  ∃ acc,
    accepted (foldl (rule_step objs) st rs) = accepted st ++ acc
    ∧ newObjects (foldl (rule_step objs) st rs) = newObjects st ++ produced objs acc
    ∧ usedObjects (foldl (rule_step objs) st rs) = usedObjects st ∪ consumed acc
    ∧ map fst acc `sublist_of` rs
    ∧ Forall (λ rm, ∃ used, rm.2 ∈ findMatches objs rm.1 used) acc.
Proof.
  induction rs as [|r rs IH]; intros st; simpl.
  { exists []. rewrite !app_nil_r. split_and!; try done.
    unfold consumed; simpl. set_solver. }
  destruct (findMatches_cases objs r (usedObjects st)) as [Hnone|[mt Hone]].
  - rewrite (rule_step_no_match _ _ _ Hnone).
    destruct (IH st) as (acc & ? & ? & ? & ? & ?).
    exists acc. split_and!; try done. by apply sublist_cons.
  - rewrite (rule_step_match _ _ _ _ Hone).
    destruct (IH (mkLoop (newObjects st ++ produce objs (r, mt))
                         (list_to_set mt ∪ usedObjects st)
                         (accepted st ++ [(r, mt)])))
      as (acc & Hacc & Hnew & Hused & Hsub & Hall).
    simpl in *. exists ((r, mt) :: acc). split_and!.
    + by rewrite Hacc, <- app_assoc.
    + by rewrite Hnew, produced_cons, <- app_assoc.
    + rewrite Hused, consumed_cons. set_solver.
    + simpl. by apply sublist_skip.
    + constructor; [|done]. exists (usedObjects st). simpl. rewrite Hone.
      by apply list_elem_of_singleton.
Qed.

Lemma evolve_loop_inv objs rules :
  newObjects (evolve_loop objs rules) = produced objs (accepted (evolve_loop objs rules))
  ∧ usedObjects (evolve_loop objs rules) = consumed (accepted (evolve_loop objs rules))
  ∧ map fst (accepted (evolve_loop objs rules)) `sublist_of` sortRules rules
  ∧ Forall (λ rm, ∃ used, rm.2 ∈ findMatches objs rm.1 used)
           (accepted (evolve_loop objs rules)).
Proof.
  unfold evolve_loop.
  destruct (rule_loop_inv objs (sortRules rules) (mkLoop [] ∅ []))
    as (acc & Hacc & Hnew & Hused & Hsub & Hall).
  simpl in *. rewrite Hacc, Hnew, Hused. split_and!; try done. set_solver.
Qed.

(** [remainingObjects] keeps the unused objects in index order. *)
Lemma remainingObjects_kept objs used : remainingObjects objs used = kept objs used.
Proof.
  unfold remainingObjects, kept.
  induction objs as [|o objs IH] using rev_ind; [done|].
  rewrite imap_app, omap_app, IH, length_app. simpl.
  rewrite Nat.add_1_r, seq_S, filter_app, map_app. simpl. f_equal.
  - apply Forall_fmap_ext_1, Forall_forall.
    intros i [_ Hi%elem_of_seq]%list_elem_of_filter.
    symmetry. apply lookup_total_app_l. lia.
  - rewrite Nat.add_0_r. rewrite filter_cons, filter_nil.
    destruct (decide (length objs ∈ used)), (decide (length objs ∉ used)); try done.
    simpl. f_equal. symmetry. apply list_lookup_total_middle. lia.
Qed.

Lemma Evolve_objects m :
  Objects (Evolve m).1
  = kept (Objects m) (consumed (accepted (evolve_loop (Objects m) (Rules m))))
    ++ produced (Objects m) (accepted (evolve_loop (Objects m) (Rules m))).
Proof.
  destruct (evolve_loop_inv (Objects m) (Rules m)) as (Hnew & Hused & _).
  simpl. by rewrite remainingObjects_kept, Hnew, Hused.
Qed.

Lemma kept_not_consumed objs used o :
  o ∈ kept objs used → ∃ i, (i ∉ used) ∧ objs !! i = Some o.
Proof.
  unfold kept. intros (i & -> & [Hu Hi%elem_of_seq]%list_elem_of_filter)%list_elem_of_fmap.
  exists i. split; [done|]. apply list_lookup_lookup_total_lt. lia.
Qed.
End EvolveLoop.

(* ===================================================================== *)
(** * Evolve: the matcher and the rebuilt object list *)
(* ===================================================================== *)

(** C10. A rule whose list of required input types is empty never matches:
    whatever the membrane holds and whatever is already consumed,
    [findMatches] returns no match for it, the rule's turn in the loop of
    [Evolve] leaves the loop state as it was (nothing consumed, nothing
    produced), and no match of it is ever accepted, so its transform is
    never called. *)
Theorem empty_inputs_never_match (m : Membrane) (r : EvolutionRule) :
  InputTypes r = [] →
  (∀ used, findMatches (Objects m) r used = [])
  ∧ (∀ st, rule_step (Objects m) st r = st)
  ∧ (∀ mt, (r, mt) ∉ accepted (evolve_loop (Objects m) (Rules m))).
Proof.
  intros Hr. split_and!.
  - intros used. by apply findMatches_no_inputs.
  - intros st. by apply rule_step_no_match, findMatches_no_inputs.
  - intros mt Hin.
    destruct (evolve_loop_inv (Objects m) (Rules m)) as (_ & _ & _ & Hall).
    rewrite Forall_forall in Hall. destruct (Hall _ Hin) as [used Hmt]. simpl in Hmt.
    rewrite findMatches_no_inputs in Hmt by done. by apply elem_of_nil in Hmt.
Qed.

Lemma empty_inputs_never_match_witness :
  InputTypes empty_rule = []
  ∧ (∀ used, findMatches (Objects empty_membrane) empty_rule used = [])
  ∧ (∀ st, rule_step (Objects empty_membrane) st empty_rule = st)
  ∧ (∀ mt, (empty_rule, mt)
           ∉ accepted (evolve_loop (Objects empty_membrane) (Rules empty_membrane))).
Proof.
  split; [reflexivity|].
  apply (empty_inputs_never_match empty_membrane empty_rule). reflexivity.
Defined.

(** C9. A rule without transform function that accepts a match still
    consumes the matched objects and produces nothing: in its turn the
    matched indices are added to the consumed set and [newObjects] stays as
    it was; after [Evolve] the object list is the objects at the indices
    never consumed followed by the produced objects, the matched indices are
    consumed, and the match contributes no object. *)
Theorem nil_transform_consumes (m : Membrane) (r : EvolutionRule) (mt : list nat) :
  Transform r = None →
  (r, mt) ∈ accepted (evolve_loop (Objects m) (Rules m)) →
  (∀ st, findMatches (Objects m) r (usedObjects st) = [mt] →
         newObjects (rule_step (Objects m) st r) = newObjects st
         ∧ usedObjects (rule_step (Objects m) st r) = list_to_set mt ∪ usedObjects st)
  ∧ produce (Objects m) (r, mt) = []
  ∧ (∀ i, i ∈ mt → i ∈ usedObjects (evolve_loop (Objects m) (Rules m)))
  ∧ Objects (Evolve m).1
    = kept (Objects m) (usedObjects (evolve_loop (Objects m) (Rules m)))
      ++ newObjects (evolve_loop (Objects m) (Rules m)).
Proof.
  intros Hnil Hin. split_and!.
  - intros st Hone. rewrite (rule_step_match _ _ _ _ Hone). simpl.
    unfold produce. simpl. rewrite Hnil. by rewrite app_nil_r.
  - unfold produce. simpl. by rewrite Hnil.
  - intros i Hi.
    destruct (evolve_loop_inv (Objects m) (Rules m)) as (_ & -> & _).
    unfold consumed. apply elem_of_list_to_set, elem_of_concat.
    exists mt. split; [|done].
    apply list_elem_of_fmap. by exists (r, mt).
  - simpl. by rewrite remainingObjects_kept.
Qed.

Lemma nil_membrane_accepted :
  accepted (evolve_loop (Objects nil_membrane) (Rules nil_membrane)) = [(nil_rule, [0%nat])].
Proof. vm_compute. reflexivity. Qed.

Lemma nil_transform_consumes_witness :
  Objects (Evolve nil_membrane).1 = [mkObject "b" 1%float 1 0.5%float]
  ∧ produce (Objects nil_membrane) (nil_rule, [0%nat]) = []
  ∧ (∀ i, i ∈ [0%nat] →
          i ∈ usedObjects (evolve_loop (Objects nil_membrane) (Rules nil_membrane))).
Proof.
  split; [vm_compute; reflexivity|].
  assert (Hin : (nil_rule, [0%nat])
                ∈ accepted (evolve_loop (Objects nil_membrane) (Rules nil_membrane))).
  { rewrite nil_membrane_accepted. apply list_elem_of_here. }
  destruct (nil_transform_consumes nil_membrane nil_rule [0%nat] eq_refl Hin)
    as (_ & Hp & Hu & _).
  split; [exact Hp | exact Hu].
Defined.

(** C4. One [Evolve] call: [findMatches] returns at most one match for a
    rule; the rules are visited in descending order of priority (the sorted
    copy is a permutation of the rules); the accepted matches follow the
    order of the sorted rules with at most one match for each rule; and the
    new object list is the original objects at the indices no accepted match
    consumed, in ascending index order, followed by the objects the accepted
    matches produced, in the order they were produced. *)
Theorem Evolve_one_match_per_rule_and_rebuild (m : Membrane) :
  (Evolve m).2 = None
  ∧ (∀ r used, (length (findMatches (Objects m) r used) ≤ 1)%nat)
  ∧ sortRules (Rules m) ≡ₚ Rules m
  ∧ StronglySorted priority_ge (sortRules (Rules m))
  ∧ map fst (accepted (evolve_loop (Objects m) (Rules m))) `sublist_of` sortRules (Rules m)
  ∧ Objects (Evolve m).1
    = kept (Objects m) (consumed (accepted (evolve_loop (Objects m) (Rules m))))
      ++ produced (Objects m) (accepted (evolve_loop (Objects m) (Rules m)))
  ∧ ID (Evolve m).1 = ID m ∧ Rules (Evolve m).1 = Rules m
  ∧ Parent (Evolve m).1 = Parent m ∧ Children (Evolve m).1 = Children m.
Proof.
  split_and!; try done.
  - intros r used. apply findMatches_length.
  - apply sortRules_perm.
  - apply sortRules_sorted.
  - apply evolve_loop_inv.
  - apply Evolve_objects.
Qed.

(** C2, counterexample to the specification's statement: the membrane
    [dup_membrane] holds one object of type ["a"], its only rule lists ["a"]
    twice, and [Evolve] accepts a match of that rule on the object at index
    0, consumes it and puts the transform's output in its place. *)
Lemma duplicate_types_rule_is_matched :
  InputTypes dup_rule = ["a"; "a"]
  ∧ Rules dup_membrane = [dup_rule]
  ∧ findMatches (Objects dup_membrane) dup_rule ∅ = [[0%nat]]
  ∧ accepted (evolve_loop (Objects dup_membrane) (Rules dup_membrane)) = [(dup_rule, [0%nat])]
  ∧ Objects (Evolve dup_membrane).1 = [out_object].
Proof. split_and!; vm_compute; reflexivity. Qed.

(** C2, amended. The matcher never takes two objects of the same type for one
    match: a rule whose list of required types repeats a type is matched
    exactly as the rule with every type listed once.  Every match holds one
    unconsumed object for each distinct required type (pairwise distinct
    types, as many indices as distinct types), and the rule does match
    whenever each of its required types has an unconsumed object; the match
    is then accepted: its indices are consumed and the transform's output is
    appended to the new objects. *)
Theorem duplicate_types_match_as_distinct (objs : list Object) (r : EvolutionRule)
    (used : gset nat) :
  findMatches objs r used = findMatches objs (distinct_inputs r) used
  ∧ (∀ mt, mt ∈ findMatches objs r used →
           NoDup (map Type_ (inputObjs objs mt))
           ∧ length mt = length (remove_dups (InputTypes r))
           ∧ Forall (λ i, (i < length objs)%nat ∧ i ∉ used) mt)
  ∧ (InputTypes r ≠ [] →
     (∀ t, t ∈ InputTypes r → ∃ i o, objs !! i = Some o ∧ Type_ o = t ∧ i ∉ used) →
     ∃ mt, findMatches objs r used = [mt])
  ∧ (∀ st mt, findMatches objs r (usedObjects st) = [mt] →
       rule_step objs st r
       = mkLoop (newObjects st ++ produce objs (r, mt))
                (list_to_set mt ∪ usedObjects st)
                (accepted st ++ [(r, mt)])).
Proof.
  split_and!.
  - apply findMatches_distinct_inputs.
  - intros mt (Hall & Hnd & _ & Hlen)%findMatches_inv. split_and!; try done.
    rewrite Hlen, <- list_to_set_remove_dups.
    apply size_list_to_set, NoDup_remove_dups.
  - apply findMatches_complete.
  - intros st mt. apply rule_step_match.
Qed.

Lemma duplicate_types_match_as_distinct_witness :
  NoDup (map Type_ (inputObjs (Objects dup_membrane) [0%nat]))
  ∧ length [0%nat] = length (remove_dups (InputTypes dup_rule))
  ∧ ∃ mt, findMatches (Objects dup_membrane) dup_rule ∅ = [mt].
Proof.
  destruct (duplicate_types_match_as_distinct (Objects dup_membrane) dup_rule ∅)
    as (_ & Hshape & Hcomplete & _).
  assert (Hin : [0%nat] ∈ findMatches (Objects dup_membrane) dup_rule ∅).
  { vm_compute. apply list_elem_of_here. }
  destruct (Hshape _ Hin) as (Hnd & Hlen & _).
  split_and!; [exact Hnd | exact Hlen |].
  apply Hcomplete; [discriminate|].
  intros t Ht. exists 0%nat, (mkObject "a" 1%float 0 0.5%float).
  split_and!; [reflexivity | | set_solver].
  apply elem_of_cons in Ht as [->|Ht]; [done|].
  apply list_elem_of_singleton in Ht. by subst.
Defined.

(* ===================================================================== *)
(** * Properties of the float64 operations *)
(* ===================================================================== *)

Section Float64.
Lemma digits2_pos_size p : digits2_pos p = Pos.size p.
Proof. induction p; simpl; congruence. Qed.

Lemma digits2_pos_lower p : 2 ^ (Zpos (digits2_pos p) - 1) <= Zpos p.
Proof.
  rewrite digits2_pos_size.
  pose proof (Pos.size_le p) as H.
  assert (H2 : 2 ^ Zpos (Pos.size p) <= 2 * Zpos p).
  { change 2 with (Zpos 2) at 1. rewrite <- Pos2Z.inj_pow. 
    change (2 * Zpos p) with (Zpos p~0). lia. }
  replace (Zpos (Pos.size p)) with (Zpos (Pos.size p) - 1 + 1) in H2 by lia.
  rewrite Z.pow_add_r in H2 by lia. lia.
Qed.

Lemma shr_1_m r : 0 <= shr_m r -> shr_m (shr_1 r) = shr_m r / 2.
Proof.
  destruct r as [m b s]. simpl. intros Hm.
  destruct m as [|[p|p|]|p]; cbn [shr_m]; try lia; try reflexivity.
  - apply Z.div_unique with 1; lia.
  - apply Z.div_unique with 0; lia.
Qed.

Lemma pow2_xO n : 2 ^ Zpos n~0 = 2 ^ Zpos n * 2 ^ Zpos n.
Proof.
  replace (Zpos n~0) with (Zpos n + Zpos n) by lia.
  apply Z.pow_add_r; lia.
Qed.

Lemma pow2_xI n : 2 ^ Zpos n~1 = 2 * (2 ^ Zpos n * 2 ^ Zpos n).
Proof.
  replace (Zpos n~1) with (1 + (Zpos n + Zpos n)) by lia.
  rewrite !Z.pow_add_r by lia. by rewrite Z.pow_1_r.
Qed.

Lemma iter_pos_shr_1_m n : forall r,
  0 <= shr_m r -> shr_m (SpecFloat.iter_pos shr_1 n r) = shr_m r / 2 ^ Zpos n.
Proof.
  induction n as [n IH|n IH|]; intros r Hr; cbn [SpecFloat.iter_pos].
  - assert (H1 : 0 <= shr_m (shr_1 r)).
    { rewrite shr_1_m by done. apply Z.div_pos; lia. }
    assert (H2 : 0 <= shr_m (SpecFloat.iter_pos shr_1 n (shr_1 r))).
    { rewrite IH by done. apply Z.div_pos; lia. }
    rewrite IH, IH, shr_1_m by done.
    rewrite !Z.div_div by lia. by rewrite pow2_xI.
  - assert (H2 : 0 <= shr_m (SpecFloat.iter_pos shr_1 n r)).
    { rewrite IH by done. apply Z.div_pos; lia. }
    rewrite IH, IH by done.
    rewrite !Z.div_div by lia. by rewrite pow2_xO.
  - rewrite shr_1_m by done. by rewrite Z.pow_1_r.
Qed.

Lemma shr_fexp_pos m e l :
  0 < m -> emin <= e ->
  0 < shr_m (shr_fexp prec emax m e l).1 /\ emin <= (shr_fexp prec emax m e l).2.
Proof.
  intros Hm He. unfold shr_fexp, shr.
  assert (Hrec : shr_m (shr_record_of_loc m l) = m) by (by destruct l as [|[]]).
  destruct m as [|p|p]; try lia. simpl Zdigits2.
  pose proof (digits2_pos_lower p) as Hlow.
  set (d := Zpos (digits2_pos p)) in *.
  destruct (fexp prec emax (d + e) - e) as [|k|k] eqn:Hk; simpl; rewrite ?Hrec; try lia.
  rewrite iter_pos_shr_1_m by (rewrite Hrec; lia). rewrite Hrec.
  unfold fexp, SpecFloat.emin, prec, emax in *. split; [|lia].
  assert (Zpos k <= d - 1) by lia.
  apply Z.div_str_pos. split; [lia|].
  etrans; [|exact Hlow]. apply Z.pow_le_mono_r; lia.
Qed.

Lemma round_nearest_even_ge m l : m <= round_nearest_even m l.
Proof. destruct l as [|[]]; simpl; try lia. destruct (Z.even m); lia. Qed.

Lemma binary_round_aux_pos s m e l :
  0 < m -> emin <= e -> signed_nonzero s (binary_round_aux prec emax s m e l).
Proof.
  intros Hm He. unfold binary_round_aux.
  pose proof (shr_fexp_pos m e l Hm He) as [H1 H1e].
  destruct (shr_fexp prec emax m e l) as [mrs' e'] eqn:E1. simpl in *.
  pose proof (round_nearest_even_ge (shr_m mrs') (loc_of_shr_record mrs')) as Hr.
  set (m2 := round_nearest_even (shr_m mrs') (loc_of_shr_record mrs')) in *.
  pose proof (shr_fexp_pos m2 e' loc_Exact ltac:(lia) H1e) as [H2 H2e].
  destruct (shr_fexp prec emax m2 e' loc_Exact) as [mrs'' e''] eqn:E2. simpl in *.
  destruct (shr_m mrs'') as [|q|q]; try lia.
  destruct (e'' <=? emax - prec); [right; eauto | by left].
Qed.

Lemma binary_normalize_pos p :
  signed_nonzero false (binary_normalize prec emax (Zpos p) 0 false).
Proof.
  simpl. unfold binary_round.
  destruct (shl_align p 0 (fexp prec emax (Zpos (digits2_pos p) + 0))) as [mz ez] eqn:E.
  apply binary_round_aux_pos; [lia|].
  unfold shl_align in E.
  destruct (fexp prec emax (Zpos (digits2_pos p) + 0) - 0) eqn:Hd;
    inversion E; subst; unfold fexp, SpecFloat.emin, prec, emax in *. all: lia.
Qed.

Lemma of_uint63_pos z :
  0 < z < 2 ^ 63 -> signed_nonzero false (Prim2SF (of_uint63 (Uint63.of_Z z))).
Proof.
  intros Hz. rewrite of_uint63_spec, Uint63.of_Z_spec.
  assert (HwB : Uint63.wB = 2 ^ 63) by reflexivity.
  rewrite Z.mod_small by (rewrite HwB; lia).
  destruct z as [|p|p]; try lia. apply binary_normalize_pos.
Qed.

Lemma signed_nonzero_gt_zero s x : signed_nonzero s x -> SFltb (S754_zero false) (SFabs x) = true.
Proof. by intros [->|(m & e & ->)]. Qed.

Lemma signed_nonzero_opp s x : signed_nonzero s x -> signed_nonzero (negb s) (SFopp x).
Proof. intros [->|(m & e & ->)]; [by left | right; simpl; eauto]. Qed.

(** [float64(z)] is zero only for [z = 0]. *)
Lemma of_int_nonzero z :
  Int.in_range z →
  F64.gt (F64.Abs (F64.of_int z)) 0%float = negb (z =? 0).
Proof.
  unfold Int.in_range, Int.min_int, Int.max_int, F64.gt, F64.Abs, F64.of_int.
  intros Hz.
  destruct (Z.eqb_spec z (- 2 ^ 63)) as [->|Hmin]; [reflexivity|].
  destruct (Z.ltb_spec z 0) as [Hneg|Hpos].
  - rewrite ltb_spec, abs_spec, opp_spec.
    replace (z =? 0) with false by (symmetry; apply Z.eqb_neq; lia). simpl negb.
    change (Prim2SF 0) with (S754_zero false).
    eapply signed_nonzero_gt_zero, signed_nonzero_opp, of_uint63_pos. lia.
  - destruct (Z.eqb_spec z 0) as [->|Hnz]; [reflexivity|].
    rewrite ltb_spec, abs_spec. change (Prim2SF 0) with (S754_zero false).
    eapply signed_nonzero_gt_zero, of_uint63_pos. lia.
Qed.

Lemma iter_pos_52 (m : positive) :
  SpecFloat.iter_pos shr_1 52 (Build_shr_record (Zpos (4503599627370496 * m)) false false)
  = Build_shr_record (Zpos m) false false.
Proof. reflexivity. Qed.

Lemma mul_one_r (x : float) : (x * 1)%float = x.
Proof.
  apply Prim2SF_inj. rewrite mul_spec.
  pose proof (Prim2SF_valid x) as Hv.
  change (Prim2SF 1) with (S754_finite false 4503599627370496 (-52)).
  destruct (Prim2SF x) as [s|s| |s m e]; [by destruct s..| |]; [done|].
  unfold SpecFloat.valid_binary, bounded, canonical_mantissa in Hv. 
  apply andb_prop in Hv as [Hc Hb]. apply Z.eqb_eq in Hc. apply Z.leb_le in Hb.
  unfold SF64mul, SFmul. rewrite xorb_false_r.
  unfold binary_round_aux.
  assert (E1 : shr_fexp prec emax (Zpos (m * 4503599627370496)) (e + -52) loc_Exact
               = (Build_shr_record (Zpos m) false false, e)).
  { unfold shr_fexp. rewrite Pos.mul_comm.
    assert (Hd : Zdigits2 (Zpos (4503599627370496 * m)) = Zpos (digits2_pos m) + 52).
    { cbv [Pos.mul Zdigits2]. cbn [digits2_pos]. rewrite !Pos2Z.inj_succ. lia. }
    rewrite Hd.
    replace (Zpos (digits2_pos m) + 52 + (e + -52)) with (Zpos (digits2_pos m) + e) by lia.
    rewrite Hc. replace (e - (e + -52)) with 52 by lia.
    unfold shr, shr_record_of_loc. rewrite iter_pos_52. f_equal. lia. }
  rewrite E1. cbn [shr_m loc_of_shr_record round_nearest_even].
  assert (E2 : shr_fexp prec emax (Zpos m) e loc_Exact
               = (Build_shr_record (Zpos m) false false, e)).
  { unfold shr_fexp. simpl Zdigits2. rewrite Hc. by rewrite Z.sub_diag. }
  rewrite E2. cbn [shr_m]. 
  destruct (Z.leb_spec e (emax - prec)); [done|lia].
Qed.

(** A product with a zero factor is never above the threshold. *)
Lemma zero_mobility_below_threshold (perm c : float) :
  c = 1%float ∨ c = F64.c_1_2 → F64.gt (perm * 0 * c)%float 0.5%float = false.
Proof.
  intros Hc. unfold F64.gt. rewrite ltb_spec, !mul_spec.
  destruct Hc as [-> | ->]; destruct (Prim2SF perm) as [[]|[]| |[] m e]; reflexivity.
Qed.
End Float64.

(* ===================================================================== *)
(** * PassObjects *)
(* ===================================================================== *)

Section PassObjects.
Implicit Types (h : heap) (src tgt : addr) (obj : Object) (objs : list Object).

(** The test of the source is the specification's threshold formula. *)
Lemma passes_passes_spec perm obj :
  Int.in_range (Charge obj) → passes perm obj = passes_spec perm obj.
Proof.
  intros Hr. unfold passes, passes_spec, passProb.
  rewrite (of_int_nonzero _ Hr).
  destruct (Charge obj =? 0); simpl; [|done]. by rewrite mul_one_r.
Qed.

Lemma filter_passes_spec perm objs :
  Forall (λ o, Int.in_range (Charge o)) objs →
  filter (λ o, passes perm o) objs = filter (λ o, passes_spec perm o) objs
  ∧ filter (λ o, ¬ passes perm o) objs = filter (λ o, ¬ passes_spec perm o) objs.
Proof.
  induction 1 as [|o objs Ho _ [IH1 IH2]]; [done|].
  rewrite !filter_cons, IH1, IH2, (passes_passes_spec _ _ Ho). done.
Qed.

(** The loop of [PassObjects]: the passing objects are appended to the
    target through its pointer, the others are collected in [remaining]. *)
Lemma pass_loop perm tgt objs : ∀ h remaining,
  foldl (pass_body perm tgt) (h, remaining) objs
  = (alter (λ m, set_Objects (Objects m ++ filter (λ o, passes perm o) objs) m) tgt h,
     remaining ++ filter (λ o, ¬ passes perm o) objs).
Proof.
  induction objs as [|obj objs IH]; intros h remaining; simpl.
  { rewrite app_nil_r. f_equal. symmetry. apply list_alter_id.
    intros [] . unfold set_Objects; simpl. by rewrite app_nil_r. }
  unfold pass_body at 2. simpl. destruct (passes perm obj) eqn:Hp.
  - rewrite IH. rewrite filter_cons_True by (by rewrite Hp).
    rewrite filter_cons_False by (intros Hn; apply Hn; by rewrite Hp).
    f_equal. unfold heap_AddObject. rewrite list_alter_alter_eq.
    apply list_alter_ext; [|done]. intros m _. unfold set_Objects, AddObject; simpl.
    by rewrite <- app_assoc.
  - rewrite IH. rewrite filter_cons_False by (rewrite Hp; simpl; tauto).
    rewrite filter_cons_True by (rewrite Hp; simpl; tauto).
    by rewrite <- app_assoc.
Qed.

(** A field that [f] does not change reads the same after [alter f]. *)
Lemma lookup_alter_field {B} (field : Membrane → B) (f : Membrane → Membrane) h i a :
  (∀ m, field (f m) = field m) →
  field <$> alter f i h !! a = field <$> h !! a.
Proof.
  intros Hf. destruct (decide (i = a)) as [->|].
  - rewrite list_lookup_alter_eq. destruct (h !! a); simpl; by rewrite ?Hf.
  - by rewrite list_lookup_alter_ne.
Qed.

(** [PassObjects] in one equation, also when source and target are the
    same membrane. *)
Lemma PassObjects_eq h src tgt ms :
  h !! src = Some ms →
  PassObjects src (Some tgt) h
  = (alter (set_Objects (filter (λ o, ¬ passes (Permeability ms) o) (Objects ms))) src
       (alter (λ m, set_Objects
                      (Objects m ++ filter (λ o, passes (Permeability ms) o) (Objects ms)) m)
              tgt h),
     None).
Proof. intros Hs. unfold PassObjects. rewrite Hs, pass_loop. done. Qed.

Lemma PassObjects_structure h src (target : option addr) (a : addr) :
  (Parent <$> (PassObjects src target h).1 !! a) = (Parent <$> h !! a)
  ∧ (Children <$> (PassObjects src target h).1 !! a) = (Children <$> h !! a)
  ∧ length (PassObjects src target h).1 = length h.
Proof.
  destruct target as [tgt|]; [|done]. unfold PassObjects.
  destruct (h !! src) as [ms|] eqn:Hs; [|done].
  rewrite pass_loop. simpl. rewrite !length_alter.
  by rewrite !lookup_alter_field.
Qed.
End PassObjects.

(** C5, counterexample to the specification's statement, with the source
    itself as target: the object of [self_membrane] is above the threshold,
    and after the membrane passes its objects to itself the object is in no
    object list. *)
Lemma self_pass_loses_the_object :
  passes_spec (Permeability self_membrane) charged_object = true
  ∧ PassObjects 0%nat (Some 0%nat) [self_membrane]
    = ([set_Objects [] self_membrane], None).
Proof. split; vm_compute; reflexivity. Qed.

(** C5, amended. For a source membrane and a target membrane other than the
    source, [PassObjects] returns no error, appends to the target exactly the
    source's objects with
    [permeability · mobility · (1.2 if charge ≠ 0 else 1.0) > 0.5], in their
    order, leaves exactly the others in the source, in their order, and
    touches no other membrane.  The test is a function of the permeability
    and the object.  An object of mobility 1 and non-zero charge passes at
    permeability 1; an object of mobility 0 never passes. *)
Theorem PassObjects_threshold (h : heap) (src tgt : addr) (ms mt : Membrane) :
  h !! src = Some ms →
  h !! tgt = Some mt →
  src ≠ tgt →
  Forall (λ o, Int.in_range (Charge o)) (Objects ms) →
  (PassObjects src (Some tgt) h).2 = None
  ∧ (PassObjects src (Some tgt) h).1 !! tgt
    = Some (set_Objects
              (Objects mt ++ filter (λ o, passes_spec (Permeability ms) o) (Objects ms)) mt)
  ∧ (PassObjects src (Some tgt) h).1 !! src
    = Some (set_Objects (filter (λ o, ¬ passes_spec (Permeability ms) o) (Objects ms)) ms)
  ∧ (∀ a, a ≠ src → a ≠ tgt → (PassObjects src (Some tgt) h).1 !! a = h !! a)
  ∧ (∀ o, Mobility o = 1%float → Charge o ≠ 0 → passes_spec 1%float o = true)
  ∧ (∀ perm o, Mobility o = 0%float → passes_spec perm o = false).
Proof.
  intros Hs Ht Hne Hrange.
  destruct (filter_passes_spec (Permeability ms) _ Hrange) as [Hf Hnf].
  rewrite (PassObjects_eq _ _ _ _ Hs). simpl. split_and!.
  - done.
  - rewrite list_lookup_alter_ne, list_lookup_alter_eq, Ht by done. simpl.
    by rewrite Hf.
  - rewrite list_lookup_alter_eq, list_lookup_alter_ne, Hs by done. simpl.
    by rewrite Hnf.
  - intros a Has Hat. by rewrite !list_lookup_alter_ne.
  - intros o Hm Hc. unfold passes_spec. rewrite Hm.
    by replace (Charge o =? 0) with false by (symmetry; by apply Z.eqb_neq).
  - intros perm o Hm. unfold passes_spec. rewrite Hm.
    apply zero_mobility_below_threshold. destruct (Charge o =? 0); auto.
Qed.

Lemma PassObjects_threshold_witness :
  (PassObjects 0%nat (Some 1%nat) [self_membrane; NewMembrane "t" 1 0.5%float]).1 !! 1%nat
  = Some (set_Objects [charged_object] (NewMembrane "t" 1 0.5%float)).
Proof.
  assert (Hr : Forall (λ o, Int.in_range (Charge o)) (Objects self_membrane)).
  { repeat constructor; vm_compute; discriminate. }
  destruct (PassObjects_threshold [self_membrane; NewMembrane "t" 1 0.5%float]
              0%nat 1%nat self_membrane (NewMembrane "t" 1 0.5%float)
              eq_refl eq_refl ltac:(lia) Hr) as (_ & Ht & _).
  rewrite Ht. reflexivity.
Defined.

(* ===================================================================== *)
(** * The echo state network: Update, Reset, TrainOutput *)
(* ===================================================================== *)

Section ESNProperties.
Context {Rng : Type} (rng_Float64 : Rng → float * Rng) (Tanh : float → float).
Implicit Types (e : ESN Rng) (input : vector) (states targets : matrix).

Lemma Reset_spec e :
  state (Reset e) = zeros (length (state e))
  ∧ inputWeights (Reset e) = inputWeights e
  ∧ reservoirWeights (Reset e) = reservoirWeights e
  ∧ outputWeights (Reset e) = outputWeights e
  ∧ trained (Reset e) = trained e
  ∧ params (Reset e) = params e
  ∧ persona (Reset e) = persona e
  ∧ membranes (Reset e) = membranes e
  ∧ rng (Reset e) = rng e.
Proof.
  split_and!; try done. simpl. unfold zeros.
  induction (state e) as [|x v IH]; simpl; [done | by rewrite IH].
Qed.

Lemma zeros_all_zero n : Forall (λ x, x = 0%float) (zeros n).
Proof. unfold zeros. induction n; simpl; by constructor. Qed.

(** With valid training data the output weights are the result of the
    gradient descent started from the zero matrix. *)
Lemma TrainOutput_from_zero e states targets s0 t0 :
  length states = length targets →
  states !! 0%nat = Some s0 →
  targets !! 0%nat = Some t0 →
  TrainOutput e states targets
  = (w ← gradient_descent (RidgeParam (params e)) (length s0) (length t0) states targets
                          (zero_matrix (length t0) (length s0));
     Some (set_trained Rng w e, None)).
Proof.
  intros Hlen Hs Ht. unfold TrainOutput.
  rewrite decide_False by (by intros ?).
  rewrite decide_False by (by destruct states).
  by rewrite Hs, Ht.
Qed.
End ESNProperties.

(** C3. When the input weights exist, with [row0] their first row, an
    [Update] whose input has another length than [row0] returns the
    dimension-mismatch error and the engine it was called on: state, input
    weights, reservoir weights, output weights and every other field are
    unchanged. *)
Theorem Update_dimension_mismatch {Rng : Type} (rng_Float64 : Rng → float * Rng)
    (Tanh : float → float) (e : ESN Rng) (input row0 : vector) :
  inputWeights e !! 0%nat = Some row0 →
  length input ≠ length row0 →
  Update rng_Float64 Tanh e input
  = Some (e, Some (DimensionMismatch (length row0) (length input))).
Proof.
  intros Hrow Hlen. unfold Update.
  rewrite decide_False by (by destruct (inputWeights e)).
  simpl. rewrite Hrow. simpl. by rewrite decide_True.
Qed.

Lemma Update_dimension_mismatch_witness :
  Update constant_rng (λ x, x)
         (mkESN unit (params fresh_engine) neutral_persona [[0.5%float; 0.5%float]]
                [[0.5%float]] [] [0.25%float] [] tt false)
         [1%float]
  = Some (mkESN unit (params fresh_engine) neutral_persona [[0.5%float; 0.5%float]]
                [[0.5%float]] [] [0.25%float] [] tt false,
          Some (DimensionMismatch 2 1)).
Proof.
  apply (Update_dimension_mismatch constant_rng (λ x, x) _ [1%float] [0.5%float; 0.5%float]).
  - reflexivity.
  - simpl. lia.
Defined.

(** C8. After any sequence of [Update] calls, [Reset] makes every component
    of the state zero, keeps its length, and changes nothing else: input,
    reservoir and output weights, the trained flag, the parameters, the
    persona, the membranes and the generator are those before the call. *)
Theorem Reset_after_updates {Rng : Type} (rng_Float64 : Rng → float * Rng)
    (Tanh : float → float) (e0 e : ESN Rng) (inputs : list vector) :
  updates rng_Float64 Tanh e0 inputs = Some e →
  Forall (λ x, x = 0%float) (state (Reset e))
  ∧ length (state (Reset e)) = length (state e)
  ∧ inputWeights (Reset e) = inputWeights e
  ∧ reservoirWeights (Reset e) = reservoirWeights e
  ∧ outputWeights (Reset e) = outputWeights e
  ∧ trained (Reset e) = trained e
  ∧ params (Reset e) = params e
  ∧ persona (Reset e) = persona e
  ∧ membranes (Reset e) = membranes e
  ∧ rng (Reset e) = rng e.
Proof.
  intros _. destruct (Reset_spec e) as (Hst & Hrest).
  split_and!; try apply Hrest.
  - rewrite Hst. apply zeros_all_zero.
  - rewrite Hst. unfold zeros. apply length_replicate.
Qed.

Lemma Reset_after_updates_witness :
  updates constant_rng (λ x, x) fresh_engine update_inputs = Some updated_engine
  ∧ Forall (λ x, x = 0%float) (state (Reset updated_engine))
  ∧ inputWeights (Reset updated_engine) = [[(-0.5)%float]].
Proof.
  assert (Hu : updates constant_rng (λ x, x) fresh_engine update_inputs = Some updated_engine)
    by (vm_compute; reflexivity).
  split; [exact Hu|].
  destruct (Reset_after_updates constant_rng (λ x, x) fresh_engine updated_engine
              update_inputs Hu) as (Hz & _ & Hiw & _).
  split; [exact Hz | exact Hiw].
Defined.

(** C1, counterexample to the specification's statement: [trained_engine]
    has the output weight 1, which fits the sample (state 1, target 1)
    exactly, so a training that resumed from it would keep the weight 1.
    [TrainOutput] returns what it returns for the engine that was never
    trained, a weight below 1. *)
Lemma TrainOutput_discards_the_weights :
  trained trained_engine = true
  ∧ outputWeights trained_engine = [[1%float]]
  ∧ (λ r, outputWeights r.1) <$> TrainOutput_resuming trained_engine [[1%float]] [[1%float]]
    = Some [[1%float]]
  ∧ TrainOutput trained_engine [[1%float]] [[1%float]]
    = TrainOutput fresh_engine [[1%float]] [[1%float]]
  ∧ (∃ w, (λ r, outputWeights r.1) <$> TrainOutput trained_engine [[1%float]] [[1%float]]
          = Some [[w]] ∧ (w <? 1)%float = true)
  ∧ TrainOutput trained_engine [[1%float]] [[1%float]]
    ≠ TrainOutput_resuming trained_engine [[1%float]] [[1%float]].
Proof.
  split_and!; try (vm_compute; reflexivity).
  - eexists. split; vm_compute; reflexivity.
  - intros Heq.
    apply (f_equal (λ o, match (λ r : ESN unit * option error, outputWeights r.1) <$> o with
                         | Some [[w]] => (w <? 1)%float
                         | _ => false
                         end)) in Heq.
    vm_compute in Heq. discriminate.
Qed.

(** C1, amended. [TrainOutput] always starts from zero: with valid training
    data (as many states as targets, at least one) the result is the gradient
    descent started from the all-zero matrix of [outputDim] rows and
    [inputDim] columns, and it is the same whatever output weights and
    trained flag the engine had before the call. *)
Theorem TrainOutput_restarts_from_zero {Rng : Type} (e : ESN Rng) (w0 : matrix) (t : bool)
    (states targets : matrix) :
  length states = length targets →
  states ≠ [] →
  TrainOutput (with_output w0 t e) states targets = TrainOutput e states targets
  ∧ ∃ s0 t0,
      states !! 0%nat = Some s0 ∧ targets !! 0%nat = Some t0
      ∧ TrainOutput e states targets
        = (w ← gradient_descent (RidgeParam (params e)) (length s0) (length t0)
                                states targets (zero_matrix (length t0) (length s0));
           Some (set_trained Rng w e, None)).
Proof.
  intros Hlen Hne.
  destruct states as [|s0 states]; [done|].
  destruct targets as [|t0 targets]; [done|].
  split.
  - rewrite !(TrainOutput_from_zero _ _ _ s0 t0) by done. done.
  - exists s0, t0. split_and!; try done. by apply TrainOutput_from_zero.
Qed.

Lemma TrainOutput_restarts_from_zero_witness :
  TrainOutput (with_output [[1%float]] true fresh_engine) [[1%float]] [[1%float]]
  = TrainOutput fresh_engine [[1%float]] [[1%float]].
Proof.
  apply (TrainOutput_restarts_from_zero fresh_engine [[1%float]] true
           [[1%float]] [[1%float]] eq_refl).
  discriminate.
Defined.

(* ===================================================================== *)
(** * NewMembraneSystem *)
(* ===================================================================== *)

Section BuildHierarchy.
Implicit Types (h : heap) (ms : MembraneSystem) (a p c parent base : nat) (m mp : Membrane).

Lemma Int_add_1 (z bound : Z) :
  1 <= z → z < bound → bound <= Int.max_int → Int.add z 1 = z + 1.
Proof.
  unfold Int.add, Int.wrap, Int.max_int. intros H1 H2 H3.
  rewrite Z.mod_small by lia. lia.
Qed.

Lemma heap_extends_refl base h : heap_extends base h h.
Proof. split_and!; try done. intros a m Hm. by exists m. Qed.

Lemma heap_extends_trans base h1 h2 h3 :
  heap_extends base h1 h2 → heap_extends base h2 h3 → heap_extends base h1 h3.
Proof.
  intros (Hl1 & Hk1 & Ht1) (Hl2 & Hk2 & Ht2). split_and!.
  - lia.
  - intros a m Hm. destruct (Hk1 _ _ Hm) as (m' & Hm' & Hlev).
    destruct (Hk2 _ _ Hm') as (m'' & Hm'' & Hlev'). exists m''. split; [done|congruence].
  - congruence.
Qed.

(** The heap after one child has been spawned, in closed form. *)
Lemma spawn_child_eq parent cur i ms h mp :
  h !! parent = Some mp →
  spawn_child parent cur i (ms, h)
  = Some (length h,
          (mkSystem (Root ms) (All ms ++ [length h]) (StepCount ms),
           <[parent := set_Children (Children mp ++ [length h]) mp]> h
           ++ [mkMembrane (ID mp +:+ "_" +:+ pretty i) cur (child_permeability cur) []
                          CreateDefaultRules (Some parent) []])).
Proof.
  intros Hp. unfold spawn_child, alloc. rewrite Hp. simpl.
  pose proof (lookup_lt_Some _ _ _ Hp) as Hlt.
  do 3 f_equal.
  unfold CreateDefaultRules; simpl.
  rewrite !(list_alter_alter_ne _ _ _ (length h) parent) by lia.
  rewrite !list_alter_alter_eq.
  rewrite (alter_app_r_alt _ _ _ (length h)) by lia.
  rewrite Nat.sub_diag. rewrite alter_app_l by lia. f_equal.
  apply list_eq. intros j. rewrite list_lookup_alter, list_lookup_insert.
  destruct (decide (parent = j)) as [->|Hne].
  - rewrite Hp, decide_True by done. done.
  - rewrite decide_False by (by intros [? _]). done.
Qed.

(** Lookups in the heap after a spawn. *)
Lemma spawn_lookup h parent mp' mc a m' :
  (parent < length h)%nat →
  (<[parent := mp']> h ++ [mc]) !! a = Some m' →
  (a = length h ∧ m' = mc)
  ∨ (a = parent ∧ m' = mp')
  ∨ (a ≠ parent ∧ (a < length h)%nat ∧ h !! a = Some m').
Proof.
  intros Hlt Hlk. apply lookup_app_Some in Hlk as [Hl|[Hge Hr]].
  - apply list_lookup_insert_Some in Hl as [(-> & -> & _)|[Hne Hl]]; [auto|].
    right; right. split_and!; try done. by eapply lookup_lt_Some.
  - rewrite length_insert in Hge, Hr.
    apply list_lookup_singleton_Some in Hr as [Hz ->]. left. split; [lia|done].
Qed.

Lemma spawn_lookup_old h parent mp mc a m :
  h !! parent = Some mp → h !! a = Some m →
  ∃ m', (<[parent := set_Children (Children mp ++ [length h]) mp]> h ++ [mc]) !! a = Some m'
        ∧ ID m' = ID m ∧ Level m' = Level m ∧ Permeability m' = Permeability m
        ∧ Parent m' = Parent m
        ∧ (∀ c, c ∈ Children m → c ∈ Children m').
Proof.
  intros Hp Hm. pose proof (lookup_lt_Some _ _ _ Hm) as Hlt.
  rewrite lookup_app_l by (rewrite length_insert; lia).
  destruct (decide (parent = a)) as [->|Hne].
  - rewrite list_lookup_insert_eq by done. eexists. split; [done|].
    assert (m = mp) as -> by congruence. simpl. split_and!; try done.
    intros c Hc. apply elem_of_app. by left.
  - rewrite list_lookup_insert_ne by done. exists m. by split_and!.
Qed.

(** Spawning a child below a membrane of level [cur - 1] keeps the hierarchy
    well formed. *)
Lemma spawn_child_wf base parent cur i ms h mp :
  wf_system base ms h →
  (base ≤ parent)%nat → h !! parent = Some mp → Level mp = cur - 1 →
  ∃ ms' h' mc,
    spawn_child parent cur i (ms, h) = Some (length h, (ms', h'))
    ∧ wf_system base ms' h'
    ∧ heap_extends base h h'
    ∧ StepCount ms' = StepCount ms
    ∧ h' !! length h = Some mc ∧ Level mc = cur.
Proof.
  intros (Hroot & Hall & Hbase & Hcells & Hkids) Hbp Hp Hlev.
  pose proof (lookup_lt_Some _ _ _ Hp) as Hlt.
  rewrite (spawn_child_eq _ _ _ _ _ _ Hp).
  set (mp' := set_Children (Children mp ++ [length h]) mp).
  set (mc := mkMembrane (ID mp +:+ "_" +:+ pretty i) cur (child_permeability cur) []
                        CreateDefaultRules (Some parent) []).
  eexists _, _, mc. split; [done|].
  assert (Hlen : length (<[parent := mp']> h ++ [mc]) = S (length h)).
  { rewrite length_app, length_insert. simpl. lia. }
  assert (Hnew : (<[parent := mp']> h ++ [mc]) !! length h = Some mc).
  { rewrite lookup_app_r by (rewrite length_insert; lia).
    by rewrite length_insert, Nat.sub_diag. }
  assert (Hpar : (<[parent := mp']> h ++ [mc]) !! parent = Some mp').
  { rewrite lookup_app_l by (rewrite length_insert; lia).
    by apply list_lookup_insert_eq. }
  split_and!; try done.
  - (* well formed *)
    split_and!; simpl; try done.
    + rewrite Hall, Hlen. replace (S (length h) - base)%nat with (S (length h - base)) by lia.
      rewrite seq_S. do 2 f_equal. lia.
    + lia.
    + intros a m' Hba Hlk.
      destruct (spawn_lookup _ _ _ _ _ _ Hlt Hlk) as [[-> ->]|[[-> ->]|(Hne & Hal & Hold)]].
      * right. exists parent, mp'. split_and!; simpl; try done; try lia.
        apply elem_of_app. right. by apply list_elem_of_singleton.
      * destruct (Hcells _ _ Hba Hp) as [Hr|(p & mq & Hrange & Hpa & Hq & Hl & Hperm & Hin)].
        { by left. }
        right. destruct (spawn_lookup_old h parent mp mc p mq Hp Hq)
          as (mq' & Hq' & _ & Hlq & _ & _ & Hcq).
        exists p, mq'. unfold mp'. simpl.
        split_and!; try done; try lia; by apply Hcq.
      * destruct (Hcells _ _ Hba Hold) as [Hr|(p & mq & Hrange & Hpa & Hq & Hl & Hperm & Hin)].
        { by left. }
        right. destruct (spawn_lookup_old h parent mp mc p mq Hp Hq)
          as (mq' & Hq' & _ & Hlq & _ & _ & Hcq).
        exists p, mq'. split_and!; try done; try lia; by apply Hcq.
    + intros a m' c Hba Hlk Hc. rewrite Hlen.
      destruct (spawn_lookup _ _ _ _ _ _ Hlt Hlk) as [[-> ->]|[[-> ->]|(Hne & Hal & Hold)]].
      * simpl in Hc. by apply elem_of_nil in Hc.
      * simpl in Hc. apply elem_of_app in Hc as [Hc|Hc].
        -- destruct (Hkids _ _ _ Hba Hp Hc). lia.
        -- apply list_elem_of_singleton in Hc. lia.
      * destruct (Hkids _ _ _ Hba Hold Hc). lia.
  - (* extension *)
    split_and!.
    + lia.
    + intros a m Hm.
      destruct (spawn_lookup_old h parent mp mc a m Hp Hm) as (m' & Hm' & _ & Hl & _).
      by exists m'.
    + rewrite take_app_le by (rewrite length_insert; lia).
      rewrite take_insert_ge by lia. done.
Qed.

(** One iteration of the loop of [buildHierarchy], given the property for the
    recursive call. *)
Lemma buildHierarchy_iteration base maxDepth fuel parent cur i ms h mp :
  (∀ parent' ms1 h1 mp1,
     wf_system base ms1 h1 → (base ≤ parent')%nat → h1 !! parent' = Some mp1 →
     Level mp1 = cur →
     ∃ ms' h', buildHierarchy fuel parent' maxDepth (cur + 1) (ms1, h1) = Some (ms', h')
               ∧ wf_system base ms' h' ∧ heap_extends base h1 h'
               ∧ StepCount ms' = StepCount ms1) →
  1 <= cur → cur < maxDepth → maxDepth <= Int.max_int →
  wf_system base ms h → (base ≤ parent)%nat → h !! parent = Some mp → Level mp = cur - 1 →
  ∃ ms' h',
    (spawn_child parent cur i (ms, h) ≫= λ cs,
       buildHierarchy fuel cs.1 maxDepth (Int.add cur 1) cs.2) = Some (ms', h')
    ∧ wf_system base ms' h' ∧ heap_extends base h h' ∧ StepCount ms' = StepCount ms.
Proof.
  intros IH H1 Hlt Hmax Hwf Hbp Hp Hlev.
  destruct (spawn_child_wf base parent cur i ms h mp Hwf Hbp Hp Hlev)
    as (ms1 & h1 & mc & Hspawn & Hwf1 & Hext1 & Hcount1 & Hmc & Hlc).
  rewrite Hspawn. simpl. rewrite (Int_add_1 cur maxDepth) by done.
  destruct Hwf as (_ & _ & Hbase & _).
  destruct (IH (length h) ms1 h1 mc Hwf1 ltac:(lia) Hmc Hlc)
    as (ms' & h' & Hbuild & Hwf' & Hext' & Hcount').
  exists ms', h'. split_and!; try done.
  - by eapply heap_extends_trans.
  - congruence.
Qed.

(** [buildHierarchy] with enough fuel returns, and keeps the hierarchy well
    formed. *)
Lemma buildHierarchy_wf base maxDepth :
  maxDepth <= Int.max_int →
  ∀ fuel parent cur ms h mp,
    wf_system base ms h → (base ≤ parent)%nat → h !! parent = Some mp →
    Level mp = cur - 1 → 1 <= cur →
    (Z.to_nat (maxDepth - cur) ≤ fuel)%nat →
    ∃ ms' h', buildHierarchy fuel parent maxDepth cur (ms, h) = Some (ms', h')
              ∧ wf_system base ms' h' ∧ heap_extends base h h'
              ∧ StepCount ms' = StepCount ms.
Proof.
  intros Hmax fuel.
  induction fuel as [|fuel IH]; intros parent cur ms h mp Hwf Hbp Hp Hlev H1 Hfuel.
  - cbn [buildHierarchy]. destruct (Z.leb_spec maxDepth cur); [|lia].
    exists ms, h. split_and!; try done. apply heap_extends_refl.
  - cbn [buildHierarchy]. destruct (Z.leb_spec maxDepth cur) as [|Hlt].
    { exists ms, h. split_and!; try done. apply heap_extends_refl. }
    cbn [foldl mbind option_bind].
    assert (IH' : ∀ parent' ms1 h1 mp1,
              wf_system base ms1 h1 → (base ≤ parent')%nat → h1 !! parent' = Some mp1 →
              Level mp1 = cur →
              ∃ ms' h', buildHierarchy fuel parent' maxDepth (cur + 1) (ms1, h1)
                        = Some (ms', h')
                        ∧ wf_system base ms' h' ∧ heap_extends base h1 h'
                        ∧ StepCount ms' = StepCount ms1).
    { intros parent' ms1 h1 mp1 Hwf1 Hb1 Hp1 Hl1.
      apply (IH parent' (cur + 1) ms1 h1 mp1); try done; lia. }
    destruct (buildHierarchy_iteration base maxDepth fuel parent cur 0 ms h mp
                IH' H1 Hlt Hmax Hwf Hbp Hp Hlev)
      as (ms1 & h1 & Hit1 & Hwf1 & Hext1 & Hcount1).
    rewrite Hit1. cbn [mbind option_bind].
    destruct Hext1 as (Hlen1 & Hkeep1 & Htake1).
    destruct (Hkeep1 _ _ Hp) as (mp1 & Hp1 & Hlev1).
    destruct (buildHierarchy_iteration base maxDepth fuel parent cur 1 ms1 h1 mp1
                IH' H1 Hlt Hmax Hwf1 Hbp Hp1 ltac:(congruence))
      as (ms2 & h2 & Hit2 & Hwf2 & Hext2 & Hcount2).
    rewrite Hit2. exists ms2, h2. split_and!; try done.
    + by eapply heap_extends_trans.
    + congruence.
Qed.

(** In a well-formed hierarchy the registry lists exactly the membranes
    reachable from the root. *)
Lemma wf_system_reachable base ms h :
  wf_system base ms h → ∀ a, a ∈ All ms ↔ reachable h (Root ms) a.
Proof.
  intros (Hroot & Hall & Hbase & Hcells & Hkids) a. rewrite Hall, Hroot. split.
  - intros [Hlo Hhi]%elem_of_seq. revert Hlo Hhi.
    induction a as [a IH] using lt_wf_ind. intros Hlo Hhi.
    destruct (lookup_lt_is_Some_2 h a ltac:(lia)) as [m Hm].
    destruct (Hcells _ _ Hlo Hm) as [(-> & _)|(p & mp & Hrange & _ & Hp & _ & _ & Hin)].
    + constructor.
    + eapply reach_child; [|exact Hp|exact Hin]. apply IH; lia.
  - induction 1 as [|p m c _ IH Hp Hc].
    + apply elem_of_seq. lia.
    + apply elem_of_seq in IH as [Hlo Hhi].
      destruct (Hkids _ _ _ Hlo Hp Hc). apply elem_of_seq. lia.
Qed.
End BuildHierarchy.

(** C7. For every depth [d] (a Go [int]) [NewMembraneSystem d] returns, and
    the hierarchy it builds has: a root named ["root"] of level 0 and
    permeability 1.0 without parent; for every other registered membrane, a
    registered parent that lists it as a child, a level equal to the
    parent's level + 1 and the permeability [0.5 + 0.1 · level]; a registry
    that holds exactly the membranes reachable from the root, each once, in
    the order of their creation (the order of allocation); and a step
    counter of 0.  The membranes that existed before are untouched. *)
Theorem NewMembraneSystem_hierarchy (depth : Z) (h0 : heap) :
  Int.in_range depth →
  ∃ ms h,
    NewMembraneSystem depth h0 = Some (ms, h)
    ∧ (∃ r, h !! Root ms = Some r ∧ ID r = "root" ∧ Level r = 0
            ∧ Permeability r = 1%float ∧ Parent r = None)
    ∧ (∀ a m, a ∈ All ms → a ≠ Root ms → h !! a = Some m →
         ∃ p mp, Parent m = Some p ∧ p ∈ All ms ∧ h !! p = Some mp
                 ∧ Level m = Level mp + 1
                 ∧ Permeability m = (0.5 + F64.c_0_1 * F64.of_int (Level m))%float
                 ∧ a ∈ Children mp)
    ∧ (∀ a, a ∈ All ms ↔ reachable h (Root ms) a)
    ∧ NoDup (All ms)
    ∧ All ms = seq (length h0) (length h - length h0)
    ∧ take (length h0) h = h0
    ∧ StepCount ms = 0.
Proof.
  intros [_ Hmax]. unfold NewMembraneSystem, alloc.
  set (root := NewMembrane "root" 0 1%float).
  set (base := length h0).
  assert (Hlk : (h0 ++ [root]) !! base = Some root) by (by apply list_lookup_middle).
  assert (Hwf0 : wf_system base (mkSystem base [base] 0) (h0 ++ [root])).
  { split_and!; simpl; try done.
    - rewrite length_app. simpl.
      replace (_ + 1 - base)%nat with 1%nat by (unfold base; lia). done.
    - rewrite length_app. simpl. unfold base. lia.
    - intros a m Hba Hm. apply lookup_app_Some in Hm as [Hm|[_ Hm]].
      { apply lookup_lt_Some in Hm. lia. }
      apply list_lookup_singleton_Some in Hm as [Ha <-]. left.
      split_and!; try done. unfold base in *. lia.
    - intros a m c Hba Hm Hc. apply lookup_app_Some in Hm as [Hm|[_ Hm]].
      { apply lookup_lt_Some in Hm. lia. }
      apply list_lookup_singleton_Some in Hm as [Ha <-]. by apply elem_of_nil in Hc. }
  destruct (buildHierarchy_wf base depth Hmax (Z.to_nat depth) base 1
              (mkSystem base [base] 0) (h0 ++ [root]) root Hwf0 (le_n _) Hlk eq_refl
              ltac:(lia) ltac:(lia))
    as (ms & h & Hbuild & Hwf & (Hlen & _ & Htake) & Hcount).
  exists ms, h. split; [exact Hbuild|].
  pose proof (wf_system_reachable _ _ _ Hwf) as Hreach.
  destruct Hwf as (Hroot & Hall & Hbase & Hcells & Hkids).
  split_and!; try done.
  - destruct (lookup_lt_is_Some_2 h base Hbase) as [r Hr]. rewrite Hroot.
    exists r. split; [done|].
    destruct (Hcells _ _ (le_n _) Hr) as [(_ & ?)|(p & mp & Hrange & _)]; [done|lia].
  - intros a m Ha Hne Hm. rewrite Hall in Ha. apply elem_of_seq in Ha as [Hlo Hhi].
    destruct (Hcells _ _ Hlo Hm) as [(-> & _)|(p & mp & Hrange & Hp & Hmp & Hl & Hperm & Hin)].
    { by rewrite Hroot in Hne. }
    exists p, mp. split_and!; try done.
    rewrite Hall. apply elem_of_seq. lia.
  - rewrite Hall. apply NoDup_seq.
  - rewrite Htake. unfold base. by rewrite take_app_length.
Qed.

Lemma NewMembraneSystem_hierarchy_witness :
  ∃ ms h, NewMembraneSystem 3 [] = Some (ms, h)
          ∧ All ms = seq 0 (length h - 0)
          ∧ (∀ a, a ∈ All ms ↔ reachable h (Root ms) a).
Proof.
  assert (Hr : Int.in_range 3) by (unfold Int.in_range, Int.min_int, Int.max_int; lia).
  destruct (NewMembraneSystem_hierarchy 3 [] Hr)
    as (ms & h & Hnew & _ & _ & Hreach & _ & Hall & _).
  exists ms, h. split_and!; [exact Hnew | exact Hall | exact Hreach].
Defined.

(* ===================================================================== *)
(** * Step *)
(* ===================================================================== *)

Section Step.
Implicit Types (h : heap) (ms : MembraneSystem) (a : nat) (op : step_op).

#[local] Arguments PassObjects : simpl never.
#[local] Arguments heap_Evolve : simpl never.

Lemma same_structure_refl h : same_structure h h.
Proof. by intros a. Qed.

Lemma same_structure_trans h1 h2 h3 :
  same_structure h1 h2 → same_structure h2 h3 → same_structure h1 h3.
Proof.
  intros H12 H23 a. destruct (H12 a) as [<- <-]. apply H23.
Qed.

Lemma heap_Evolve_no_error a h : (heap_Evolve a h).2 = None.
Proof. unfold heap_Evolve. by destruct (h !! a). Qed.

Lemma heap_Evolve_structure a h : same_structure h (heap_Evolve a h).1.
Proof.
  intros b. unfold heap_Evolve. destruct (h !! a) as [m|] eqn:Hm; [|done]. simpl.
  destruct (decide (a = b)) as [->|Hne].
  - rewrite list_lookup_insert_eq by (by eapply lookup_lt_Some). by rewrite Hm.
  - by rewrite list_lookup_insert_ne.
Qed.

Lemma PassObjects_no_error src tgt h : (PassObjects src (Some tgt) h).2 = None.
Proof. unfold PassObjects. by destruct (h !! src). Qed.

Lemma wrap_err_no_error context (r : heap * option error) :
  r.2 = None → (wrap_err context r).2 = None.
Proof. unfold wrap_err. simpl. by intros ->. Qed.

Lemma run_op_structure h op : same_structure h (run_op h op).
Proof.
  destruct op as [a|src tgt]; simpl.
  - apply heap_Evolve_structure.
  - intros a. destruct (PassObjects_structure h src (Some tgt) a) as (? & ? & _). done.
Qed.

Lemma run_ops_structure ops : ∀ h, same_structure h (foldl run_op h ops).
Proof.
  induction ops as [|op ops IH]; intros h; simpl; [apply same_structure_refl|].
  eapply same_structure_trans; [apply run_op_structure | apply IH].
Qed.

Lemma transports_of_structure h h' a :
  same_structure h h' → transports_of h' a = transports_of h a.
Proof.
  intros Hs. destruct (Hs a) as [Hp Hc]. unfold transports_of.
  destruct (h !! a) as [m|], (h' !! a) as [m'|]; simpl in *; try done.
  injection Hp as Hp. injection Hc as Hc. by rewrite Hp, Hc.
Qed.

(** A loop whose body never fails runs the body on every element. *)
Lemma for_each_no_error {A} (body : A → heap → heap * option error) (l : list A) :
  (∀ x h, (body x h).2 = None) →
  ∀ h, for_each body l h = (foldl (λ h x, (body x h).1) h l, None).
Proof.
  intros Hbody. induction l as [|x l IH]; intros h; simpl; [done|].
  specialize (Hbody x h). destruct (body x h) as [h' [e|]]; simpl in *; [done|]. apply IH.
Qed.

Lemma foldl_run_op_map {A} (f : A → step_op) (l : list A) : ∀ h,
  foldl (λ h x, run_op h (f x)) h l = foldl run_op h (map f l).
Proof. induction l as [|x l IH]; intros h; simpl; [done | apply IH]. Qed.

(** The transport of one membrane runs its transports in order. *)
Lemma transport_ops a h :
  transport a h = (foldl run_op h (transports_of h a), None).
Proof.
  unfold transport, transports_of.
  destruct (h !! a) as [m|] eqn:Hm; [|done].
  assert (Hkids : ∀ h1, same_structure h h1 →
            for_each (λ child h,
                        wrap_err "passing objects to child" (PassObjects a (Some child) h))
                     (from_option Children [] (h1 !! a)) h1
            = (foldl run_op h1 (map (OpPass a) (Children m)), None)).
  { intros h1 Hs. destruct (Hs a) as [_ Hc]. rewrite Hm in Hc.
    destruct (h1 !! a) as [m1|]; [|done]. simpl in Hc. injection Hc as Hc. simpl.
    rewrite Hc.
    rewrite for_each_no_error.
    - by rewrite <- foldl_run_op_map.
    - intros x h2. apply wrap_err_no_error, PassObjects_no_error. }
  destruct (Parent m) as [p|]; simpl.
  - pose proof (PassObjects_no_error a p h) as Hno.
    pose proof (run_op_structure h (OpPass a p)) as Hs. simpl in Hs.
    destruct (PassObjects a (Some p) h) as [h1 e]. simpl in *. subst e. simpl.
    by apply Hkids.
  - apply Hkids, same_structure_refl.
Qed.

(** The transport phase, started on a heap with the structure of [h]. *)
Lemma transport_phase h (l : list nat) : ∀ h1,
  same_structure h h1 →
  for_each transport l h1 = (foldl run_op h1 (flat_map (transports_of h) l), None).
Proof.
  induction l as [|a l IH]; intros h1 Hs; simpl; [done|].
  rewrite transport_ops. rewrite (transports_of_structure _ _ _ Hs).
  rewrite foldl_app. apply IH.
  eapply same_structure_trans; [exact Hs | apply run_ops_structure].
Qed.

Lemma Step_eq ms h :
  Step ms h
  = ((mkSystem (Root ms) (All ms) (Int.incr (StepCount ms)),
      foldl run_op (foldl run_op h (map OpEvolve (All ms)))
            (flat_map (transports_of h) (All ms))),
     None).
Proof.
  unfold Step. rewrite for_each_no_error.
  2: { intros a h1. apply wrap_err_no_error, heap_Evolve_no_error. }
  rewrite (foldl_run_op_map OpEvolve).
  rewrite (transport_phase h); [done|]. apply run_ops_structure.
Qed.

Lemma Int_incr_no_wrap z : Int.in_range z → z < Int.max_int → Int.incr z = z + 1.
Proof.
  unfold Int.in_range, Int.min_int, Int.max_int, Int.incr, Int.add, Int.wrap.
  intros [Hlo _] Hhi. rewrite Z.mod_small by lia. lia.
Qed.
End Step.

(** C6, counterexample to the last part of the specification's statement: a
    step of a system whose counter holds the largest [int] leaves the counter
    at the smallest [int]. *)
Lemma Step_counter_wraps :
  StepCount last_step_system = 2 ^ 63 - 1
  ∧ StepCount (Step last_step_system [NewMembrane "root" 0 1%float]).1.1 = - 2 ^ 63.
Proof. split; vm_compute; reflexivity. Qed.

(** C6, amended. A step runs [Evolve] on every registered membrane, in the
    order of the registry, before any transport; then, for each membrane in
    the order of the registry, the transport to its parent, when it has one,
    and after it the transports to its children in the order of its child
    list; every call runs on the heap as the calls before it left it.  The
    step returns no error and increments the counter: the counter increases
    by exactly 1 unless it holds the largest [int], and wraps around to the
    smallest [int] there.  Registry, root, parents and children are
    unchanged. *)
Theorem Step_evolves_then_transports (ms : MembraneSystem) (h : heap) :
  Step ms h
  = ((mkSystem (Root ms) (All ms) (Int.incr (StepCount ms)),
      foldl run_op (foldl run_op h (map OpEvolve (All ms)))
            (flat_map (transports_of h) (All ms))),
     None)
  ∧ (∀ a, transports_of h a
          = match h !! a with
            | Some m => match Parent m with Some p => [OpPass a p] | None => [] end
                        ++ map (OpPass a) (Children m)
            | None => []
            end)
  ∧ same_structure h (Step ms h).1.2
  ∧ (Int.in_range (StepCount ms) → StepCount ms < Int.max_int →
     StepCount (Step ms h).1.1 = StepCount ms + 1)
  ∧ (StepCount ms = Int.max_int → StepCount (Step ms h).1.1 = Int.min_int).
Proof.
  rewrite Step_eq. simpl. split_and!; try done.
  - eapply same_structure_trans; apply run_ops_structure.
  - apply Int_incr_no_wrap.
  - by intros ->.
Qed.

Lemma Step_evolves_then_transports_witness :
  StepCount (Step (mkSystem 0%nat [0%nat] 41) [NewMembrane "root" 0 1%float]).1.1 = 41 + 1.
Proof.
  apply (Step_evolves_then_transports (mkSystem 0%nat [0%nat] 41)
           [NewMembrane "root" 0 1%float]).
  - unfold Int.in_range, Int.min_int, Int.max_int. simpl. lia.
  - unfold Int.max_int. simpl. lia.
Defined.

(* ===================================================================== *)
(** * The repository's tests, run on the embedding *)
(* ===================================================================== *)

(** [TestMembraneEvolution]: after [Evolve] the token is consumed and a
    ["processed"] object is present. *)
Example TestMembraneEvolution :
  (Evolve test_membrane).2 = None
  ∧ map Type_ (Objects (Evolve test_membrane).1) = ["positive_signal"; "processed"].
Proof. split; vm_compute; reflexivity. Qed.

(** The default rules turn a token and a negative signal of value [v] into
    one ["spam_score"] of charge -1 and value [v]. *)
Example default_rules_spam_score :
  Objects (Evolve spam_membrane).1 = [mkObject "spam_score" 3%float (-1) F64.c_0_8].
Proof. vm_compute. reflexivity. Qed.

(** [TestMembraneSystem]: a system of depth 3 has seven membranes, and an
    object injected into ["root"] is the one object of the root. *)
Example TestMembraneSystem :
  ∃ ms h, NewMembraneSystem 3 [] = Some (ms, h)
          ∧ length (All ms) = 7%nat
          ∧ (InjectObject "root" (mkObject "test" 1%float 0 0.5%float) ms h).2 = None
          ∧ (length ∘ Objects <$>
               (InjectObject "root" (mkObject "test" 1%float 0 0.5%float) ms h).1 !! Root ms)
            = Some 1%nat.
Proof. eexists _, _. split_and!; vm_compute; reflexivity. Qed.

(* ===================================================================== *)
(** * Evolve: rules that cannot match, and what a call consumes *)
(* ===================================================================== *)

Section EvolveMore.
Implicit Types (objs : list Object) (used : gset nat) (st : loop_state)
               (r : EvolutionRule) (mt : list nat)
               (acc : list (EvolutionRule * list nat)).

Lemma filter_all {A} (P : A → Prop) `{∀ x, Decision (P x)} (l : list A) :
  Forall P l → filter P l = l.
Proof.
  induction 1 as [|x l Hx _ IH]; [done|]. by rewrite filter_cons_True, IH.
Qed.

Lemma kept_empty objs : kept objs ∅ = objs.
Proof.
  unfold kept. apply list_eq. intros i.
  rewrite filter_all by (apply Forall_forall; set_solver).
  rewrite list_lookup_fmap.
  destruct (decide (i < length objs)%nat) as [Hi|Hi].
  - rewrite lookup_seq_lt by done. simpl.
    by rewrite list_lookup_lookup_total_lt.
  - rewrite lookup_seq_ge by lia. simpl. symmetry. apply lookup_ge_None. lia.
Qed.

(** Every required type of a matched rule is the type of one of the matched
    objects. *)
Lemma findMatches_types objs r used mt t :
  mt ∈ findMatches objs r used → t ∈ InputTypes r →
  ∃ i o, i ∈ mt ∧ (i ∉ used) ∧ objs !! i = Some o ∧ Type_ o = t.
Proof.
  intros Hmt Ht. destruct (findMatches_inv _ _ _ _ Hmt) as (Hall & _ & Hset & _).
  assert (Hin : t ∈ map Type_ (inputObjs objs mt)).
  { apply (elem_of_list_to_set (C := gset string)). rewrite Hset.
    by apply elem_of_list_to_set. }
  unfold inputObjs in Hin. rewrite map_map in Hin.
  apply list_elem_of_fmap in Hin as (i & -> & Hi).
  rewrite Forall_forall in Hall. destruct (Hall i Hi) as [Hlt Hu].
  exists i, (objs !!! i). split_and!; try done.
  by apply list_lookup_lookup_total_lt.
Qed.

(** With no match for any rule, the loop ends in its initial state. *)
Lemma rule_loop_no_match objs (rs : list EvolutionRule) : ∀ st,
  (∀ r used, r ∈ rs → findMatches objs r used = []) →
  foldl (rule_step objs) st rs = st.
Proof.
  induction rs as [|r rs IH]; intros st Hno; simpl; [done|].
  rewrite rule_step_no_match by (apply Hno; left).
  apply IH. intros r' used Hr'. apply Hno. by right.
Qed.

(** The indices the loop consumes are pairwise different, inside the object
    list and not consumed before. *)
Lemma rule_loop_nodup objs (rs : list EvolutionRule) : ∀ st acc,
  accepted (foldl (rule_step objs) st rs) = accepted st ++ acc →
  NoDup (concat (map snd acc))
  ∧ Forall (λ i, (i < length objs)%nat ∧ i ∉ usedObjects st) (concat (map snd acc)).
Proof.
  induction rs as [|r rs IH]; intros st acc; simpl.
  { intros H. rewrite <- (app_nil_r (accepted st)) in H at 1.
    apply app_inv_head in H. subst acc. simpl. split; constructor. }
  destruct (findMatches_cases objs r (usedObjects st)) as [Hnone|[mt Hone]].
  - rewrite (rule_step_no_match _ _ _ Hnone). apply IH.
  - rewrite (rule_step_match _ _ _ _ Hone).
    set (st1 := mkLoop _ _ _).
    destruct (rule_loop_inv objs rs st1) as (acc1 & Hacc1 & _).
    intros Hacc. rewrite Hacc1 in Hacc. simpl in Hacc.
    rewrite <- app_assoc in Hacc. apply app_inv_head in Hacc. subst acc.
    destruct (IH st1 acc1 Hacc1) as (Hnd & Hall). simpl in Hall.
    assert (Hmt : mt ∈ findMatches objs r (usedObjects st)).
    { rewrite Hone. by apply list_elem_of_singleton. }
    destruct (findMatches_inv _ _ _ _ Hmt) as (Hmall & Hmnd & _).
    simpl. split.
    + apply NoDup_app. split_and!; [|  |done].
      * unfold inputObjs in Hmnd. rewrite map_map in Hmnd.
        by apply NoDup_fmap_1 in Hmnd.
      * intros i Hi Hi'. rewrite Forall_forall in Hall.
        destruct (Hall i Hi') as [_ Hn]. apply Hn. set_solver.
    + apply Forall_app. split; [done|].
      eapply Forall_impl; [exact Hall|]. intros i [? Hn]. split; [done|]. set_solver.
Qed.

(** When no rule can match, [Evolve] returns the membrane as it was. *)
Lemma Evolve_no_rule_applies (m : Membrane) :
  (∀ r, r ∈ Rules m →
     InputTypes r = [] ∨ ∃ t, t ∈ InputTypes r ∧ ∀ o, o ∈ Objects m → Type_ o ≠ t) →
  Evolve m = (m, None).
Proof.
  intros Hno. unfold Evolve, evolve_loop.
  rewrite rule_loop_no_match.
  - simpl. rewrite remainingObjects_kept, kept_empty, app_nil_r. by destruct m.
  - intros r used Hr. rewrite (sortRules_perm (Rules m)) in Hr.
    destruct (findMatches_cases (Objects m) r used) as [?|[mt Hone]]; [done|].
    exfalso. destruct (Hno r Hr) as [Hnil|(t & Ht & Habs)].
    + by rewrite findMatches_no_inputs in Hone.
    + destruct (findMatches_types (Objects m) r used mt t) as (i & o & _ & _ & Hlk & Hty);
        [rewrite Hone; by apply list_elem_of_singleton|done|].
      eapply Habs; [|exact Hty]. by eapply list_elem_of_lookup_2.
Qed.

Lemma Evolve_no_objects (m : Membrane) : Objects m = [] → Evolve m = (m, None).
Proof.
  intros Hobjs. apply Evolve_no_rule_applies. intros r _.
  destruct (InputTypes r) as [|t ts]; [by left|right].
  exists t. split; [left|]. rewrite Hobjs. by intros o ?%elem_of_nil.
Qed.

Lemma kept_length objs (c : list nat) :
  NoDup c → Forall (λ i, (i < length objs)%nat) c →
  (length (kept objs (list_to_set c)) + length c = length objs)%nat.
Proof.
  intros Hnd Hall. unfold kept. rewrite length_map.
  pose proof (filter_app_complement (λ i, i ∉ (list_to_set c : gset nat))
                (seq 0 (length objs))) as Hp.
  apply Permutation_length in Hp. rewrite length_app, length_seq in Hp.
  enough (length c = length (filter (λ x, ¬ (x ∉ (list_to_set c : gset nat)))
                                   (seq 0 (length objs)))) by lia.
  apply Permutation_length, NoDup_Permutation; [done| |].
  - apply NoDup_filter, NoDup_seq.
  - intros i. rewrite list_elem_of_filter, elem_of_seq, elem_of_list_to_set.
    rewrite Forall_forall in Hall. split.
    + intros Hi. split; [tauto|]. specialize (Hall i Hi). lia.
    + intros [Hi _]. by apply dec_stable.
Qed.
End EvolveMore.

(** X1. A rule that requires a type no object of the membrane has cannot
    match.  When every rule of the membrane is such a rule, or requires
    nothing, [Evolve] returns the membrane as it was; in particular a
    membrane without objects, or without rules, is left as it is. *)
Theorem Evolve_nothing_to_match (m : Membrane) :
  ((∀ r, r ∈ Rules m →
      InputTypes r = [] ∨ ∃ t, t ∈ InputTypes r ∧ ∀ o, o ∈ Objects m → Type_ o ≠ t) →
   Evolve m = (m, None))
  ∧ (Objects m = [] → Evolve m = (m, None))
  ∧ (Rules m = [] → Evolve m = (m, None)).
Proof.
  split_and!.
  - apply Evolve_no_rule_applies.
  - apply Evolve_no_objects.
  - intros Hrules. apply Evolve_no_rule_applies. rewrite Hrules. by intros r ?%elem_of_nil.
Qed.

(** X2. In one [Evolve] call no object is consumed twice: the indices of all
    accepted matches are pairwise different and are indices of the object
    list.  The membrane ends with as many objects as it had, less the
    consumed ones, plus the produced ones. *)
Theorem Evolve_consumes_each_object_once (m : Membrane) :
  let acc := accepted (evolve_loop (Objects m) (Rules m)) in
  NoDup (concat (map snd acc))
  ∧ Forall (λ i, (i < length (Objects m))%nat) (concat (map snd acc))
  ∧ (length (Objects (Evolve m).1) + length (concat (map snd acc))
     = length (Objects m) + length (produced (Objects m) acc))%nat.
Proof.
  intros acc.
  destruct (rule_loop_nodup (Objects m) (sortRules (Rules m)) (mkLoop [] ∅ []) acc)
    as (Hnd & Hall); [done|].
  assert (Hrange : Forall (λ i, (i < length (Objects m))%nat) (concat (map snd acc))).
  { eapply Forall_impl; [exact Hall|]. by intros i [? _]. }
  split_and!; try done.
  rewrite Evolve_objects, length_app. fold acc. unfold consumed.
  pose proof (kept_length (Objects m) _ Hnd Hrange). lia.
Qed.

(** The witness of X1: a membrane holding a token whose only rule asks for
    an emotion signal. *)
Lemma Evolve_nothing_to_match_witness :
  let m := mkMembrane "m" 1 0.5%float [mkObject "token" 1%float 0 0.5%float]
             [mkRule "affective_modulation" 50 ["emotion_signal"] ["modulated_signal"] []
                     (Some affective_transform)] None [] in
  Evolve m = (m, None).
Proof.
  intros m. apply (proj1 (Evolve_nothing_to_match m)).
  intros r Hr. right. exists "emotion_signal".
  apply list_elem_of_singleton in Hr. subst r. split; [by left|].
  intros o Ho. apply list_elem_of_singleton in Ho. by subst o.
Defined.

(* ===================================================================== *)
(** * findMatches takes the first unused object of each required type *)
(* ===================================================================== *)

Section FirstFit.
Implicit Types (objs : list Object) (used : gset nat) (tn : gset string)
               (iobjs : list (nat * Object)) (mt : list nat).

Lemma StronglySorted_sublist {A} (R : A → A → Prop) (l k : list A) :
  l `sublist_of` k → StronglySorted R k → StronglySorted R l.
Proof.
  induction 1 as [|x l k Hsub IH|x l k Hsub IH]; intros HS; [done| |].
  - apply StronglySorted_inv in HS as [HS Hx]. constructor; [by apply IH|].
    rewrite Forall_forall in Hx |- *. intros y Hy. apply Hx.
    by apply (sublist_subseteq _ _ Hsub).
  - apply StronglySorted_inv in HS as [HS _]. by apply IH.
Qed.

Lemma StronglySorted_map_fst {B} (l : list (nat * B)) :
  StronglySorted (λ a b, (a.1 < b.1)%nat) l → StronglySorted lt (map fst l).
Proof.
  induction 1 as [|x l _ IH Hx]; simpl; constructor; [done|].
  by apply Forall_fmap.
Qed.

Lemma imap_indices_sorted objs : ∀ k,
  StronglySorted (λ a b : nat * Object, (a.1 < b.1)%nat) (imap (λ i o, ((k + i)%nat, o)) objs).
Proof.
  induction objs as [|o objs IH]; intros k; simpl; constructor.
  - rewrite (imap_ext _ (λ i o, ((S k + i)%nat, o))); [apply IH|].
    intros; simpl; f_equal; lia.
  - apply Forall_forall. intros [j o'] (i & y & [= -> ->] & _)%elem_of_lookup_imap.
    simpl. lia.
Qed.

(** The scan takes, for a type it still needs, the first unused object of
    that type it meets. *)
Lemma scan_objects_first_fit iobjs used : ∀ mt tn mt',
  StronglySorted (λ a b, (a.1 < b.1)%nat) iobjs →
  mt' ∈ scan_objects iobjs used mt tn →
  ∃ ext : list (nat * Object),
    mt' = mt ++ map fst ext
    ∧ ext `sublist_of` iobjs
    ∧ Forall (λ io, Type_ io.2 ∈ tn) ext
    ∧ ∀ io jo, io ∈ ext → jo ∈ iobjs → jo.1 ∉ used → Type_ jo.2 = Type_ io.2 →
               (io.1 ≤ jo.1)%nat.
Proof.
  induction iobjs as [|[i obj] rest IH]; intros mt tn mt' HS Hin; simpl in Hin.
  { by apply elem_of_nil in Hin. }
  apply StronglySorted_inv in HS as [HS Hlt]. rewrite Forall_forall in Hlt.
  destruct (decide (i ∈ used)) as [Hu|Hu].
  { destruct (IH _ _ _ HS Hin) as (ext & ? & ? & ? & Hff).
    exists ext. split_and!; try done; [by apply sublist_cons|].
    intros io jo Hio [->|Hjo]%elem_of_cons Hused Hty; [done|]. by apply Hff. }
  destruct (decide (Type_ obj ∈ tn)) as [Ht|Ht].
  - destruct (decide (size (tn ∖ {[Type_ obj]}) = 0%nat)) as [Hz|Hz].
    + apply list_elem_of_singleton in Hin. subst mt'.
      exists [(i, obj)]. split_and!; try done.
      * apply sublist_skip, sublist_nil_l.
      * by repeat constructor.
      * intros io jo ->%list_elem_of_singleton [->|Hjo]%elem_of_cons _ _; simpl; [lia|].
        specialize (Hlt _ Hjo). simpl in Hlt. lia.
    + destruct (IH _ _ _ HS Hin) as (ext & -> & Hsub & Hall & Hff).
      exists ((i, obj) :: ext). split_and!.
      * by rewrite <- app_assoc.
      * by apply sublist_skip.
      * constructor; [done|]. eapply Forall_impl; [exact Hall|]. set_solver.
      * rewrite Forall_forall in Hall.
        intros io jo [->|Hio]%elem_of_cons [->|Hjo]%elem_of_cons Hused Hty; simpl in *.
        -- lia.
        -- specialize (Hlt _ Hjo). simpl in Hlt. lia.
        -- specialize (Hall _ Hio). set_solver.
        -- by apply Hff.
  - destruct (IH _ _ _ HS Hin) as (ext & ? & ? & Hall & Hff).
    exists ext. split_and!; try done; [by apply sublist_cons|].
    rewrite Forall_forall in Hall.
    intros io jo Hio [->|Hjo]%elem_of_cons Hused Hty; simpl in *.
    + specialize (Hall _ Hio). congruence.
    + by apply Hff.
Qed.
End FirstFit.

(** X3. [findMatches] returns a match exactly when the rule requires at
    least one type and every required type has an unused object.  The match
    lists its indices in ascending order, and each of them is the lowest
    unused index holding an object of its type: the objects taken are the
    first ones of each required type. *)
Theorem findMatches_first_fit (objs : list Object) (r : EvolutionRule) (used : gset nat) :
  ((∃ mt, findMatches objs r used = [mt])
   ↔ InputTypes r ≠ []
     ∧ ∀ t, t ∈ InputTypes r → ∃ i o, objs !! i = Some o ∧ Type_ o = t ∧ i ∉ used)
  ∧ ∀ mt, mt ∈ findMatches objs r used →
      StronglySorted lt mt
      ∧ ∀ i j o o', i ∈ mt → objs !! i = Some o → objs !! j = Some o' → j ∉ used →
                    Type_ o' = Type_ o → (i ≤ j)%nat.
Proof.
  split.
  - split.
    + intros [mt Hone].
      assert (Hmt : mt ∈ findMatches objs r used).
      { rewrite Hone. by apply list_elem_of_singleton. }
      split.
      * intros Hnil. by rewrite findMatches_no_inputs in Hone.
      * intros t Ht.
        destruct (findMatches_types objs r used mt t Hmt Ht) as (i & o & _ & ? & ? & ?).
        by exists i, o.
    + intros [Hne Hav]. by apply findMatches_complete.
  - intros mt Hmt. unfold findMatches in Hmt.
    case_decide; [by apply elem_of_nil in Hmt|].
    pose proof (imap_indices_sorted objs 0) as HS. simpl in HS.
    destruct (scan_objects_first_fit _ _ _ _ _ HS Hmt) as (ext & -> & Hsub & _ & Hff).
    simpl. split.
    + apply StronglySorted_map_fst. by eapply StronglySorted_sublist.
    + intros i j o o' Hi Hio Hjo Hused Hty.
      apply list_elem_of_fmap in Hi as ([i' oi] & -> & Hin). simpl in *.
      assert (oi = o) as ->.
      { apply (sublist_subseteq _ _ Hsub) in Hin.
        apply elem_of_lookup_imap in Hin as (k & y & [= -> ->] & Hk). congruence. }
      apply (Hff (i', o) (j, o')); try done.
      by apply (elem_of_lookup_imap_2 (λ i o, (i, o))).
Qed.

(* ===================================================================== *)
(** * The rule sort on a sorted list *)
(* ===================================================================== *)

Section SortFixed.
Lemma bubble_sorted x rest : Forall (priority_ge x) rest → bubble x rest = (x, rest).
Proof.
  induction 1 as [|y rest Hy _ IH]; simpl; [done|].
  unfold priority_ge in Hy.
  destruct (Z.ltb_spec (Priority x) (Priority y)); [lia|]. by rewrite IH.
Qed.

Lemma selection_sorted_id n : ∀ l, StronglySorted priority_ge l → selection n l = l.
Proof.
  induction n as [|n IH]; intros [|x rest] HS; simpl; try done.
  apply StronglySorted_inv in HS as [HS Hx].
  rewrite bubble_sorted by done. simpl. by rewrite IH.
Qed.
End SortFixed.

(** X4. The sort of [Evolve] leaves a rule list that is already in
    descending order of priority exactly as it is, so rules of equal
    priority listed in such an order are tried in the order they were
    added; and sorting a sorted list again changes nothing. *)
Theorem sortRules_keeps_sorted (rules : list EvolutionRule) :
  (StronglySorted priority_ge rules → sortRules rules = rules)
  ∧ sortRules (sortRules rules) = sortRules rules.
Proof.
  assert (H : ∀ l, StronglySorted priority_ge l → sortRules l = l).
  { intros l HS. rewrite sortRules_selection. by apply selection_sorted_id. }
  split; [apply H|]. apply H, sortRules_sorted.
Qed.

(** The witness of X4: the default rules are tried as they are listed. *)
Lemma sortRules_keeps_sorted_witness : sortRules CreateDefaultRules = CreateDefaultRules.
Proof.
  apply (proj1 (sortRules_keeps_sorted CreateDefaultRules)).
  repeat constructor; unfold priority_ge; simpl; lia.
Defined.

(* ===================================================================== *)
(** * The default rules at work *)
(* ===================================================================== *)

Section DefaultRules.
Lemma add_zero_l (v : float) : Prim2SF v ≠ S754_zero true → (0 + v)%float = v.
Proof.
  intros Hv. apply Prim2SF_inj. rewrite add_spec.
  change (Prim2SF 0) with (S754_zero false).
  destruct (Prim2SF v) as [[]| | |]; try done.
Qed.
End DefaultRules.

(** X5. What the default rules do to the objects they are written for.  A
    membrane with the default rules that holds a token of charge at least 0
    and a negative signal of negative charge and value [v] holds after one
    [Evolve] a single object: a spam score of charge -1 and mobility 0.8
    whose value is [0 + v] (which is [v], unless [v] is the negative zero).
    With a positive signal of positive charge and a token of charge at most
    0 the result is a ham score of charge 1.  A single emotion signal
    becomes a modulated signal of 1.1 times its value, with its charge and
    mobility. *)
Theorem default_rules_scores (id : string) (lvl : Z) (perm : float) (parent : option addr)
    (children : list addr) (tv tm v sm : float) (tc sc : Z) :
  let membrane objs := mkMembrane id lvl perm objs CreateDefaultRules parent children in
  (0 <= tc → sc < 0 →
   Evolve (membrane [mkObject "token" tv tc tm; mkObject "negative_signal" v sc sm])
   = (membrane [mkObject "spam_score" (0 + v)%float (-1) F64.c_0_8], None))
  ∧ (tc <= 0 → 0 < sc →
     Evolve (membrane [mkObject "token" tv tc tm; mkObject "positive_signal" v sc sm])
     = (membrane [mkObject "ham_score" (0 + v)%float 1 F64.c_0_8], None))
  ∧ Evolve (membrane [mkObject "emotion_signal" v sc sm])
    = (membrane [mkObject "modulated_signal" (v * F64.c_1_1)%float sc sm], None)
  ∧ (Prim2SF v ≠ S754_zero true → (0 + v)%float = v).
Proof.
  intros membrane. split_and!.
  - intros Htc Hsc. destruct tc as [|p|p]; try lia; destruct sc as [|q|q]; try lia;
      vm_compute; reflexivity.
  - intros Htc Hsc. destruct tc as [|p|p]; try lia; destruct sc as [|q|q]; try lia;
      vm_compute; reflexivity.
  - vm_compute; reflexivity.
  - apply add_zero_l.
Qed.

(** The witness of X5: the token and the signal of the message filter. *)
Lemma default_rules_scores_witness :
  Evolve (mkMembrane "root_0" 1 0.5%float
            [mkObject "token" 1%float 0 0.5%float;
             mkObject "negative_signal" 1.5%float (-1) 0x1.ccccccccccccdp-1%float]
            CreateDefaultRules None [])
  = (mkMembrane "root_0" 1 0.5%float
       [mkObject "spam_score" (0 + 1.5)%float (-1) F64.c_0_8] CreateDefaultRules None [], None).
Proof.
  apply (proj1 (default_rules_scores "root_0" 1 0.5%float None [] 1%float 0.5%float 1.5%float
                  0x1.ccccccccccccdp-1%float 0 (-1))); lia.
Defined.

(* ===================================================================== *)
(** * PassObjects: conservation, and the closed membrane *)
(* ===================================================================== *)

Section PassObjectsMore.
Implicit Types (h : heap) (src tgt : addr) (obj : Object) (objs : list Object).

(** Replacing one membrane exchanges its objects for the new ones. *)
Lemma all_objects_insert h a m m' :
  h !! a = Some m →
  all_objects (<[a := m']> h) ++ Objects m ≡ₚ all_objects h ++ Objects m'.
Proof.
  intros Hm. pose proof (lookup_lt_Some _ _ _ Hm) as Hlt.
  rewrite <- (take_drop_middle h a m Hm) at 2.
  rewrite insert_take_drop by done. unfold all_objects.
  rewrite !map_app, !concat_app. simpl.
  rewrite <- !app_assoc.
  apply Permutation_app_head.
  rewrite (Permutation_app_comm (Objects m')), (Permutation_app_comm (Objects m)).
  rewrite <- !app_assoc. apply Permutation_app_head, Permutation_app_comm.
Qed.

Lemma alter_insert h a m (f : Membrane → Membrane) :
  h !! a = Some m → alter f a h = <[a := f m]> h.
Proof.
  intros Hm. apply list_eq. intros j. rewrite list_lookup_alter, list_lookup_insert.
  pose proof (lookup_lt_Some _ _ _ Hm).
  destruct (decide (a = j)) as [->|Hne].
  - rewrite Hm, decide_True by done. done.
  - rewrite decide_False by (by intros [? _]). done.
Qed.

(** A membrane of permeability 0 lets nothing through. *)
Lemma zero_permeability_blocks obj : passes 0%float obj = false.
Proof.
  unfold passes, passProb.
  destruct (F64.gt (F64.Abs (F64.of_int (Charge obj))) 0); unfold F64.gt;
    rewrite ltb_spec, ?mul_spec; change (Prim2SF 0) with (S754_zero false);
    destruct (Prim2SF (Mobility obj)) as [[]|[]| |[] m e]; reflexivity.
Qed.
End PassObjectsMore.

(** X6. [PassObjects] from one membrane to another one neither creates nor
    destroys an object: the objects of all membranes after the call are the
    objects before it, rearranged; what left the source is what the target
    gained, and the source's own objects are split between the two. *)
Theorem PassObjects_conserves_objects (h : heap) (src tgt : addr) (ms mt : Membrane) :
  h !! src = Some ms →
  h !! tgt = Some mt →
  src ≠ tgt →
  all_objects (PassObjects src (Some tgt) h).1 ≡ₚ all_objects h
  ∧ ∃ moved stayed,
      (PassObjects src (Some tgt) h).1 !! tgt = Some (set_Objects (Objects mt ++ moved) mt)
      ∧ (PassObjects src (Some tgt) h).1 !! src = Some (set_Objects stayed ms)
      ∧ moved ++ stayed ≡ₚ Objects ms.
Proof.
  intros Hs Ht Hne. rewrite (PassObjects_eq _ _ _ _ Hs). simpl.
  set (moved := filter (λ o, passes (Permeability ms) o) (Objects ms)).
  set (stayed := filter (λ o, ¬ passes (Permeability ms) o) (Objects ms)).
  assert (Hsplit : moved ++ stayed ≡ₚ Objects ms) by apply filter_app_complement.
  rewrite (alter_insert h tgt mt) by done.
  assert (Hs1 : <[tgt := set_Objects (Objects mt ++ moved) mt]> h !! src = Some ms).
  { by rewrite list_lookup_insert_ne. }
  rewrite (alter_insert _ src ms) by done.
  split.
  - pose proof (all_objects_insert h tgt mt (set_Objects (Objects mt ++ moved) mt) Ht) as H1.
    pose proof (all_objects_insert _ src ms (set_Objects stayed ms) Hs1) as H2.
    simpl in H1, H2.
    apply (Permutation_app_inv_r (Objects ms ++ Objects mt)).
    rewrite app_assoc, H2, <- app_assoc.
    rewrite (Permutation_app_comm stayed), app_assoc, H1, <- !app_assoc.
    apply Permutation_app_head.
    rewrite (Permutation_app_comm (Objects ms)).
    apply Permutation_app_head. by rewrite Hsplit.
  - exists moved, stayed. split_and!; [|  |done].
    + rewrite list_lookup_insert_ne by done.
      apply list_lookup_insert_eq. by eapply lookup_lt_Some.
    + apply list_lookup_insert_eq. rewrite length_insert. by eapply lookup_lt_Some.
Qed.

(** The witness of X6: the charged object moves from the first membrane to
    the second. *)
Lemma PassObjects_conserves_objects_witness :
  all_objects (PassObjects 0%nat (Some 1%nat) [self_membrane; NewMembrane "t" 1 0.5%float]).1
  ≡ₚ all_objects [self_membrane; NewMembrane "t" 1 0.5%float].
Proof.
  apply (PassObjects_conserves_objects [self_membrane; NewMembrane "t" 1 0.5%float]
           0%nat 1%nat self_membrane (NewMembrane "t" 1 0.5%float) eq_refl eq_refl).
  lia.
Defined.

(** X7. A membrane of permeability 0 is closed: [PassObjects] from it, to
    any target, moves nothing and leaves every membrane as it was, whatever
    the mobility and the charge of its objects. *)
Theorem PassObjects_zero_permeability (h : heap) (src tgt : addr) (ms : Membrane) :
  h !! src = Some ms →
  Permeability ms = 0%float →
  PassObjects src (Some tgt) h = (h, None).
Proof.
  intros Hs Hperm. rewrite (PassObjects_eq _ _ _ _ Hs), Hperm. f_equal.
  assert (Hnone : filter (λ o, passes 0%float o) (Objects ms) = []).
  { induction (Objects ms) as [|o l IH]; [done|].
    rewrite filter_cons_False; [done|]. rewrite zero_permeability_blocks. simpl. tauto. }
  assert (Hall : filter (λ o, ¬ passes 0%float o) (Objects ms) = Objects ms).
  { apply filter_all, Forall_forall. intros o _. rewrite zero_permeability_blocks.
    simpl. tauto. }
  rewrite Hnone, Hall.
  rewrite (list_alter_id _ h tgt).
  2: { intros []. unfold set_Objects; simpl. by rewrite app_nil_r. }
  rewrite (alter_insert _ _ _ _ Hs). apply list_insert_id.
  rewrite Hs. by destruct ms.
Qed.

(** The witness of X7: a closed membrane holding a charged, fully mobile
    object. *)
Lemma PassObjects_zero_permeability_witness :
  let closed := mkMembrane "m" 0 0%float [charged_object] [] None [] in
  PassObjects 0%nat (Some 1%nat) [closed; NewMembrane "t" 1 0.5%float]
  = ([closed; NewMembrane "t" 1 0.5%float], None).
Proof.
  intros closed.
  exact (PassObjects_zero_permeability [closed; NewMembrane "t" 1 0.5%float] 0%nat 1%nat
           closed eq_refl eq_refl).
Defined.

(* ===================================================================== *)
(** * NewMembraneSystem builds a complete binary tree *)
(* ===================================================================== *)

Section CompleteTree.
Implicit Types (h : heap) (ms : MembraneSystem) (a p c parent base : nat) (m mp : Membrane).

Lemma descendants_length k : ∀ parent pid cur a,
  length (descendants k parent pid cur a) = descendants_count k.
Proof.
  induction k as [|k IH]; intros parent pid cur a; simpl; [done|].
  rewrite length_app. simpl. rewrite !IH. lia.
Qed.

(** [buildHierarchy] in closed form: the parent gains its two children and
    the membranes below it are appended to the heap. *)
Lemma buildHierarchy_eq maxDepth :
  maxDepth <= Int.max_int →
  ∀ fuel parent cur ms h mp,
    h !! parent = Some mp → 1 <= cur →
    (Z.to_nat (maxDepth - cur) ≤ fuel)%nat →
    buildHierarchy fuel parent maxDepth cur (ms, h)
    = Some (mkSystem (Root ms)
                     (All ms ++ seq (length h) (descendants_count (Z.to_nat (maxDepth - cur))))
                     (StepCount ms),
            <[parent := set_Children
                          (Children mp ++ child_addrs (Z.to_nat (maxDepth - cur)) (length h)) mp]> h
            ++ descendants (Z.to_nat (maxDepth - cur)) parent (ID mp) cur (length h)).
Proof.
  intros Hmax fuel.
  assert (Hstop : ∀ parent cur ms h mp, h !! parent = Some mp → maxDepth <= cur →
            Some (ms, h)
            = Some (mkSystem (Root ms)
                      (All ms ++ seq (length h) (descendants_count (Z.to_nat (maxDepth - cur))))
                      (StepCount ms),
                    <[parent := set_Children
                        (Children mp ++ child_addrs (Z.to_nat (maxDepth - cur)) (length h)) mp]> h
                    ++ descendants (Z.to_nat (maxDepth - cur)) parent (ID mp) cur (length h))).
  { intros parent cur ms h mp Hp Hge.
    replace (Z.to_nat (maxDepth - cur)) with 0%nat by lia. simpl.
    rewrite !app_nil_r. destruct ms; simpl. do 2 f_equal.
    symmetry. apply list_insert_id. rewrite Hp. by destruct mp. }
  induction fuel as [|fuel IH]; intros parent cur ms h mp Hp H1 Hfuel.
  - cbn [buildHierarchy]. destruct (Z.leb_spec maxDepth cur); [|lia]. by apply Hstop.
  - cbn [buildHierarchy]. destruct (Z.leb_spec maxDepth cur) as [|Hlt]; [by apply Hstop|].
    cbn [foldl mbind option_bind].
    destruct (Z.to_nat (maxDepth - cur)) as [|k] eqn:Hk; [lia|].
    assert (Hk' : Z.to_nat (maxDepth - (cur + 1)) = k) by lia.
    pose proof (lookup_lt_Some _ _ _ Hp) as Hplt.
    (* the first child *)
    rewrite (spawn_child_eq _ _ _ _ _ _ Hp). cbn [mbind option_bind fst snd].
    rewrite (Int_add_1 cur maxDepth) by done.
    set (mp1 := set_Children (Children mp ++ [length h]) mp).
    set (mc0 := mkMembrane (ID mp +:+ "_" +:+ pretty 0) cur (child_permeability cur) []
                           CreateDefaultRules (Some parent) []).
    assert (Hlen1 : length (<[parent := mp1]> h ++ [mc0]) = S (length h)).
    { rewrite length_app, length_insert. simpl. lia. }
    rewrite (IH (length h) (cur + 1) _ _ mc0);
      [|by rewrite lookup_app_r, length_insert, Nat.sub_diag by (rewrite length_insert; lia)
       |lia|lia].
    rewrite Hk', Hlen1. cbn [Root All StepCount Children ID mc0 app].
    rewrite (insert_app_r_alt _ _ (length h)) by (rewrite length_insert; lia).
    rewrite length_insert, Nat.sub_diag. cbn [insert list_insert].
    set (n0 := set_Children (child_addrs k (S (length h))) mc0).
    set (D0 := descendants k (length h) (ID mp +:+ "_" +:+ pretty 0) (cur + 1) (S (length h))).
    set (h2 := (<[parent := mp1]> h ++ [n0]) ++ D0).
    assert (Hlen2 : length h2 = (length h + S (descendants_count k))%nat).
    { unfold h2, D0. rewrite !length_app, length_insert, descendants_length. simpl. lia. }
    assert (Hp2 : h2 !! parent = Some mp1).
    { unfold h2. rewrite <- app_assoc. rewrite lookup_app_l by (rewrite length_insert; lia).
      by apply list_lookup_insert_eq. }
    (* the second child *)
    cbn [mbind option_bind].
    rewrite (spawn_child_eq _ _ _ _ _ _ Hp2). cbn [mbind option_bind fst snd].
    set (mp2 := set_Children (Children mp1 ++ [length h2]) mp1).
    set (mc1 := mkMembrane (ID mp1 +:+ "_" +:+ pretty 1) cur (child_permeability cur) []
                           CreateDefaultRules (Some parent) []).
    assert (Hlen3 : length (<[parent := mp2]> h2 ++ [mc1]) = S (length h2)).
    { rewrite length_app, length_insert. simpl. lia. }
    rewrite (IH (length h2) (cur + 1) _ _ mc1);
      [|by rewrite lookup_app_r, length_insert, Nat.sub_diag by (rewrite length_insert; lia)
       |lia|lia].
    rewrite Hk', Hlen3. cbn [Root All StepCount Children ID mc1 mp1 set_Children app].
    rewrite (insert_app_r_alt _ _ (length h2)) by (rewrite length_insert; lia).
    rewrite length_insert, Nat.sub_diag. cbn [insert list_insert].
    f_equal. f_equal.
    + f_equal. rewrite <- !app_assoc. f_equal.
      rewrite Hlen2. cbn [descendants_count].
      replace (2 * S (descendants_count k))%nat
        with (S (descendants_count k) + S (descendants_count k))%nat by lia.
      rewrite seq_app. cbn [seq app]. done.
    + unfold mp2, mc1. rewrite Hlen2. unfold h2. rewrite <- !app_assoc.
      rewrite insert_app_l by (rewrite length_insert; lia).
      rewrite list_insert_insert_eq.
      cbn [descendants child_addrs]. unfold mp1, n0, mc0, D0, set_Children.
      cbn [Children ID Level Permeability Objects Rules Parent].
      rewrite <- !app_assoc. cbn [app].
      reflexivity.
Qed.

(** [NewMembraneSystem] in closed form. *)
Lemma NewMembraneSystem_eq depth h0 :
  depth <= Int.max_int →
  NewMembraneSystem depth h0
  = Some (mkSystem (length h0)
            (length h0 :: seq (S (length h0)) (descendants_count (Z.to_nat (depth - 1)))) 0,
          h0 ++ mkMembrane "root" 0 1%float [] [] None
                           (child_addrs (Z.to_nat (depth - 1)) (S (length h0)))
             :: descendants (Z.to_nat (depth - 1)) (length h0) "root" 1 (S (length h0))).
Proof.
  intros Hmax. unfold NewMembraneSystem, alloc.
  rewrite (buildHierarchy_eq depth Hmax _ _ _ _ _ (NewMembrane "root" 0 1%float));
    [|by apply list_lookup_middle|lia|lia].
  rewrite length_app. simpl. rewrite Nat.add_1_r. do 2 f_equal.
  rewrite (insert_app_r_alt _ _ (length h0)) by lia.
  rewrite Nat.sub_diag. simpl. by rewrite <- app_assoc.
Qed.
End CompleteTree.

Section TreeProperties.
Implicit Types (h : heap) (ms : MembraneSystem) (a p c parent base : nat) (m mp : Membrane).

Lemma descendants_count_pow k :
  Z.of_nat (S (descendants_count k)) = 2 ^ (Z.of_nat k + 1) - 1.
Proof.
  induction k as [|k IH]; [done|].
  replace (Z.of_nat (S k) + 1) with (Z.succ (Z.of_nat k + 1)) by lia.
  rewrite Z.pow_succ_r by lia. cbn [descendants_count]. lia.
Qed.

(** What every membrane below the root looks like. *)
Lemma descendants_shape k : ∀ parent pid cur a,
  Forall (λ m, Objects m = [] ∧ Rules m = CreateDefaultRules
               ∧ cur <= Level m < cur + Z.of_nat k
               ∧ (Children m = [] ↔ Level m = cur + Z.of_nat k - 1)
               ∧ (Children m ≠ [] → length (Children m) = 2%nat))
         (descendants k parent pid cur a).
Proof.
  induction k as [|k IH]; intros parent pid cur a; cbn [descendants]; [constructor|].
  assert (Hsub : ∀ parent' pid' a',
            Forall (λ m, Objects m = [] ∧ Rules m = CreateDefaultRules
                         ∧ cur <= Level m < cur + Z.of_nat (S k)
                         ∧ (Children m = [] ↔ Level m = cur + Z.of_nat (S k) - 1)
                         ∧ (Children m ≠ [] → length (Children m) = 2%nat))
                   (descendants k parent' pid' (cur + 1) a')).
  { intros parent' pid' a'. eapply Forall_impl; [apply IH|].
    intros m (? & ? & ? & Hleaf & ?). split_and!; try done; try lia.
    rewrite Hleaf. lia. }
  assert (Hnode : ∀ (id : string) c,
            let m := mkMembrane id cur (child_permeability cur) []
                                CreateDefaultRules (Some parent) (child_addrs k (S c)) in
            Objects m = [] ∧ Rules m = CreateDefaultRules
            ∧ cur <= Level m < cur + Z.of_nat (S k)
            ∧ (Children m = [] ↔ Level m = cur + Z.of_nat (S k) - 1)
            ∧ (Children m ≠ [] → length (Children m) = 2%nat)).
  { intros id c. simpl. split_and!; try done; try lia.
    - destruct k; simpl; split; try done; lia.
    - destruct k; simpl; done. }
  constructor; [apply Hnode|]. apply Forall_app. split; [apply Hsub|].
  constructor; [apply Hnode|apply Hsub].
Qed.

Lemma string_app_assoc (s1 s2 s3 : string) : (s1 +:+ s2) +:+ s3 = s1 +:+ (s2 +:+ s3).
Proof.
  induction s1 as [|c s1 IH]; [done|].
  change (String c ((s1 +:+ s2) +:+ s3) = String c (s1 +:+ (s2 +:+ s3))). by rewrite IH.
Qed.

Lemma string_app_nil_r (s : string) : s +:+ "" = s.
Proof.
  induction s as [|c s IH]; [done|]. change (String c (s +:+ "") = String c s). by rewrite IH.
Qed.

(** The identifiers below a membrane extend its identifier, and no two of
    them are equal. *)
Lemma descendants_ids k : ∀ parent pid cur a,
  Forall (λ m, ∃ t, ID m = pid +:+ "_" +:+ t) (descendants k parent pid cur a)
  ∧ NoDup (map ID (descendants k parent pid cur a)).
Proof.
  induction k as [|k IH]; intros parent pid cur a; cbn [descendants].
  { split; constructor. }
  change (pretty 0) with "0". change (pretty 1) with "1".
  set (D0 := descendants k a (pid +:+ "_" +:+ "0") (cur + 1) (S a)).
  set (c1 := (a + S (descendants_count k))%nat).
  set (D1 := descendants k c1 (pid +:+ "_" +:+ "1") (cur + 1) (S c1)).
  destruct (IH a (pid +:+ "_" +:+ "0") (cur + 1) (S a)) as [Hf0 Hn0].
  destruct (IH c1 (pid +:+ "_" +:+ "1") (cur + 1) (S c1)) as [Hf1 Hn1].
  fold D0 in Hf0, Hn0. fold D1 in Hf1, Hn1.
  assert (H0 : ∀ x, x ∈ map ID D0 → ∃ t, x = pid +:+ "_0_" +:+ t).
  { intros x (m & -> & Hm)%list_elem_of_fmap. rewrite Forall_forall in Hf0.
    destruct (Hf0 m Hm) as [t ->]. exists t. by rewrite !string_app_assoc. }
  assert (H1 : ∀ x, x ∈ map ID D1 → ∃ t, x = pid +:+ "_1_" +:+ t).
  { intros x (m & -> & Hm)%list_elem_of_fmap. rewrite Forall_forall in Hf1.
    destruct (Hf1 m Hm) as [t ->]. exists t. by rewrite !string_app_assoc. }
  split.
  - constructor; [by exists "0"|]. apply Forall_app. split.
    + apply Forall_forall. intros m Hm.
      destruct (H0 (ID m)) as [t Ht]; [by apply list_elem_of_fmap_2|].
      exists ("0_" +:+ t). done.
    + constructor; [by exists "1"|]. apply Forall_forall. intros m Hm.
      destruct (H1 (ID m)) as [t Ht]; [by apply list_elem_of_fmap_2|].
      exists ("1_" +:+ t). done.
  - cbn [map ID]. rewrite map_app. cbn [map ID].
    apply NoDup_cons. split.
    { rewrite elem_of_app, elem_of_cons. intros [Hin|[Heq|Hin]].
      - destruct (H0 _ Hin) as [t Ht]. apply String.app_inj in Ht. done.
      - apply String.app_inj in Heq. done.
      - destruct (H1 _ Hin) as [t Ht]. apply String.app_inj in Ht. done. }
    apply NoDup_app. split_and!; [done| |].
    { intros x Hx0. rewrite elem_of_cons. intros [Heq|Hin].
      - destruct (H0 _ Hx0) as [t Ht]. rewrite Heq in Ht.
        apply String.app_inj in Ht. done.
      - destruct (H0 _ Hx0) as [t Ht]. destruct (H1 _ Hin) as [t' Ht'].
        rewrite Ht in Ht'. apply String.app_inj in Ht'. done. }
    apply NoDup_cons. split; [|done].
    intros Hin. destruct (H1 _ Hin) as [t Ht]. apply String.app_inj in Ht. done.
Qed.

(** The system [NewMembraneSystem] returns: its registry lists the new
    membranes, which follow the old ones in the heap. *)
Lemma NewMembraneSystem_cells depth h0 :
  depth <= Int.max_int →
  let k := Z.to_nat (depth - 1) in
  let cells := mkMembrane "root" 0 1%float [] [] None (child_addrs k (S (length h0)))
               :: descendants k (length h0) "root" 1 (S (length h0)) in
  NewMembraneSystem depth h0
  = Some (mkSystem (length h0) (seq (length h0) (length cells)) 0, h0 ++ cells).
Proof.
  intros Hmax k cells. rewrite NewMembraneSystem_eq by done.
  unfold cells. cbn [length seq]. by rewrite descendants_length.
Qed.

Lemma registry_lookup (h0 cells : heap) a m :
  a ∈ seq (length h0) (length cells) → (h0 ++ cells) !! a = Some m →
  cells !! (a - length h0)%nat = Some m.
Proof.
  intros [Hlo Hhi]%elem_of_seq Hlk. by rewrite lookup_app_r in Hlk by lia.
Qed.
End TreeProperties.

(** X8. For every depth [d] that is a Go [int], [NewMembraneSystem d] builds
    a complete binary tree: it registers [2^d - 1] membranes (one, the root,
    when [d] is below 1), their levels run from 0 to [d - 1], the membranes
    of the last level are exactly those without children, and every other
    membrane has exactly two children. *)
Theorem NewMembraneSystem_complete_tree (depth : Z) (h0 : heap) :
  Int.in_range depth →
  ∃ ms h,
    NewMembraneSystem depth h0 = Some (ms, h)
    ∧ Z.of_nat (length (All ms)) = 2 ^ Z.max depth 1 - 1
    ∧ length h = (length h0 + length (All ms))%nat
    ∧ ∀ a m, a ∈ All ms → h !! a = Some m →
        0 <= Level m <= Z.max depth 1 - 1
        ∧ (Children m = [] ↔ Level m = Z.max depth 1 - 1)
        ∧ (Children m ≠ [] → length (Children m) = 2%nat).
Proof.
  intros [_ Hmax]. eexists _, _. split; [by apply NewMembraneSystem_cells|].
  remember (Z.to_nat (depth - 1)) as k eqn:Hk.
  cbn [All]. rewrite length_seq, length_app. split_and!.
  - cbn [length]. rewrite descendants_length, descendants_count_pow.
    f_equal. f_equal. lia.
  - done.
  - intros a m Ha Hm. apply registry_lookup in Hm; [|done].
    apply list_elem_of_lookup_2, elem_of_cons in Hm as [->|Hm].
    + cbn [Level Children]. destruct k as [|k']; simpl; split_and!; try done; try lia.
      * split; [lia|done].
      * split; [done|lia].
    + pose proof (descendants_shape k (length h0) "root" 1 (S (length h0))) as Hshape.
      rewrite Forall_forall in Hshape.
      destruct (Hshape m Hm) as (_ & _ & Hlev & Hleaf & Htwo).
      split_and!; [lia|lia| |done]. rewrite Hleaf. lia.
Qed.

(** The witness of X8: the seven membranes of the depth of the message
    filter. *)
Lemma NewMembraneSystem_complete_tree_witness :
  ∃ ms h, NewMembraneSystem 3 [] = Some (ms, h) ∧ Z.of_nat (length (All ms)) = 2 ^ 3 - 1.
Proof.
  assert (Hr : Int.in_range 3) by (unfold Int.in_range, Int.min_int, Int.max_int; lia).
  destruct (NewMembraneSystem_complete_tree 3 [] Hr) as (ms & h & Hnew & Hsize & _).
  exists ms, h. split; [exact Hnew | exact Hsize].
Defined.

(** X9. A system just built holds no object: every registered membrane has
    an empty object list, the root has no rule and every other membrane has
    exactly the default rules, no membrane is due to dissolve, and
    [CollectResults] returns the empty list. *)
Theorem NewMembraneSystem_is_empty (depth : Z) (h0 : heap) :
  Int.in_range depth →
  ∃ ms h,
    NewMembraneSystem depth h0 = Some (ms, h)
    ∧ (∀ a m, a ∈ All ms → h !! a = Some m →
         Objects m = []
         ∧ Rules m = (if decide (a = Root ms) then [] else CreateDefaultRules)
         ∧ ComputeDissolution m = false)
    ∧ CollectResults ms h = [].
Proof.
  intros [_ Hmax]. eexists _, _. split; [by apply NewMembraneSystem_cells|].
  set (k := Z.to_nat (depth - 1)).
  set (root := mkMembrane "root" 0 1%float [] [] None (child_addrs k (S (length h0)))).
  set (cells := root :: descendants k (length h0) "root" 1 (S (length h0))).
  cbn [All Root].
  assert (Hcells : ∀ a m, a ∈ seq (length h0) (length cells) → (h0 ++ cells) !! a = Some m →
            Objects m = []
            ∧ Rules m = (if decide (a = length h0) then [] else CreateDefaultRules)).
  { intros a m Ha Hm. pose proof (registry_lookup _ _ _ _ Ha Hm) as Hc.
    apply elem_of_seq in Ha as [Hlo Hhi].
    destruct (decide (a = length h0)) as [->|Hne].
    - rewrite Nat.sub_diag in Hc. injection Hc as <-. done.
    - destruct (a - length h0)%nat as [|i] eqn:Hi; [lia|]. simpl in Hc.
      apply list_elem_of_lookup_2 in Hc.
      pose proof (descendants_shape k (length h0) "root" 1 (S (length h0))) as Hshape.
      rewrite Forall_forall in Hshape. by destruct (Hshape m Hc) as (? & ? & _). }
  split.
  - intros a m Ha Hm. destruct (Hcells a m Ha Hm) as [Hobjs Hrules].
    split_and!; try done. unfold ComputeDissolution. by rewrite Hobjs.
  - unfold CollectResults. cbn [All].
    induction (seq (length h0) (length cells)) as [|a l IH] in Hcells |- *; [done|].
    simpl. rewrite IH by (intros; apply Hcells; [by right|done]).
    rewrite app_nil_r. destruct ((h0 ++ cells) !! a) as [m|] eqn:Hm; [|done].
    destruct (Hcells a m) as [-> _]; [by left|done|]. by case_decide.
Qed.

(** The witness of X9. *)
Lemma NewMembraneSystem_is_empty_witness :
  ∃ ms h, NewMembraneSystem 3 [] = Some (ms, h) ∧ CollectResults ms h = [].
Proof.
  assert (Hr : Int.in_range 3) by (unfold Int.in_range, Int.min_int, Int.max_int; lia).
  destruct (NewMembraneSystem_is_empty 3 [] Hr) as (ms & h & Hnew & _ & Hres).
  exists ms, h. split; [exact Hnew | exact Hres].
Defined.

(* ===================================================================== *)
(** * InjectObject *)
(* ===================================================================== *)

Section InjectObject.
Implicit Types (h : heap) (ms : MembraneSystem) (a : nat) (m : Membrane).

Lemma InjectObject_found membraneID obj ms h l1 a l2 m :
  All ms = l1 ++ a :: l2 → h !! a = Some m → ID m = membraneID →
  (∀ b mb, b ∈ l1 → h !! b = Some mb → ID mb ≠ membraneID) →
  InjectObject membraneID obj ms h = (<[a := AddObject obj m]> h, None).
Proof.
  intros Hall Hm Hid Hfirst. unfold InjectObject. rewrite Hall, filter_app.
  assert (Hnone : filter (λ a, from_option (λ m, bool_decide (ID m = membraneID)) false
                                           (h !! a)) l1 = []).
  { induction l1 as [|b l1 IH] in Hfirst |- *; [done|].
    rewrite filter_cons_False.
    - apply IH. intros b' mb Hb'. apply Hfirst. by right.
    - destruct (h !! b) as [mb|] eqn:Hb; simpl; [|tauto].
      rewrite bool_decide_eq_false_2; [simpl; tauto|].
      eapply Hfirst; [by left|done]. }
  rewrite Hnone. rewrite filter_cons_True.
  - simpl. f_equal. unfold heap_AddObject. by apply alter_insert.
  - rewrite Hm. simpl. by rewrite bool_decide_eq_true_2.
Qed.

Lemma InjectObject_error membraneID obj ms h :
  (InjectObject membraneID obj ms h).2 = None
  ↔ ∃ a m, a ∈ All ms ∧ h !! a = Some m ∧ ID m = membraneID.
Proof.
  unfold InjectObject.
  destruct (filter _ (All ms)) as [|a l] eqn:Hf; simpl.
  - split; [done|]. intros (a & m & Ha & Hm & Hid). exfalso.
    eapply (filter_nil_not_elem_of _ _ a Hf); [|done].
    rewrite Hm. simpl. by rewrite bool_decide_eq_true_2.
  - split; [|done]. intros _.
    assert (Ha : a ∈ a :: l) by left. rewrite <- Hf in Ha.
    apply list_elem_of_filter in Ha as [Hp Ha].
    destruct (h !! a) as [m|] eqn:Hm; simpl in Hp; [|done].
    exists a, m. split_and!; try done. by apply bool_decide_unpack in Hp.
Qed.

Lemma InjectObject_missing membraneID obj ms h :
  (∀ b mb, b ∈ All ms → h !! b = Some mb → ID mb ≠ membraneID) →
  InjectObject membraneID obj ms h = (h, Some (NotFound membraneID)).
Proof.
  intros Hno. pose proof (InjectObject_error membraneID obj ms h) as Herr.
  unfold InjectObject in *.
  destruct (filter _ (All ms)) as [|a l]; [done|]. simpl in Herr.
  destruct (proj1 Herr eq_refl) as (b & mb & Hb & Hmb & Hid). by destruct (Hno b mb).
Qed.
End InjectObject.

(** X10. [InjectObject] appends the object to the first membrane of the
    registry that has the given identifier, and changes nothing else; it
    returns the error "membrane not found", leaving every membrane as it
    was, when no registered membrane has the identifier; and it returns an
    error in no other case. *)
Theorem InjectObject_first_match (membraneID : string) (obj : Object)
    (ms : MembraneSystem) (h : heap) :
  (∀ l1 a l2 m,
     All ms = l1 ++ a :: l2 → h !! a = Some m → ID m = membraneID →
     (∀ b mb, b ∈ l1 → h !! b = Some mb → ID mb ≠ membraneID) →
     InjectObject membraneID obj ms h
     = (<[a := set_Objects (Objects m ++ [obj]) m]> h, None))
  ∧ ((∀ b mb, b ∈ All ms → h !! b = Some mb → ID mb ≠ membraneID) →
     InjectObject membraneID obj ms h = (h, Some (NotFound membraneID)))
  ∧ ((InjectObject membraneID obj ms h).2 = None
     ↔ ∃ a m, a ∈ All ms ∧ h !! a = Some m ∧ ID m = membraneID).
Proof.
  split_and!.
  - intros l1 a l2 m. apply InjectObject_found.
  - apply InjectObject_missing.
  - apply InjectObject_error.
Qed.

(** The witness of X10: two membranes of the same name, the first one
    receives the object. *)
Lemma InjectObject_first_match_witness :
  InjectObject "t" charged_object (mkSystem 0%nat [0%nat; 1%nat; 2%nat] 0)
    [NewMembrane "root" 0 1%float; NewMembrane "t" 1 0.5%float; NewMembrane "t" 1 0.5%float]
  = ([NewMembrane "root" 0 1%float; set_Objects [charged_object] (NewMembrane "t" 1 0.5%float);
      NewMembrane "t" 1 0.5%float], None).
Proof.
  apply (proj1 (InjectObject_first_match "t" charged_object
                  (mkSystem 0%nat [0%nat; 1%nat; 2%nat] 0)
                  [NewMembrane "root" 0 1%float; NewMembrane "t" 1 0.5%float;
                   NewMembrane "t" 1 0.5%float])
               [0%nat] 1%nat [2%nat] (NewMembrane "t" 1 0.5%float) eq_refl eq_refl eq_refl).
  intros b mb Hb Hmb. apply list_elem_of_singleton in Hb. subst b.
  injection Hmb as <-. discriminate.
Defined.

Section TreeInject.
Implicit Types (h : heap) (ms : MembraneSystem) (a : nat) (m : Membrane).

(** The system [NewMembraneSystem] returns, as a tree. *)
Lemma NewMembraneSystem_tree depth h0 :
  depth <= Int.max_int →
  NewMembraneSystem depth h0
  = Some (tree_system (Z.to_nat (depth - 1)) h0 0, tree_heap (Z.to_nat (depth - 1)) h0 []).
Proof.
  intros Hmax. rewrite NewMembraneSystem_cells by done.
  unfold tree_system, tree_heap. cbn [length]. by rewrite descendants_length.
Qed.

(** The membrane at a registered address of the tree. *)
Lemma tree_lookup k h0 L c a m :
  a ∈ All (tree_system k h0 c) → tree_heap k h0 L !! a = Some m →
  (a = length h0
   ∧ m = mkMembrane "root" 0 1%float L [] None (child_addrs k (S (length h0))))
  ∨ ((length h0 < a)%nat
     ∧ descendants k (length h0) "root" 1 (S (length h0)) !! (a - S (length h0))%nat = Some m).
Proof.
  unfold tree_system, tree_heap. cbn [All]. intros [Hlo Hhi]%elem_of_seq Hm.
  rewrite lookup_app_r in Hm by lia.
  destruct (decide (a = length h0)) as [->|Hne].
  - left. rewrite Nat.sub_diag in Hm. by injection Hm as <-.
  - right. split; [lia|].
    replace (a - length h0)%nat with (S (a - S (length h0))) in Hm by lia. done.
Qed.

Lemma tree_identifiers_distinct k h0 L c a b ma mb :
  a ∈ All (tree_system k h0 c) → b ∈ All (tree_system k h0 c) →
  tree_heap k h0 L !! a = Some ma → tree_heap k h0 L !! b = Some mb →
  ID ma = ID mb → a = b.
Proof.
  intros Ha Hb Hma Hmb Hid.
  destruct (descendants_ids k (length h0) "root" 1 (S (length h0))) as [Hf Hn].
  assert (Hroot : ∀ i m, descendants k (length h0) "root" 1 (S (length h0)) !! i = Some m →
            ID m ≠ "root").
  { intros i m Hm%list_elem_of_lookup_2 Hidm. rewrite Forall_forall in Hf.
    destruct (Hf m Hm) as [t Ht]. rewrite Ht in Hidm.
    rewrite <- (string_app_nil_r "root") in Hidm at 2.
    apply String.app_inj in Hidm. done. }
  destruct (tree_lookup _ _ _ _ _ _ Ha Hma) as [[-> ->]|[Hlta Hda]],
           (tree_lookup _ _ _ _ _ _ Hb Hmb) as [[-> ->]|[Hltb Hdb]]; try done.
  - exfalso. by eapply Hroot.
  - exfalso. by eapply Hroot.
  - assert (a - S (length h0) = b - S (length h0))%nat; [|lia].
    eapply (NoDup_lookup _ _ _ (ID ma) Hn).
    + by rewrite list_lookup_fmap, Hda.
    + by rewrite list_lookup_fmap, Hdb, Hid.
Qed.

(** [InjectObject] with the identifier of a registered membrane of the tree
    reaches that membrane. *)
Lemma tree_inject k h0 L c obj a m :
  a ∈ All (tree_system k h0 c) → tree_heap k h0 L !! a = Some m →
  InjectObject (ID m) obj (tree_system k h0 c) (tree_heap k h0 L)
  = (<[a := set_Objects (Objects m ++ [obj]) m]> (tree_heap k h0 L), None).
Proof.
  intros Ha Hm. pose proof Ha as [Hlo Hhi]%elem_of_seq.
  apply (InjectObject_found _ _ _ _ (seq (length h0) (a - length h0)) a
           (seq (S a) (length h0 + S (descendants_count k) - S a))); try done.
  - cbn [All tree_system].
    replace (S (descendants_count k))
      with ((a - length h0) + S (length h0 + S (descendants_count k) - S a))%nat at 1 by lia.
    rewrite seq_app. cbn [seq].
    by replace (length h0 + (a - length h0))%nat with a by lia.
  - intros b mb Hb Hmb Hid.
    assert (Hb' : b ∈ All (tree_system k h0 c)).
    { apply elem_of_seq in Hb. apply elem_of_seq. lia. }
    apply elem_of_seq in Hb.
    assert (b = a) by (by eapply tree_identifiers_distinct). lia.
Qed.

Lemma flat_map_nil {A B} (f : A → list B) (l : list A) :
  (∀ x, x ∈ l → f x = []) → flat_map f l = [].
Proof.
  induction l as [|x l IH]; intros Hf; simpl; [done|].
  rewrite (Hf x) by left. apply IH. intros y Hy. apply Hf. by right.
Qed.

(** What [CollectResults] returns after an object has been injected into a
    membrane of the tree just built. *)
Lemma tree_collect_injected k h0 c obj a m :
  a ∈ All (tree_system k h0 c) → tree_heap k h0 [] !! a = Some m →
  CollectResults (tree_system k h0 c)
    (<[a := set_Objects (Objects m ++ [obj]) m]> (tree_heap k h0 []))
  = if decide (Children m = []) then [obj] else [].
Proof.
  intros Ha Hm. pose proof Ha as [Hlo Hhi]%elem_of_seq.
  pose proof (lookup_lt_Some _ _ _ Hm) as Hlt.
  assert (Hempty : ∀ b mb, b ∈ All (tree_system k h0 c) →
            tree_heap k h0 [] !! b = Some mb → Objects mb = []).
  { intros b mb Hb Hmb.
    destruct (tree_lookup _ _ _ _ _ _ Hb Hmb) as [[-> ->]|[_ Hd]]; [done|].
    apply list_elem_of_lookup_2 in Hd.
    pose proof (descendants_shape k (length h0) "root" 1 (S (length h0))) as Hshape.
    rewrite Forall_forall in Hshape. by destruct (Hshape mb Hd) as (? & _). }
  unfold CollectResults. cbn [All tree_system].
  replace (S (descendants_count k))
    with ((a - length h0) + S (length h0 + S (descendants_count k) - S a))%nat by lia.
  rewrite seq_app, flat_map_app. cbn [seq flat_map].
  replace (length h0 + (a - length h0))%nat with a by lia.
  rewrite list_lookup_insert_eq by done.
  rewrite !flat_map_nil.
  - rewrite (Hempty a m Ha Hm). simpl. rewrite app_nil_r.
    destruct m as [? ? ? ? ? ? [|? ?]]; simpl; by repeat case_decide.
  - intros b [Hb1 Hb2]%elem_of_seq. rewrite list_lookup_insert_ne by lia.
    destruct (tree_heap k h0 [] !! b) as [mb|] eqn:Hmb; [|done].
    rewrite (Hempty b mb); [by case_decide| |done]. apply elem_of_seq. lia.
  - intros b [Hb1 Hb2]%elem_of_seq. rewrite list_lookup_insert_ne by lia.
    destruct (tree_heap k h0 [] !! b) as [mb|] eqn:Hmb; [|done].
    rewrite (Hempty b mb); [by case_decide| |done]. apply elem_of_seq. lia.
Qed.
End TreeInject.

(** X11. In a system built by [NewMembraneSystem] no two membranes have the
    same identifier, so that [InjectObject] reaches every membrane by its
    identifier: called with the identifier of a registered membrane it
    appends the object to that membrane and to no other. *)
Theorem NewMembraneSystem_identifiers (depth : Z) (h0 : heap) (obj : Object) :
  Int.in_range depth →
  ∃ ms h,
    NewMembraneSystem depth h0 = Some (ms, h)
    ∧ (∀ a b ma mb, a ∈ All ms → b ∈ All ms → h !! a = Some ma → h !! b = Some mb →
         ID ma = ID mb → a = b)
    ∧ (∀ a m, a ∈ All ms → h !! a = Some m →
         InjectObject (ID m) obj ms h = (<[a := set_Objects (Objects m ++ [obj]) m]> h, None)).
Proof.
  intros [_ Hmax]. eexists _, _. split; [by apply NewMembraneSystem_tree|]. split.
  - apply tree_identifiers_distinct.
  - apply tree_inject.
Qed.

(** The witness of X11: the first child of the root is reached by its
    name. *)
Lemma NewMembraneSystem_identifiers_witness :
  ∃ ms h, NewMembraneSystem 2 [] = Some (ms, h)
          ∧ ∀ a m, a ∈ All ms → h !! a = Some m →
              InjectObject (ID m) charged_object ms h
              = (<[a := set_Objects (Objects m ++ [charged_object]) m]> h, None).
Proof.
  assert (Hr : Int.in_range 2) by (unfold Int.in_range, Int.min_int, Int.max_int; lia).
  destruct (NewMembraneSystem_identifiers 2 [] charged_object Hr) as (ms & h & Hnew & _ & Hinj).
  exists ms, h. split; [exact Hnew | exact Hinj].
Defined.

(* ===================================================================== *)
(** * Steps that move nothing, and objects that bounce *)
(* ===================================================================== *)

Section StepMore.
Implicit Types (h : heap) (ms : MembraneSystem) (a : nat) (op : step_op).

#[local] Arguments PassObjects : simpl never.
#[local] Arguments heap_Evolve : simpl never.

Lemma elem_of_flat_map {A B} (f : A → list B) (l : list A) (y : B) :
  y ∈ flat_map f l ↔ ∃ x, x ∈ l ∧ y ∈ f x.
Proof.
  rewrite list_elem_of_In, in_flat_map. by setoid_rewrite list_elem_of_In.
Qed.

Lemma foldl_run_op_id ops h : (∀ op, op ∈ ops → run_op h op = h) → foldl run_op h ops = h.
Proof.
  induction ops as [|op ops IH]; intros Hid; simpl; [done|].
  rewrite (Hid op) by left. apply IH. intros op' Hop'. apply Hid. by right.
Qed.

(** A transport from a membrane without objects changes nothing. *)
Lemma run_op_pass_empty h src tgt :
  (∀ m, h !! src = Some m → Objects m = []) → run_op h (OpPass src tgt) = h.
Proof.
  intros Hempty. simpl. destruct (h !! src) as [ms|] eqn:Hs.
  - rewrite (PassObjects_eq _ _ _ _ Hs), (Hempty ms eq_refl). simpl.
    rewrite (list_alter_id _ h tgt).
    2: { intros []. unfold set_Objects; simpl. by rewrite app_nil_r. }
    rewrite (alter_insert _ _ _ _ Hs). apply list_insert_id.
    rewrite Hs. f_equal. specialize (Hempty ms eq_refl). destruct ms; simpl in *. by subst.
  - unfold PassObjects. by rewrite Hs.
Qed.

Lemma run_op_evolve_id h a :
  (∀ m, h !! a = Some m → Evolve m = (m, None)) → run_op h (OpEvolve a) = h.
Proof.
  intros Hid. simpl. unfold heap_Evolve. destruct (h !! a) as [m|] eqn:Hm; [|done].
  rewrite (Hid m eq_refl). simpl. by apply list_insert_id.
Qed.

Lemma transports_of_src h a op : op ∈ transports_of h a → ∃ tgt, op = OpPass a tgt.
Proof.
  unfold transports_of. destruct (h !! a) as [m|]; [|by intros ?%elem_of_nil].
  intros [Hp|Hc]%elem_of_app.
  - destruct (Parent m) as [p|]; [|by apply elem_of_nil in Hp].
    apply list_elem_of_singleton in Hp. by exists p.
  - apply list_elem_of_fmap in Hc as (c & -> & _). by exists c.
Qed.

Lemma alter_at_base (f : Membrane → Membrane) (h0 : heap) x t :
  alter f (length h0) (h0 ++ x :: t) = h0 ++ f x :: t.
Proof. by rewrite (alter_app_r_alt _ _ _ (length h0)), Nat.sub_diag by lia. Qed.

Lemma alter_at_next (f : Membrane → Membrane) (h0 : heap) x y t :
  alter f (S (length h0)) (h0 ++ x :: y :: t) = h0 ++ x :: f y :: t.
Proof.
  rewrite (alter_app_r_alt _ _ _ (S (length h0))) by lia.
  by replace (S (length h0) - length h0)%nat with 1%nat by lia.
Qed.

Lemma filter_none {A} (P : A → Prop) `{∀ x, Decision (P x)} (l : list A) :
  Forall (λ x, ¬ P x) l → filter P l = [].
Proof.
  induction 1 as [|x l Hx _ IH]; [done|]. by rewrite filter_cons_False.
Qed.

(** A step of the system [NewMembraneSystem] builds, the root holding
    objects that pass to a child and back and no other membrane holding
    any: the objects go to the first child and return, and the heap after
    the step is the heap before it. *)
Lemma Step_bounce depth (h0 : heap) (L : list Object) (c : Z) :
  Forall bounces L →
  let k := Z.to_nat (depth - 1) in
  let hL := h0 ++ mkMembrane "root" 0 1%float L [] None (child_addrs k (S (length h0)))
               :: descendants k (length h0) "root" 1 (S (length h0)) in
  let ms := mkSystem (length h0) (seq (length h0) (S (descendants_count k))) c in
  Step ms hL = ((with_StepCount (Int.incr c) ms, hL), None).
Proof.
  intros HL k. clearbody k. intros hL ms. unfold ms. rewrite Step_eq.
  unfold with_StepCount. cbn [Root All StepCount]. do 2 f_equal.
  set (base := length h0) in *.
  set (rootL := mkMembrane "root" 0 1%float L [] None (child_addrs k (S base))) in *.
  assert (Hroot : hL !! base = Some rootL) by (by apply list_lookup_middle).
  assert (Hothers : ∀ a m, (base < a)%nat → hL !! a = Some m → Objects m = []).
  { intros a m Ha Hm. unfold hL in Hm. rewrite lookup_app_r in Hm by (fold base; lia).
    fold base in Hm. destruct (a - base)%nat as [|i] eqn:Hi; [lia|]. simpl in Hm.
    apply list_elem_of_lookup_2 in Hm.
    pose proof (descendants_shape k base "root" 1 (S base)) as Hshape.
    rewrite Forall_forall in Hshape. by destruct (Hshape m Hm) as (? & _). }
  (* the evolutions *)
  rewrite (foldl_run_op_id (map OpEvolve _)).
  2: { intros op (a & -> & Ha)%list_elem_of_fmap. apply run_op_evolve_id. intros m Hm.
       apply elem_of_seq in Ha as [Hlo _].
       destruct (decide (a = base)) as [->|Hne].
       - rewrite Hroot in Hm. injection Hm as <-.
         apply Evolve_no_rule_applies. by intros r ?%elem_of_nil.
       - apply Evolve_no_objects. apply (Hothers a); [lia|done]. }
  (* the transports *)
  assert (Hrest : ∀ l, (∀ a, a ∈ l → (base < a)%nat) →
            foldl run_op hL (flat_map (transports_of hL) l) = hL).
  { intros l Hl. apply foldl_run_op_id.
    intros op (a & Ha & Hop)%elem_of_flat_map.
    destruct (transports_of_src _ _ _ Hop) as [tgt ->].
    apply run_op_pass_empty. intros m. apply Hothers. by apply Hl. }
  destruct k as [|k'] eqn:Hk.
  - (* the root alone *)
    cbn [descendants_count seq flat_map]. rewrite app_nil_r.
    unfold transports_of. rewrite Hroot. done.
  - cbn [descendants_count].
    replace (2 * S (descendants_count k'))%nat
      with (S (descendants_count k' + S (descendants_count k')))%nat by lia.
    cbn [seq flat_map]. rewrite !foldl_app.
    set (n0 := mkMembrane ("root" +:+ "_" +:+ pretty 0) 1 (child_permeability 1) []
                 CreateDefaultRules (Some base) (child_addrs k' (S (S base)))).
    set (c1 := (S base + S (descendants_count k'))%nat).
    set (T := descendants k' (S base) ("root" +:+ "_" +:+ pretty 0) (1 + 1) (S (S base))
              ++ mkMembrane ("root" +:+ "_" +:+ pretty 1) 1 (child_permeability 1) []
                   CreateDefaultRules (Some base) (child_addrs k' (S c1))
                 :: descendants k' c1 ("root" +:+ "_" +:+ pretty 1) (1 + 1) (S c1)).
    assert (HhL : hL = h0 ++ rootL :: n0 :: T) by done.
    assert (Hn0 : hL !! S base = Some n0).
    { rewrite HhL. rewrite lookup_app_r by (fold base; lia). fold base.
      by replace (S base - base)%nat with 1%nat by lia. }
    assert (Hpass1 : filter (λ o, passes 1%float o) L = L).
    { apply filter_all. eapply Forall_impl; [exact HL|]. intros o [-> _]. done. }
    assert (Hstay1 : filter (λ o, ¬ passes 1%float o) L = []).
    { apply filter_none. eapply Forall_impl; [exact HL|]. intros o [-> _]. simpl. tauto. }
    assert (Hpass2 : filter (λ o, passes (child_permeability 1) o) L = L).
    { apply filter_all. eapply Forall_impl; [exact HL|]. intros o [_ ->]. done. }
    assert (Hstay2 : filter (λ o, ¬ passes (child_permeability 1) o) L = []).
    { apply filter_none. eapply Forall_impl; [exact HL|]. intros o [_ ->]. simpl. tauto. }
    (* the root passes everything to its first child, nothing to the second *)
    assert (Ht0 : transports_of hL base = [OpPass base (S base); OpPass base c1]).
    { unfold transports_of. rewrite Hroot. done. }
    set (h1 := h0 ++ set_Objects [] rootL :: set_Objects L n0 :: T).
    assert (Hop1 : foldl run_op hL (transports_of hL base) = h1).
    { rewrite Ht0. cbn [foldl].
      assert (Hfirst : run_op hL (OpPass base (S base)) = h1).
      { cbn [run_op]. rewrite (PassObjects_eq _ _ _ _ Hroot). cbn [fst Permeability rootL Objects].
        rewrite Hpass1, Hstay1, HhL. unfold base.
        by rewrite alter_at_next, alter_at_base. }
      rewrite Hfirst. apply run_op_pass_empty. intros m Hm.
      unfold h1, base in Hm. rewrite list_lookup_middle in Hm by done. by injection Hm as <-. }
    rewrite Hop1.
    (* the first child passes everything back *)
    assert (Ht1 : transports_of hL (S base)
                  = OpPass (S base) base :: map (OpPass (S base)) (Children n0)).
    { unfold transports_of. rewrite Hn0. done. }
    assert (Hop2 : foldl run_op h1 (transports_of hL (S base)) = hL).
    { rewrite Ht1. cbn [foldl].
      assert (Hback : run_op h1 (OpPass (S base) base) = hL).
      { cbn [run_op].
        assert (Hsrc : h1 !! S base = Some (set_Objects L n0)).
        { unfold h1. rewrite lookup_app_r by (fold base; lia). fold base.
          by replace (S base - base)%nat with 1%nat by lia. }
        rewrite (PassObjects_eq _ _ _ _ Hsrc).
        cbn [fst Permeability set_Objects n0 Objects].
        rewrite Hpass2, Hstay2. unfold h1, base.
        rewrite alter_at_base, alter_at_next. rewrite HhL. done. }
      rewrite Hback. apply foldl_run_op_id.
      intros op (tgt & -> & _)%list_elem_of_fmap.
      apply run_op_pass_empty. intros m Hm. rewrite Hn0 in Hm. by injection Hm as <-. }
    rewrite Hop2.
    apply Hrest. intros a [Hlo _]%elem_of_seq. lia.
Qed.
End StepMore.

(** X12. A step of a system none of whose registered membranes holds an
    object changes no membrane: it only advances the step counter, and it
    returns no error. *)
Theorem Step_without_objects (ms : MembraneSystem) (h : heap) :
  (∀ a m, a ∈ All ms → h !! a = Some m → Objects m = []) →
  Step ms h = ((mkSystem (Root ms) (All ms) (Int.incr (StepCount ms)), h), None).
Proof.
  intros Hempty. rewrite Step_eq. do 2 f_equal.
  rewrite (foldl_run_op_id (map OpEvolve (All ms))).
  - apply foldl_run_op_id. intros op (a & Ha & Hop)%elem_of_flat_map.
    destruct (transports_of_src _ _ _ Hop) as [tgt ->].
    apply run_op_pass_empty. intros m. by apply Hempty.
  - intros op (a & -> & Ha)%list_elem_of_fmap. apply run_op_evolve_id.
    intros m Hm. apply Evolve_no_objects. by eapply Hempty.
Qed.

(** The witness of X12: a step of a root without objects. *)
Lemma Step_without_objects_witness :
  Step (mkSystem 0%nat [0%nat] 41) [NewMembrane "root" 0 1%float]
  = ((mkSystem 0%nat [0%nat] (Int.incr 41), [NewMembrane "root" 0 1%float]), None).
Proof.
  apply (Step_without_objects (mkSystem 0%nat [0%nat] 41) [NewMembrane "root" 0 1%float]).
  intros a m Ha Hm. apply list_elem_of_singleton in Ha. subst a.
  injection Hm as <-. reflexivity.
Defined.

(* ===================================================================== *)
(** * The membrane phase of the message filter *)
(* ===================================================================== *)

Section FilterMembranes.
Variable ToLower : string → string.
Variable Contains : string → string → bool.

Lemma signals_bounce (o : Object) : o = positive_signal ∨ o = negative_signal → bounces o.
Proof. intros [-> | ->]; split; vm_compute; reflexivity. Qed.

Lemma InjectObject_root k h0 c obj L :
  InjectObject "root" obj (tree_system k h0 c) (tree_heap k h0 L)
  = (tree_heap k h0 (L ++ [obj]), None).
Proof.
  rewrite (InjectObject_found "root" obj _ _ [] (length h0)
             (seq (S (length h0)) (descendants_count k))
             (mkMembrane "root" 0 1%float L [] None (child_addrs k (S (length h0))))).
  - f_equal. unfold tree_heap.
    rewrite (insert_app_r_alt _ _ (length h0)) by lia. by rewrite Nat.sub_diag.
  - done.
  - unfold tree_heap. by apply list_lookup_middle.
  - done.
  - by intros b mb ?%elem_of_nil.
Qed.

Lemma inject_signals_root k h0 c lower obj (kws : list string) : ∀ L,
  inject_signals Contains lower kws obj (tree_system k h0 c) (tree_heap k h0 L)
  = tree_heap k h0 (L ++ flat_map (λ kw, if Contains lower kw then [obj] else []) kws).
Proof.
  unfold inject_signals.
  induction kws as [|kw kws IH]; intros L; cbn [foldl flat_map].
  { by rewrite app_nil_r. }
  destruct (Contains lower kw).
  - rewrite InjectObject_root. cbn [fst]. rewrite IH. by rewrite <- app_assoc.
  - apply IH.
Qed.

Lemma step_loop_bounce k h0 L n : ∀ c,
  Forall bounces L →
  ∃ c', step_loop n (tree_system k h0 c) (tree_heap k h0 L)
        = ((tree_system k h0 c', tree_heap k h0 L), None)
        ∧ c' = Nat.iter n Int.incr c.
Proof.
  induction n as [|n IH]; intros c HL; simpl.
  { by exists c. }
  pose proof (Step_bounce (Z.of_nat k + 1) h0 L c HL) as Hstep. cbv zeta in Hstep.
  replace (Z.to_nat (Z.of_nat k + 1 - 1)) with k in Hstep by lia.
  fold (tree_heap k h0 L) (tree_system k h0 c) in Hstep. rewrite Hstep.
  unfold with_StepCount. cbn [Root All tree_system].
  fold (tree_system k h0 (Int.incr c)).
  destruct (IH (Int.incr c) HL) as (c' & Hloop & ->). rewrite Hloop.
  eexists. split; [done|]. clear. induction n as [|n IH]; simpl; [done|]. by rewrite IH.
Qed.

Lemma processMembraneSystem_tree k h0 L c content :
  Forall (λ o, o = positive_signal ∨ o = negative_signal) L →
  processMembraneSystem ToLower Contains content (tree_system k h0 c) (tree_heap k h0 L)
  = ((tree_system k h0 (Int.incr (Int.incr (Int.incr c))),
      tree_heap k h0 (L ++ signals_of Contains (ToLower content))), None).
Proof.
  intros HL. unfold processMembraneSystem. rewrite !inject_signals_root.
  rewrite <- app_assoc. fold (signals_of Contains (ToLower content)).
  destruct (step_loop_bounce k h0 (L ++ signals_of Contains (ToLower content)) 3 c)
    as (c' & -> & ->); [|done].
  apply Forall_app. split.
  - eapply Forall_impl; [exact HL|]. apply signals_bounce.
  - unfold signals_of. apply Forall_app. split; apply Forall_forall; intros o Ho;
      apply elem_of_flat_map in Ho as (kw & _ & Ho); destruct (Contains _ kw);
      try (by apply elem_of_nil in Ho);
      apply list_elem_of_singleton in Ho; subst o; apply signals_bounce; auto.
Qed.

Lemma CollectResults_tree k h0 L c :
  CollectResults (tree_system k h0 c) (tree_heap k h0 L) = match k with O => L | S _ => [] end.
Proof.
  unfold CollectResults, tree_system. cbn [All seq flat_map].
  assert (Hrest : ∀ l, (∀ a, a ∈ l → (length h0 < a)%nat) →
            flat_map (λ a, match tree_heap k h0 L !! a with
                           | Some m => if decide (length (Children m) = 0%nat)
                                       then Objects m else []
                           | None => []
                           end) l = []).
  { induction l as [|a l IH]; intros Hl; simpl; [done|].
    rewrite IH by (intros; apply Hl; by right). rewrite app_nil_r.
    destruct (tree_heap k h0 L !! a) as [m|] eqn:Hm; [|done].
    assert (Objects m = []) as ->; [|by case_decide].
    assert (length h0 < a)%nat by (apply Hl; left).
    unfold tree_heap in Hm. rewrite lookup_app_r in Hm by lia.
    destruct (a - length h0)%nat as [|i] eqn:Hi; [lia|]. simpl in Hm.
    apply list_elem_of_lookup_2 in Hm.
    pose proof (descendants_shape k (length h0) "root" 1 (S (length h0))) as Hshape.
    rewrite Forall_forall in Hshape. by destruct (Hshape m Hm) as (? & _). }
  rewrite Hrest by (intros a [? ?]%elem_of_seq; lia). rewrite app_nil_r.
  unfold tree_heap. rewrite list_lookup_middle by done. by destruct k.
Qed.
End FilterMembranes.

(** X13. The membrane phase of the message filter on the system built by
    [NewMembraneSystem]: when the root holds only signals the filter
    injected before and the other membranes are empty, a call of
    [processMembraneSystem] returns no error, advances the step counter
    three times, and leaves the system as it was but for the new signals,
    which are appended to the root.  The state after the call is again such
    a state; the system just built is one; and in such a state of a
    hierarchy of depth 2 or more [CollectResults] is empty. *)
Theorem processMembraneSystem_keeps_signals_in_root (ToLower : string → string)
    (Contains : string → string → bool) (depth : Z) (h0 : heap) :
  Int.in_range depth →
  ∃ ms h,
    NewMembraneSystem depth h0 = Some (ms, h)
    ∧ with_root_objects [] ms h = h
    ∧ ∀ (content : string) (L : list Object) (c : Z),
        Forall (λ o, o = positive_signal ∨ o = negative_signal) L →
        processMembraneSystem ToLower Contains content
          (with_StepCount c ms) (with_root_objects L ms h)
        = ((with_StepCount (Int.incr (Int.incr (Int.incr c))) ms,
            with_root_objects (L ++ signals_of Contains (ToLower content)) ms h), None)
        ∧ (2 <= depth → CollectResults ms (with_root_objects L ms h) = []).
Proof.
  intros [_ Hmax]. eexists _, _. split; [by apply NewMembraneSystem_eq|].
  set (k := Z.to_nat (depth - 1)).
  assert (Hheap : ∀ L, with_root_objects L
                         (mkSystem (length h0)
                            (length h0 :: seq (S (length h0)) (descendants_count k)) 0)
                         (tree_heap k h0 []) = tree_heap k h0 L).
  { intros L. unfold with_root_objects, tree_heap. cbn [Root]. by rewrite alter_at_base. }
  fold (tree_heap k h0 []). split; [apply Hheap|].
  intros content L c HL. rewrite !Hheap. split.
  - apply (processMembraneSystem_tree ToLower Contains k h0 L c content HL).
  - intros Hd.
    pose proof (CollectResults_tree k h0 L 0) as Hres.
    destruct k as [|k'] eqn:Hk; [lia|]. exact Hres.
Qed.

(** The witness of X13, for the depth of the default configuration, a
    message that contains every keyword and a fresh system. *)
Lemma processMembraneSystem_keeps_signals_in_root_witness :
  ∃ ms h,
    NewMembraneSystem 3 [] = Some (ms, h)
    ∧ (processMembraneSystem (λ s, s) (λ _ _, true) "" ms h).1.2
      = with_root_objects (replicate 4 positive_signal ++ replicate 4 negative_signal) ms h.
Proof.
  assert (Hr : Int.in_range 3) by (unfold Int.in_range, Int.min_int, Int.max_int; lia).
  destruct (processMembraneSystem_keeps_signals_in_root (λ s, s) (λ _ _, true) 3 [] Hr)
    as (ms & h & Hnew & Hfresh & Hinv).
  exists ms, h. split; [exact Hnew|].
  destruct (Hinv "" [] (StepCount ms) (Forall_nil_2 _)) as [Hp _].
  rewrite Hfresh in Hp.
  assert (Hms : with_StepCount (StepCount ms) ms = ms) by (by destruct ms).
  rewrite Hms in Hp. rewrite Hp. reflexivity.
Defined.

(* ===================================================================== *)
(** * Update on an engine with consistent dimensions *)
(* ===================================================================== *)

Section Loops.
Context {A B : Type}.
Implicit Types (f : A → B → option A) (l : list B).

Lemma foldlM_None f l : foldl (λ acc x, acc ≫= λ a, f a x) None l = None.
Proof. induction l as [|x l IH]; simpl; [done | apply IH]. Qed.

Lemma foldlM_cons f a x l : foldlM f a (x :: l) = f a x ≫= λ a', foldlM f a' l.
Proof.
  unfold foldlM. simpl. destruct (f a x) as [a'|]; simpl; [done|]. apply foldlM_None.
Qed.

(** A loop whose body keeps an invariant, and returns under it, returns. *)
Lemma foldlM_inv (P : A → Prop) (Q : B → Prop) f l : ∀ a,
  Forall Q l →
  (∀ a x, P a → Q x → ∃ a', f a x = Some a' ∧ P a') →
  P a → ∃ a', foldlM f a l = Some a' ∧ P a'.
Proof.
  induction l as [|x l IH]; intros a HQ Hf Ha.
  { by exists a. }
  apply Forall_cons in HQ as [Hx HQ]. rewrite foldlM_cons.
  destruct (Hf a x Ha Hx) as (a' & -> & Ha'). simpl. by apply IH.
Qed.

(** A loop that reaches an element on which the body panics, panics. *)
Lemma foldlM_panic f l x a : x ∈ l → (∀ a, f a x = None) → foldlM f a l = None.
Proof.
  intros Hx Hf. revert a. induction l as [|y l IH]; intros a.
  { by apply elem_of_nil in Hx. }
  rewrite foldlM_cons. apply elem_of_cons in Hx as [<-|Hx].
  - by rewrite Hf.
  - destruct (f a y) as [a'|]; simpl; [by apply IH|done].
Qed.
End Loops.

Section Dot.
Lemma seq_Forall_lt n : Forall (λ j, (j < n)%nat) (seq 0 n).
Proof. apply Forall_forall. intros j [_ ?]%elem_of_seq. lia. Qed.

Lemma dot_is_Some n (a b : vector) :
  (n ≤ length a)%nat → (n ≤ length b)%nat → is_Some (dot n a b).
Proof.
  intros Ha Hb. unfold dot.
  destruct (foldlM_inv (λ _ : float, True) (λ j, (j < n)%nat)
              (λ sum j, x ← a !! j; y ← b !! j; Some (sum + x * y)%float)
              (seq 0 n) 0%float (seq_Forall_lt n)) as (r & -> & _); [|done|done].
  intros s j _ Hj.
  destruct (lookup_lt_is_Some_2 a j ltac:(lia)) as [x ->].
  destruct (lookup_lt_is_Some_2 b j ltac:(lia)) as [y ->]. simpl. eauto.
Qed.

Lemma dot_panic n (a b : vector) : (length b < n)%nat → dot n a b = None.
Proof.
  intros Hb. unfold dot. apply (foldlM_panic _ _ (length b)).
  - apply elem_of_seq. lia.
  - intros s. destruct (a !! length b); simpl; [|done].
    by rewrite (proj2 (lookup_ge_None b (length b))).
Qed.
End Dot.

Section UpdateTotal.
Context {Rng : Type}.
Variable rng_Float64 : Rng → float * Rng.
Variable Tanh : float → float.
Implicit Types (e : ESN Rng) (input v : vector).

Lemma draw_row_length k scale : ∀ g, length (draw_row Rng rng_Float64 k scale g).1 = k.
Proof.
  induction k as [|k IH]; intros g; simpl; [done|].
  destruct (rng_Float64 g) as [u g1]. specialize (IH g1).
  destruct (draw_row Rng rng_Float64 k scale g1) as [row g2]. simpl in *. by rewrite IH.
Qed.

Lemma draw_rows_shape n k scale : ∀ g,
  length (draw_rows Rng rng_Float64 n k scale g).1 = n
  ∧ Forall (λ row, length row = k) (draw_rows Rng rng_Float64 n k scale g).1.
Proof.
  induction n as [|n IH]; intros g; simpl; [split; [done|constructor]|].
  pose proof (draw_row_length k scale g) as Hrow.
  destruct (draw_row Rng rng_Float64 k scale g) as [row g1]. simpl in Hrow.
  destruct (IH g1) as [Hlen Hall].
  destruct (draw_rows Rng rng_Float64 n k scale g1) as [rows g2]. simpl in *.
  split; [by rewrite Hlen | by constructor].
Qed.

(** [setInputWeights] on an engine of [n] neurons draws [n] rows of the
    given length and changes nothing but the input matrix and the
    generator. *)
Lemma setInputWeights_shape e k :
  0 <= ReservoirSize (params e) →
  ∃ w g, setInputWeights rng_Float64 k e = Some (set_rng Rng g (set_inputWeights Rng w e))
         ∧ length w = Z.to_nat (ReservoirSize (params e))
         ∧ Forall (λ row, length row = k) w.
Proof.
  intros Hn. unfold setInputWeights. destruct (Z.ltb_spec (ReservoirSize (params e)) 0); [lia|].
  pose proof (draw_rows_shape (Z.to_nat (ReservoirSize (params e))) k
                (InputScaling (params e)) (rng e)) as [Hlen Hall].
  destruct (draw_rows _ _ _ _ _ _) as [w g]. simpl in *. by exists w, g.
Qed.

Lemma membrane_decay_length (ms : list Membrane) : ∀ v g,
  length (foldl (membrane_decay Rng rng_Float64) (v, g) ms).1 = length v.
Proof.
  induction ms as [|m ms IH]; intros v g; simpl; [done|].
  destruct (rng_Float64 g) as [u g1].
  destruct (u <? Permeability m)%float; rewrite IH; [by rewrite length_map|done].
Qed.

Lemma neighbours_is_Some (w : matrix) v i :
  (i < length w)%nat → Forall (λ row, length row = length v) w →
  is_Some (neighbours w v i).
Proof.
  intros Hi Hw. unfold neighbours.
  destruct (lookup_lt_is_Some_2 w i Hi) as [row Hrow]. rewrite Hrow. simpl.
  pose proof (Forall_lookup_1 _ _ _ _ Hw Hrow) as Hlen. simpl in Hlen.
  destruct (foldlM_inv (λ _ : float * float, True) (λ j, (j < length v)%nat)
              (λ nc j, wij ← row !! j; sj ← v !! j;
                       Some (if F64.ne wij 0%float
                             then ((nc.1 + sj)%float, (nc.2 + 1)%float) else nc))
              (seq 0 (length v)) (0%float, 0%float) (seq_Forall_lt _))
    as (r & -> & _); [|done|done].
  intros nc j _ Hj.
  destruct (lookup_lt_is_Some_2 row j ltac:(lia)) as [x ->].
  destruct (lookup_lt_is_Some_2 v j ltac:(lia)) as [y ->]. simpl. eauto.
Qed.

Lemma applyRicciFlow_total e :
  length (reservoirWeights e) = length (state e) →
  Forall (λ row, length row = length (state e)) (reservoirWeights e) →
  ∃ v, applyRicciFlow Rng e = Some (set_state Rng v e) ∧ length v = length (state e).
Proof.
  intros Hrows Hcols. unfold applyRicciFlow.
  destruct (foldlM_inv (λ v : vector, length v = length (state e))
              (λ i, (i < length (state e))%nat) (ricci_step Rng e)
              (seq 0 (length (state e))) (state e) (seq_Forall_lt _))
    as (v & -> & Hv); [|done|by exists v].
  intros v i Hv Hi. unfold ricci_step.
  destruct (neighbours_is_Some (reservoirWeights e) v i) as [[nb cnt] ->];
    [lia|by rewrite Hv|]. simpl.
  destruct (F64.gt cnt 0); [|by exists v].
  destruct (lookup_lt_is_Some_2 v i ltac:(lia)) as [si ->]. simpl.
  eexists. split; [done|]. by rewrite length_insert.
Qed.

Lemma new_state_total e input :
  length (reservoirWeights e) = length (state e) →
  Forall (λ row, length row = length (state e)) (reservoirWeights e) →
  length (inputWeights e) = length (state e) →
  Forall (λ row, length row = length input) (inputWeights e) →
  ∃ v, mapM (new_state_at Rng Tanh e input) (seq 0 (length (state e))) = Some v
       ∧ length v = length (state e).
Proof.
  intros Hrows Hcols Hin Hincols.
  destruct (mapM_is_Some_2 (new_state_at Rng Tanh e input) (seq 0 (length (state e))))
    as [v Hv].
  - apply Forall_forall. intros i [_ Hi]%elem_of_seq. simpl in Hi. unfold compose, new_state_at.
    destruct (lookup_lt_is_Some_2 (inputWeights e) i ltac:(lia)) as [wi Hwi].
    rewrite Hwi. simpl.
    pose proof (Forall_lookup_1 _ _ _ _ Hincols Hwi) as Hlwi. simpl in Hlwi.
    destruct (dot_is_Some (length input) wi input) as [x ->]; [lia|lia|]. simpl.
    destruct (lookup_lt_is_Some_2 (reservoirWeights e) i ltac:(lia)) as [ri Hri].
    rewrite Hri. simpl.
    pose proof (Forall_lookup_1 _ _ _ _ Hcols Hri) as Hlri. simpl in Hlri.
    destruct (dot_is_Some (length (state e)) ri (state e)) as [y ->]; [lia|lia|]. simpl.
    destruct (lookup_lt_is_Some_2 (state e) i ltac:(lia)) as [si ->]. simpl. eauto.
  - exists v. split; [done|]. apply length_mapM in Hv. by rewrite length_seq in Hv.
Qed.

(** [Update] on an engine that has its input matrix. *)
Lemma Update_with_weights e input row0 :
  wf_engine e → inputWeights e !! 0%nat = Some row0 →
  (length input ≠ length row0 →
   Update rng_Float64 Tanh e input
   = Some (e, Some (DimensionMismatch (length row0) (length input))))
  ∧ (length input = length row0 →
     ∃ v g, Update rng_Float64 Tanh e input = Some (set_rng Rng g (set_state Rng v e), None)
            ∧ length v = length (state e)).
Proof.
  intros (Hn & Hsize & Hrows & Hcols & Hin) Hrow0.
  destruct Hin as [Hnil|(Hinlen & k & Hk)]; [by rewrite Hnil in Hrow0|].
  assert (Hk0 : length row0 = k) by apply (Forall_lookup_1 _ _ _ _ Hk Hrow0).
  unfold Update. rewrite decide_False by lia. simpl. rewrite Hrow0. simpl. split.
  - intros Hne. by rewrite decide_True.
  - intros Heq. rewrite decide_False by (intros ?; done).
    destruct (new_state_total e input) as (v & -> & Hv); try done.
    { by rewrite Heq, Hk0. }
    simpl. unfold applyMembraneEvolution. simpl.
    pose proof (membrane_decay_length (membranes e) v (rng e)) as Hdecay.
    destruct (foldl _ _ (membranes e)) as [v1 g1]. simpl in Hdecay.
    destruct (applyRicciFlow_total (set_rng Rng g1 (set_state Rng v1 (set_state Rng v e))))
      as (v2 & -> & Hv2); simpl; try congruence.
    { by rewrite Hdecay, Hv. }
    simpl in Hv2. exists v2, g1. split; [done|congruence].
Qed.
End UpdateTotal.

Section UpdateInvariant.
Context {Rng : Type}.
Variable rng_Float64 : Rng → float * Rng.
Variable Tanh : float → float.
Implicit Types (e : ESN Rng) (input v : vector).

Lemma update_frame_refl e : update_frame e e.
Proof. by repeat split. Qed.

Lemma update_frame_trans e1 e2 e3 : update_frame e1 e2 → update_frame e2 e3 → update_frame e1 e3.
Proof. unfold update_frame. intros ? ?. destruct_and!. split_and!; congruence. Qed.

Lemma wf_engine_frame e e' :
  wf_engine e → update_frame e e' → inputWeights e' = inputWeights e → wf_engine e'.
Proof.
  unfold wf_engine, update_frame.
  intros Hwf (Hp & _ & Hr & _ & _ & _ & Hlen) Hiw. by rewrite Hp, Hr, Hlen, Hiw.
Qed.

(** The first call of [Update] goes on as a call on the engine with the
    input matrix just drawn. *)
Lemma Update_first e e1 input :
  inputWeights e = [] → setInputWeights rng_Float64 (length input) e = Some e1 →
  inputWeights e1 ≠ [] →
  Update rng_Float64 Tanh e input = Update rng_Float64 Tanh e1 input.
Proof.
  intros Hnil Hset Hne. unfold Update. rewrite Hnil. simpl. rewrite Hset. simpl.
  rewrite decide_False; [done|]. by destruct (inputWeights e1).
Qed.

(** One call of [Update] on an engine with consistent dimensions: it never
    panics and the dimensions stay consistent. *)
Lemma Update_wf e input :
  wf_engine e →
  ∃ e' err,
    Update rng_Float64 Tanh e input = Some (e', err)
    ∧ wf_engine e' ∧ update_frame e e'
    ∧ match input_dimension e with
      | None => err = None ∧ input_dimension e' = Some (length input)
      | Some k =>
          inputWeights e' = inputWeights e
          ∧ err = (if decide (length input = k) then None
                   else Some (DimensionMismatch k (length input)))
          ∧ (length input ≠ k → e' = e)
      end.
Proof.
  intros Hwf. pose proof Hwf as (Hn & Hsize & Hrows & Hcols & Hin).
  unfold input_dimension.
  destruct (inputWeights e !! 0%nat) as [row0|] eqn:Hrow0; simpl.
  - destruct (Update_with_weights rng_Float64 Tanh e input row0 Hwf Hrow0) as [Hbad Hgood].
    destruct (decide (length input = length row0)) as [Heq|Hne].
    + destruct (Hgood Heq) as (v & g & -> & Hv).
      eexists _, _. split; [done|].
      assert (Hfr : update_frame e (set_rng Rng g (set_state Rng v e))).
      { by repeat split. }
      split_and!; try done. by apply (wf_engine_frame e).
    + rewrite (Hbad Hne). eexists _, _. split; [done|].
      split_and!; done || apply update_frame_refl.
  - destruct Hin as [Hnil|(Hinlen & _)].
    2: { apply lookup_ge_None in Hrow0. lia. }
    destruct (setInputWeights_shape rng_Float64 e (length input)) as (w & g & Hset & Hw & Hk);
      [lia|].
    set (e1 := set_rng Rng g (set_inputWeights Rng w e)) in *.
    assert (Hwlen : length w = length (state e)) by (rewrite Hw, Hsize; lia).
    assert (Hwf1 : wf_engine e1).
    { unfold wf_engine. simpl. split_and!; try done. right. split; [done|]. by eexists. }
    destruct (lookup_lt_is_Some_2 w 0%nat ltac:(lia)) as [row0 Hw0].
    pose proof (Forall_lookup_1 _ _ _ _ Hk Hw0) as Hlen0. simpl in Hlen0.
    rewrite (Update_first e e1 input Hnil Hset) by (simpl; by destruct w).
    destruct (Update_with_weights rng_Float64 Tanh e1 input row0 Hwf1 Hw0) as [_ Hgood].
    destruct (Hgood (eq_sym Hlen0)) as (v & g' & -> & Hv).
    eexists _, _. split; [done|]. simpl in Hv.
    assert (Hfr : update_frame e (set_rng Rng g' (set_state Rng v e1))).
    { by repeat split. }
    split_and!; try done.
    + apply (wf_engine_frame e1); [done| |done]. by repeat split.
    + simpl. rewrite Hw0. simpl. by rewrite Hlen0.
Qed.

(** Any sequence of calls of [Update]. *)
Lemma updates_wf (inputs : list vector) : ∀ e,
  wf_engine e →
  ∃ e',
    updates rng_Float64 Tanh e inputs = Some e'
    ∧ wf_engine e' ∧ update_frame e e'
    ∧ match input_dimension e with
      | None => ∀ input rest, inputs = input :: rest →
                              input_dimension e' = Some (length input)
      | Some k => inputWeights e' = inputWeights e
      end.
Proof.
  unfold updates.
  induction inputs as [|input inputs IH]; intros e Hwf.
  { exists e. split_and!; try done; try apply update_frame_refl.
    by destruct (input_dimension e). }
  rewrite foldlM_cons.
  destruct (Update_wf e input Hwf) as (e1 & err & -> & Hwf1 & Hfr1 & Hdim1). simpl.
  destruct (IH e1 Hwf1) as (e' & -> & Hwf' & Hfr' & Hdim').
  exists e'. split_and!; try done; [by eapply update_frame_trans|].
  destruct (input_dimension e) as [k|] eqn:Hdim.
  - destruct Hdim1 as (Hin1 & _).
    assert (Hdim1 : input_dimension e1 = Some k).
    { unfold input_dimension in *. by rewrite Hin1. }
    rewrite Hdim1 in Hdim'. congruence.
  - destruct Hdim1 as [_ Hd1]. intros input' rest [= <- <-].
    rewrite Hd1 in Hdim'. unfold input_dimension. by rewrite Hdim', <- Hd1.
Qed.
End UpdateInvariant.

(* ===================================================================== *)
(** * NewESN *)
(* ===================================================================== *)

Section NewESNProperties.
Context {Rng : Type}.
Variable rng_Float64 : Rng → float * Rng.
Variable rng_NormFloat64 : Rng → float * Rng.
Implicit Types (e : ESN Rng) (v : vector) (w : matrix).

Lemma init_row_length n sparsity : ∀ g,
  length (init_row Rng rng_Float64 rng_NormFloat64 n sparsity g).1 = n.
Proof.
  induction n as [|n IH]; intros g; simpl; [done|].
  destruct (rng_Float64 g) as [u g1].
  destruct (if (u <? sparsity)%float then rng_NormFloat64 g1 else (0%float, g1)) as [x g2].
  specialize (IH g2).
  destruct (init_row Rng rng_Float64 rng_NormFloat64 n sparsity g2) as [row g3].
  simpl in *. by rewrite IH.
Qed.

Lemma init_rows_shape rows n sparsity : ∀ g,
  length (init_rows Rng rng_Float64 rng_NormFloat64 rows n sparsity g).1 = rows
  ∧ Forall (λ row, length row = n)
           (init_rows Rng rng_Float64 rng_NormFloat64 rows n sparsity g).1.
Proof.
  induction rows as [|rows IH]; intros g; simpl; [split; [done|constructor]|].
  pose proof (init_row_length n sparsity g) as Hrow.
  destruct (init_row Rng rng_Float64 rng_NormFloat64 n sparsity g) as [row g1].
  destruct (IH g1) as [Hlen Hall].
  destruct (init_rows Rng rng_Float64 rng_NormFloat64 rows n sparsity g1) as [rest g2].
  simpl in *. split; [by rewrite Hlen | by constructor].
Qed.

Lemma draw_normal_length n : ∀ g, length (draw_normal Rng rng_NormFloat64 n g).1 = n.
Proof.
  induction n as [|n IH]; intros g; simpl; [done|].
  destruct (rng_NormFloat64 g) as [x g1]. specialize (IH g1).
  destruct (draw_normal Rng rng_NormFloat64 n g1) as [v g2]. simpl in *. by rewrite IH.
Qed.

Lemma normalize_length v : length (normalize v) = length v.
Proof. unfold normalize. by rewrite length_map. Qed.

Lemma mat_vec_total w v :
  Forall (λ row, length row = length v) w →
  ∃ v', mat_vec w v = Some v' ∧ length v' = length w.
Proof.
  intros Hw. unfold mat_vec.
  destruct (mapM_is_Some_2 (λ row, dot (length row) row v) w) as [v' Hv'].
  - eapply Forall_impl; [exact Hw|]. intros row Hrow. cbv beta in Hrow.
    unfold compose. apply dot_is_Some; lia.
  - exists v'. split; [done|]. symmetry. by eapply length_mapM.
Qed.

Lemma power_iteration_total w v :
  length w = length v → Forall (λ row, length row = length v) w →
  ∃ v', power_iteration w v = Some v' ∧ length v' = length v.
Proof.
  intros Hrows Hcols. unfold power_iteration.
  destruct (foldlM_inv (λ v' : vector, length v' = length v) (λ _ : nat, True)
              (λ v' _, normalize <$> mat_vec w v') (seq 0 50) v)
    as (v' & Hv' & Hlen); try done.
  - apply Forall_forall. done.
  - intros v1 _ Hv1 _.
    destruct (mat_vec_total w v1) as (v2 & -> & Hv2); [by rewrite Hv1|].
    simpl. eexists. split; [done|]. rewrite normalize_length. congruence.
  - by exists v'.
Qed.

Lemma eigenvalue_estimate_total w v :
  length w = length v → Forall (λ row, length row = length v) w →
  is_Some (eigenvalue_estimate w v).
Proof.
  intros Hrows Hcols. unfold eigenvalue_estimate.
  destruct (foldlM_inv (λ _ : float, True) (λ i, (i < length v)%nat)
              (λ eigenvalue i, row ← w !! i; product ← dot (length row) row v;
                               vi ← v !! i; Some (eigenvalue + product * vi)%float)
              (seq 0 (length v)) 0%float (seq_Forall_lt _)) as (r & -> & _); [|done|done].
  intros x i _ Hi.
  destruct (lookup_lt_is_Some_2 w i ltac:(lia)) as [row Hrow]. rewrite Hrow. simpl.
  pose proof (Forall_lookup_1 _ _ _ _ Hcols Hrow) as Hlen. simpl in Hlen.
  destruct (dot_is_Some (length row) row v) as [y ->]; [lia|lia|]. simpl.
  destruct (lookup_lt_is_Some_2 v i Hi) as [vi ->]. simpl. eauto.
Qed.

Lemma scaleSpectralRadius_total e :
  Forall (λ row, length row = length (reservoirWeights e)) (reservoirWeights e) →
  ∃ w g, scaleSpectralRadius rng_NormFloat64 e
         = Some (set_rng Rng g (set_reservoirWeights Rng w e))
         ∧ length w = length (reservoirWeights e)
         ∧ Forall (λ row, length row = length (reservoirWeights e)) w.
Proof.
  intros Hcols. unfold scaleSpectralRadius.
  pose proof (draw_normal_length (length (reservoirWeights e)) (rng e)) as Hv.
  destruct (draw_normal Rng rng_NormFloat64 _ (rng e)) as [v g]. simpl in Hv.
  destruct (power_iteration_total (reservoirWeights e) (normalize v)) as (v1 & -> & Hv1).
  { by rewrite normalize_length. }
  { by rewrite normalize_length, Hv. }
  rewrite normalize_length, Hv in Hv1. simpl.
  destruct (eigenvalue_estimate_total (reservoirWeights e) v1) as [ev ->].
  { by rewrite Hv1. }
  { by rewrite Hv1. }
  simpl. eexists _, g. split; [done|].
  destruct (F64.gt (F64.Abs ev) 0); [|done].
  rewrite length_map. split; [done|].
  apply Forall_fmap. eapply Forall_impl; [exact Hcols|].
  intros row Hrow. simpl. by rewrite length_map.
Qed.

(** [NewESN] on parameters that pass its tests. *)
Lemma NewESN_valid (p : ESNParams) (pers : PersonaTrait) g0 :
  valid_params p = true →
  ∃ e, NewESN rng_Float64 rng_NormFloat64 p pers g0 = Some (inl e)
       ∧ wf_engine e
       ∧ params e = p ∧ persona e = pers
       ∧ state e = zeros (Z.to_nat (ReservoirSize p))
       ∧ inputWeights e = [] ∧ outputWeights e = [] ∧ trained e = false
       ∧ membranes e
         = flat_map (λ level : nat, level_membranes (Arousal pers) (Z.of_nat level))
                    (seq 0 (Z.to_nat (TreeDepth p))).
Proof.
  unfold valid_params. rewrite !andb_true_iff, !negb_true_iff.
  intros ((((Hn & Hs1) & Hs2) & Hl1) & Hl2). apply Z.ltb_lt in Hn.
  unfold NewESN. destruct (Z.leb_spec (ReservoirSize p) 0); [lia|].
  rewrite Hs1, Hs2, Hl1, Hl2. simpl.
  unfold initializeReservoir. simpl.
  destruct (Z.ltb_spec (ReservoirSize p) 0); [lia|].
  set (n := Z.to_nat (ReservoirSize p)).
  pose proof (init_rows_shape n n (Sparsity p) g0) as [Hrows Hcols].
  destruct (init_rows Rng rng_Float64 rng_NormFloat64 n n (Sparsity p) g0) as [w g1].
  simpl in Hrows, Hcols.
  destruct (scaleSpectralRadius_total
              (set_rng Rng g1 (set_reservoirWeights Rng w
                 (mkESN Rng p pers [] [] [] (zeros n) [] g0 false))))
    as (w' & g2 & -> & Hrows' & Hcols'); simpl.
  { by rewrite Hrows. }
  simpl in Hrows', Hcols'. eexists. split; [done|]. simpl.
  split_and!; try done.
  unfold wf_engine. simpl. unfold zeros. rewrite length_replicate.
  split_and!; try lia; try congruence; [|by left].
  by rewrite <- Hrows.
Qed.

(** [NewESN] on parameters that fail one of its tests. *)
Lemma NewESN_invalid (p : ESNParams) (pers : PersonaTrait) g0 :
  valid_params p = false →
  NewESN rng_Float64 rng_NormFloat64 p pers g0
  = Some (inr (if ReservoirSize p <=? 0 then ReservoirSizeNotPositive
               else if ((SpectralRadius p <=? 0) || (1 <=? SpectralRadius p))%float
                    then SpectralRadiusOutOfRange
                    else LeakRateOutOfRange)).
Proof.
  unfold valid_params, NewESN. intros Hinv.
  destruct (Z.leb_spec (ReservoirSize p) 0) as [|Hn]; [done|].
  destruct (SpectralRadius p <=? 0)%float; [done|].
  destruct (1 <=? SpectralRadius p)%float; [done|].
  destruct (LeakRate p <=? 0)%float; [done|].
  destruct (1 <? LeakRate p)%float; [done|].
  apply Z.ltb_lt in Hn. rewrite Hn in Hinv. done.
Qed.

Lemma level_membranes_length arousal (level : nat) :
  (level ≤ 62)%nat →
  Z.of_nat (length (level_membranes arousal (Z.of_nat level))) = 2 ^ Z.of_nat level.
Proof.
  intros Hl. unfold level_membranes. rewrite length_map, length_seq.
  assert (Hpow : 0 < 2 ^ Z.of_nat level <= 2 ^ 62).
  { split; [apply Z.pow_pos_nonneg; lia|]. apply Z.pow_le_mono_r; lia. }
  assert (H62 : 2 ^ 62 = 4611686018427387904) by done.
  unfold Int.wrap. rewrite Z.mod_small by lia. lia.
Qed.

Lemma membranes_count arousal (depth : nat) :
  (depth ≤ 63)%nat →
  Z.of_nat (length (flat_map (λ level : nat, level_membranes arousal (Z.of_nat level))
                             (seq 0 depth)))
  = 2 ^ Z.of_nat depth - 1.
Proof.
  induction depth as [|d IH]; intros Hd; [done|].
  rewrite seq_S, flat_map_app, length_app. simpl. rewrite app_nil_r.
  rewrite Nat2Z.inj_add, IH, level_membranes_length by lia.
  replace (Z.of_nat (S d)) with (Z.succ (Z.of_nat d)) by lia.
  rewrite Z.pow_succ_r by lia. lia.
Qed.

Lemma membranes_shape arousal (depth : nat) :
  Forall (λ m, 0 <= Level m < Z.of_nat depth
               ∧ Permeability m = (0.5 + 0.5 * arousal)%float
               ∧ Objects m = [] ∧ Rules m = [] ∧ Parent m = None ∧ Children m = [])
         (flat_map (λ level : nat, level_membranes arousal (Z.of_nat level)) (seq 0 depth)).
Proof.
  apply Forall_forall. intros m (level & [_ Hl]%elem_of_seq & Hm)%elem_of_flat_map.
  unfold level_membranes in Hm. apply list_elem_of_fmap in Hm as (i & -> & _).
  simpl. split_and!; try done; lia.
Qed.
End NewESNProperties.


(** X15. The membranes of a new engine: for a tree depth [d] from 0 to 63
    [NewESN] creates [2^d - 1] of them; each has a level from 0 to [d - 1],
    the permeability [0.5 + 0.5 · arousal], no object, no rule, no parent
    and no child. *)
Theorem NewESN_membranes {Rng : Type} (rng_Float64 rng_NormFloat64 : Rng → float * Rng)
    (p : ESNParams) (pers : PersonaTrait) (g0 : Rng) (e : ESN Rng) :
  NewESN rng_Float64 rng_NormFloat64 p pers g0 = Some (inl e) →
  0 <= TreeDepth p <= 63 →
  Z.of_nat (length (membranes e)) = 2 ^ TreeDepth p - 1
  ∧ Forall (λ m, 0 <= Level m < TreeDepth p
                 ∧ Permeability m = (0.5 + 0.5 * Arousal pers)%float
                 ∧ Objects m = [] ∧ Rules m = [] ∧ Parent m = None ∧ Children m = [])
           (membranes e).
Proof.
  intros Hnew Hd.
  destruct (valid_params p) eqn:Hvalid.
  2: { by rewrite (NewESN_invalid rng_Float64 rng_NormFloat64 p pers g0 Hvalid) in Hnew. }
  destruct (NewESN_valid rng_Float64 rng_NormFloat64 p pers g0 Hvalid)
    as (e' & He' & _ & _ & _ & _ & _ & _ & _ & Hm).
  rewrite He' in Hnew. injection Hnew as <-. rewrite Hm. split.
  - rewrite membranes_count by lia. f_equal. f_equal. lia.
  - eapply Forall_impl; [apply membranes_shape|].
    intros m (? & ? & ? & ? & ? & ?). split_and!; try done; lia.
Qed.

(* ===================================================================== *)
(** * TrainOutput and Predict *)
(* ===================================================================== *)

Section TrainTotal.
Context {Rng : Type}.
Implicit Types (e : ESN Rng) (w : matrix) (x t v : vector).

Lemma backward_row_total ridge inD x err wi :
  (inD ≤ length x)%nat → (inD ≤ length wi)%nat →
  ∃ wi', backward_row ridge inD x err wi = Some wi' ∧ length wi' = length wi.
Proof.
  intros Hx Hwi. unfold backward_row.
  apply (foldlM_inv (λ wi' : vector, length wi' = length wi) (λ j, (j < inD)%nat));
    [apply seq_Forall_lt| |done].
  intros wi1 j Hlen Hj.
  destruct (lookup_lt_is_Some_2 x j ltac:(lia)) as [xj ->].
  destruct (lookup_lt_is_Some_2 wi1 j ltac:(lia)) as [wij ->]. simpl.
  eexists. split; [done|]. by rewrite length_insert.
Qed.

Lemma forward_total w inD outD x :
  length w = outD → Forall (λ row, length row = inD) w → (inD ≤ length x)%nat →
  ∃ p, forward w inD outD x = Some p ∧ length p = outD.
Proof.
  intros Hw Hrows Hx. unfold forward.
  destruct (mapM_is_Some_2 (λ i, wi ← w !! i; dot inD wi x) (seq 0 outD)) as [p Hp].
  - apply Forall_forall. intros i [_ Hi]%elem_of_seq. unfold compose.
    destruct (lookup_lt_is_Some_2 w i ltac:(lia)) as [wi Hwi]. rewrite Hwi. simpl.
    pose proof (Forall_lookup_1 _ _ _ _ Hrows Hwi) as Hlen. simpl in Hlen.
    apply dot_is_Some; lia.
  - exists p. split; [done|]. apply length_mapM in Hp. by rewrite length_seq in Hp.
Qed.

Lemma train_sample_total ridge inD outD w x t :
  length w = outD → Forall (λ row, length row = inD) w →
  (outD = 0 ∨ inD ≤ length x)%nat → (outD ≤ length t)%nat →
  ∃ w', train_sample ridge inD outD w (x, t) = Some w'
        ∧ length w' = outD ∧ Forall (λ row, length row = inD) w'.
Proof.
  intros Hw Hrows Hx Ht. unfold train_sample.
  destruct Hx as [->|Hx].
  { exists w. destruct w; [|done]. done. }
  destruct (forward_total w inD outD x Hw Hrows Hx) as (p & -> & Hp). simpl.
  apply (foldlM_inv (λ w' : matrix, length w' = outD ∧ Forall (λ row, length row = inD) w')
                    (λ i, (i < outD)%nat)); [apply seq_Forall_lt| |done].
  intros w1 i [Hw1 Hrows1] Hi.
  destruct (lookup_lt_is_Some_2 p i ltac:(lia)) as [pi ->].
  destruct (lookup_lt_is_Some_2 t i ltac:(lia)) as [ti ->].
  destruct (lookup_lt_is_Some_2 w1 i ltac:(lia)) as [wi Hwi]. rewrite Hwi. simpl.
  pose proof (Forall_lookup_1 _ _ _ _ Hrows1 Hwi) as Hlen. simpl in Hlen.
  destruct (backward_row_total ridge inD x (pi - ti)%float wi) as (wi' & -> & Hwi');
    [lia|lia|]. simpl.
  eexists. split; [done|]. rewrite length_insert. split; [done|].
  apply Forall_insert; [done|]. congruence.
Qed.

Lemma gradient_descent_total ridge inD outD states targets w :
  length w = outD → Forall (λ row, length row = inD) w →
  (outD = 0%nat ∨ Forall (λ x, (inD ≤ length x)%nat) states) →
  Forall (λ t, (outD ≤ length t)%nat) targets →
  ∃ w', gradient_descent ridge inD outD states targets w = Some w'
        ∧ length w' = outD ∧ Forall (λ row, length row = inD) w'.
Proof.
  intros Hw Hrows Hstates Htargets. unfold gradient_descent.
  apply (foldlM_inv (λ w' : matrix, length w' = outD ∧ Forall (λ row, length row = inD) w')
                    (λ _ : nat, True)); [by apply Forall_forall| |done].
  intros w1 _ [Hw1 Hrows1] _.
  apply (foldlM_inv (λ w' : matrix, length w' = outD ∧ Forall (λ row, length row = inD) w')
                    (λ xt : vector * vector,
                       (outD = 0 ∨ inD ≤ length xt.1)%nat ∧ (outD ≤ length xt.2)%nat));
    [| |done].
  - apply Forall_lookup. intros i [x t] (x' & t' & [= <- <-] & Hx & Ht)%lookup_zip_with_Some.
    simpl. split.
    + destruct Hstates as [?|Hs]; [by left|right].
      apply (Forall_lookup_1 _ _ _ _ Hs Hx).
    + apply (Forall_lookup_1 _ _ _ _ Htargets Ht).
  - intros w2 [x t] [Hw2 Hrows2] [Hx Ht]. by apply train_sample_total.
Qed.

(** [TrainOutput] on data none of whose rows is too short. *)
Lemma TrainOutput_rect e states targets s0 t0 :
  length states = length targets →
  states !! 0%nat = Some s0 → targets !! 0%nat = Some t0 →
  (length t0 = 0%nat ∨ Forall (λ x, (length s0 ≤ length x)%nat) states) →
  Forall (λ t, (length t0 ≤ length t)%nat) targets →
  ∃ w, TrainOutput e states targets = Some (set_trained Rng w e, None)
       ∧ length w = length t0 ∧ Forall (λ row, length row = length s0) w.
Proof.
  intros Hlen Hs0 Ht0 Hstates Htargets. unfold TrainOutput.
  rewrite decide_False by lia.
  rewrite decide_False by (intros Hz; by destruct states).
  rewrite Hs0, Ht0. cbn [mbind option_bind].
  destruct (gradient_descent_total (RidgeParam (params e)) (length s0) (length t0)
              states targets (zero_matrix (length t0) (length s0)))
    as (w & Hgd & Hw & Hrows).
  - unfold zero_matrix. by rewrite length_replicate.
  - unfold zero_matrix, zeros. apply Forall_replicate. by rewrite length_replicate.
  - exact Hstates.
  - exact Htargets.
  - rewrite Hgd. exists w. split_and!; [reflexivity|assumption|assumption].
Qed.

Lemma train_sample_panic ridge inD outD w x t :
  (length x < inD ∧ 0 < outD)%nat ∨ (length t < outD)%nat →
  train_sample ridge inD outD w (x, t) = None.
Proof.
  intros Hshort. unfold train_sample.
  destruct (forward w inD outD x) as [p|] eqn:Hfwd; simpl; [|done].
  destruct Hshort as [[Hx Hout]|Ht].
  - exfalso. unfold forward in Hfwd.
    assert (Hnone : mapM (λ i, wi ← w !! i; dot inD wi x) (seq 0 outD) = None);
      [|congruence].
    apply mapM_None_2, Exists_exists. exists 0%nat. split.
    + apply elem_of_seq. lia.
    + destruct (w !! 0%nat); simpl; [|done]. by apply dot_panic.
  - apply (foldlM_panic _ _ (length t)).
    + apply elem_of_seq. lia.
    + intros w1. destruct (p !! length t); simpl; [|done].
      by rewrite (proj2 (lookup_ge_None t (length t))).
Qed.

(** [TrainOutput] on data with a sample that is too short. *)
Lemma TrainOutput_ragged e states targets s :
  length states = length targets → short_sample states targets s →
  TrainOutput e states targets = None.
Proof.
  intros Hlen (s0 & t0 & x & t & Hs0 & Ht0 & Hx & Ht & Hshort). unfold TrainOutput.
  rewrite decide_False by lia.
  rewrite decide_False by (intros Hz; by destruct states).
  rewrite Hs0, Ht0. cbn [mbind option_bind].
  assert (Hgd : gradient_descent (RidgeParam (params e)) (length s0) (length t0) states
                  targets (zero_matrix (length t0) (length s0)) = None);
    [|rewrite Hgd; reflexivity].
  unfold gradient_descent. apply (foldlM_panic _ _ 0%nat).
  - unfold epochs. apply elem_of_seq. lia.
  - intros w. apply (foldlM_panic _ _ (x, t)).
    + apply list_elem_of_lookup. exists s. apply lookup_zip_with_Some. by exists x, t.
    + intros w1. by apply train_sample_panic.
Qed.

(** [Predict] on a trained engine that has its output weights. *)
Lemma Predict_trained e :
  trained e = true →
  (Forall (λ row, (length (state e) ≤ length row)%nat) (outputWeights e) →
   ∃ out, Predict false e = Some (inl out) ∧ length out = length (outputWeights e))
  ∧ (Exists (λ row, (length row < length (state e))%nat) (outputWeights e) →
     Predict false e = None).
Proof.
  intros Htr. unfold Predict. rewrite Htr. simpl. split.
  - intros Hrows.
    destruct (mapM_is_Some_2 (λ wi, dot (length (state e)) wi (state e)) (outputWeights e))
      as [out Hout].
    + eapply Forall_impl; [exact Hrows|]. intros row Hrow. cbv beta in Hrow.
      unfold compose. apply dot_is_Some; lia.
    + rewrite Hout. simpl. exists out. split; [done|]. symmetry. by eapply length_mapM.
  - intros Hshort.
    assert (Hnone : mapM (λ wi, dot (length (state e)) wi (state e)) (outputWeights e)
                    = None); [|by rewrite Hnone].
    apply mapM_None_2. eapply Exists_impl; [exact Hshort|].
    intros row Hrow. cbv beta in Hrow.
    (* the panic is at the first index beyond the row *)
    unfold dot. apply (foldlM_panic _ _ (length row)).
    + apply elem_of_seq. lia.
    + intros sum. by rewrite (proj2 (lookup_ge_None row (length row))).
Qed.
End TrainTotal.

Section TrainCases.
Context {Rng : Type}.
Implicit Types (e : ESN Rng) (w : matrix) (x t v : vector).

(** Training data either has a sample that is too short, or has none. *)
Lemma training_data_cases (states targets : matrix) s0 t0 :
  length states = length targets →
  states !! 0%nat = Some s0 → targets !! 0%nat = Some t0 →
  (∃ s, short_sample states targets s)
  ∨ ((length t0 = 0%nat ∨ Forall (λ x, (length s0 ≤ length x)%nat) states)
     ∧ Forall (λ t, (length t0 ≤ length t)%nat) targets).
Proof.
  intros Hlen Hs0 Ht0.
  destruct (decide (Forall (λ t, (length t0 ≤ length t)%nat) targets)) as [Ht|Ht].
  - destruct (decide (length t0 = 0%nat)) as [Hz|Hz]; [right; auto|].
    destruct (decide (Forall (λ x, (length s0 ≤ length x)%nat) states)) as [Hs|Hs];
      [right; auto|].
    left. apply not_Forall_Exists in Hs; [|apply _].
    apply Exists_exists in Hs as (x & Hx & Hshort).
    apply list_elem_of_lookup in Hx as [s Hx]. unfold compose in Hshort.
    destruct (lookup_lt_is_Some_2 targets s) as [t Ht'].
    { rewrite <- Hlen. by eapply lookup_lt_Some. }
    exists s, s0, t0, x, t. split_and!; try done. left. lia.
  - left. apply not_Forall_Exists in Ht; [|apply _].
    apply Exists_exists in Ht as (t & Ht' & Hshort).
    apply list_elem_of_lookup in Ht' as [s Ht']. unfold compose in Hshort.
    destruct (lookup_lt_is_Some_2 states s) as [x Hx].
    { rewrite Hlen. by eapply lookup_lt_Some. }
    exists s, s0, t0, x, t. split_and!; try done. right. lia.
Qed.

(** A training that returns without error has set the output weights to a
    matrix with one row for each target component and one column for each
    state component of the first sample. *)
Lemma TrainOutput_success e e' states targets s0 t0 :
  TrainOutput e states targets = Some (e', None) →
  states !! 0%nat = Some s0 → targets !! 0%nat = Some t0 →
  ∃ w, e' = set_trained Rng w e ∧ length w = length t0
       ∧ Forall (λ row, length row = length s0) w.
Proof.
  intros Htrain Hs0 Ht0.
  assert (Hlen : length states = length targets).
  { unfold TrainOutput in Htrain. by case_decide. }
  destruct (training_data_cases states targets s0 t0 Hlen Hs0 Ht0)
    as [[s Hshort]|[Hstates Htargets]].
  - by rewrite (TrainOutput_ragged e states targets s Hlen Hshort) in Htrain.
  - destruct (TrainOutput_rect e states targets s0 t0 Hlen Hs0 Ht0 Hstates Htargets)
      as (w & Hw & Hrows & Hcols).
    rewrite Hw in Htrain. injection Htrain as <-. by exists w.
Qed.

Lemma decay_level_0 (rng_Float64 : Rng → float * Rng) (ms : list Membrane) : ∀ v g,
  Forall (λ m, Level m = 0) ms →
  (foldl (membrane_decay Rng rng_Float64) (v, g) ms).1 = v.
Proof.
  assert (Hf : (1 - F64.c_0_05 * F64.of_int 0)%float = 1%float) by (vm_compute; reflexivity).
  induction ms as [|m ms IH]; intros v g Hms; simpl; [done|].
  apply Forall_cons in Hms as [Hm Hms].
  destruct (rng_Float64 g) as [u g1].
  destruct (u <? Permeability m)%float; rewrite IH by done; [|done].
  rewrite Hm, Hf. rewrite <- (map_id v) at 2. apply map_ext. intros x. apply mul_one_r.
Qed.
End TrainCases.

(** X16. [Update] on an engine with consistent dimensions (a state of [n]
    components, [n] at least 1, an [n] by [n] reservoir matrix, and an input
    matrix that is absent or has [n] rows of one length) never panics and
    leaves the dimensions consistent.  It changes nothing but the state,
    whose length it keeps, the generator and, when the engine had no input
    matrix, the input matrix.  An engine without input matrix accepts the
    input, whose length becomes the input dimension; an engine of input
    dimension [k] returns the dimension error, and stays as it was, for
    every input of another length, and no error for an input of length
    [k]. *)
Theorem Update_keeps_dimensions {Rng : Type} (rng_Float64 : Rng → float * Rng)
    (Tanh : float → float) (e : ESN Rng) (input : vector) :
  wf_engine e →
  ∃ e' err,
    Update rng_Float64 Tanh e input = Some (e', err)
    ∧ wf_engine e' ∧ update_frame e e'
    ∧ match input_dimension e with
      | None => err = None ∧ input_dimension e' = Some (length input)
      | Some k =>
          inputWeights e' = inputWeights e
          ∧ err = (if decide (length input = k) then None
                   else Some (DimensionMismatch k (length input)))
          ∧ (length input ≠ k → e' = e)
      end.
Proof. apply Update_wf. Qed.

(** The witness of X16: the first update of [fresh_engine]. *)
Lemma Update_keeps_dimensions_witness :
  ∃ e' err, Update constant_rng (λ x, x) fresh_engine [1%float] = Some (e', err)
            ∧ wf_engine e'.
Proof.
  assert (Hwf : wf_engine fresh_engine).
  { unfold wf_engine. simpl. split_and!; try done; try lia; auto. }
  destruct (Update_keeps_dimensions constant_rng (λ x, x) fresh_engine [1%float] Hwf)
    as (e' & err & Hup & Hwf' & _).
  exists e', err. split; [exact Hup | exact Hwf'].
Defined.

(** X17. An engine returned by [NewESN] can be updated with any sequence
    of inputs without a panic: every call returns, with the dimension error
    or with none.  The first input fixes the input dimension; the
    parameters, the persona, the reservoir and output weights, the membranes,
    the training flag and the length of the state stay as [NewESN] left
    them. *)
Theorem NewESN_then_updates {Rng : Type} (rng_Float64 rng_NormFloat64 : Rng → float * Rng)
    (Tanh : float → float) (p : ESNParams) (pers : PersonaTrait) (g0 : Rng) (e : ESN Rng)
    (inputs : list vector) :
  NewESN rng_Float64 rng_NormFloat64 p pers g0 = Some (inl e) →
  ∃ e',
    updates rng_Float64 Tanh e inputs = Some e'
    ∧ update_frame e e'
    ∧ length (state e') = Z.to_nat (ReservoirSize p)
    ∧ ∀ input rest, inputs = input :: rest → input_dimension e' = Some (length input).
Proof.
  intros Hnew.
  destruct (valid_params p) eqn:Hvalid.
  2: { by rewrite (NewESN_invalid rng_Float64 rng_NormFloat64 p pers g0 Hvalid) in Hnew. }
  destruct (NewESN_valid rng_Float64 rng_NormFloat64 p pers g0 Hvalid)
    as (e0 & He0 & Hwf & _ & _ & Hstate & Hin & _).
  rewrite He0 in Hnew. injection Hnew as <-.
  destruct (updates_wf rng_Float64 Tanh inputs e0 Hwf) as (e' & Hup & _ & Hfr & Hdim).
  exists e'. split_and!; try done.
  - destruct Hfr as (_ & _ & _ & _ & _ & _ & ->). rewrite Hstate. unfold zeros.
    by rewrite length_replicate.
  - unfold input_dimension in Hdim at 1. by rewrite Hin in Hdim.
Qed.

(** The witness of X17: a new engine of two neurons, updated twice. *)
Lemma NewESN_then_updates_witness :
  ∃ e', updates constant_rng (λ x, x) small_engine [[1%float]; [1%float; 1%float]] = Some e'
        ∧ length (state e') = Z.to_nat (ReservoirSize small_params).
Proof.
  assert (Hnew : NewESN constant_rng constant_rng small_params neutral_persona tt
                 = Some (inl small_engine)) by (vm_compute; reflexivity).
  destruct (NewESN_then_updates constant_rng constant_rng (λ x, x) small_params
              neutral_persona tt small_engine [[1%float]; [1%float; 1%float]] Hnew)
    as (e' & Hup & _ & Hlen & _).
  exists e'. split; [exact Hup | exact Hlen].
Defined.

(** The witness of X15: the seven membranes of the engine of depth 3. *)
Lemma NewESN_membranes_witness : Z.of_nat (length (membranes small_engine)) = 2 ^ 3 - 1.
Proof.
  assert (Hnew : NewESN constant_rng constant_rng small_params neutral_persona tt
                 = Some (inl small_engine)) by (vm_compute; reflexivity).
  apply (NewESN_membranes constant_rng constant_rng small_params neutral_persona tt
           small_engine Hnew).
  simpl. lia.
Defined.

(** X18. [TrainOutput] on as many target rows as state rows, at least one,
    none of the state rows being shorter than the first state row (unless
    there is no output to compute) and none of the target rows shorter than
    the first target row, returns without error and without panic.  It
    marks the engine trained and sets the output weights to a matrix with
    one row for each component of the first target row and one column for
    each component of the first state row; nothing else changes. *)
Theorem TrainOutput_on_rectangular_data {Rng : Type} (e : ESN Rng) (states targets : matrix)
    (s0 t0 : vector) :
  length states = length targets →
  states !! 0%nat = Some s0 → targets !! 0%nat = Some t0 →
  (length t0 = 0%nat ∨ Forall (λ x, (length s0 ≤ length x)%nat) states) →
  Forall (λ t, (length t0 ≤ length t)%nat) targets →
  ∃ e', TrainOutput e states targets = Some (e', None)
        ∧ trained e' = true
        ∧ length (outputWeights e') = length t0
        ∧ Forall (λ row, length row = length s0) (outputWeights e')
        ∧ params e' = params e ∧ persona e' = persona e
        ∧ inputWeights e' = inputWeights e ∧ reservoirWeights e' = reservoirWeights e
        ∧ state e' = state e ∧ membranes e' = membranes e ∧ rng e' = rng e.
Proof.
  intros Hlen Hs0 Ht0 Hstates Htargets.
  destruct (TrainOutput_rect e states targets s0 t0 Hlen Hs0 Ht0 Hstates Htargets)
    as (w & Hw & Hrows & Hcols).
  exists (set_trained Rng w e). by split_and!.
Qed.

(** The witness of X18: one sample of one component. *)
Lemma TrainOutput_on_rectangular_data_witness :
  ∃ e', TrainOutput fresh_engine [[1%float]] [[2%float]] = Some (e', None)
        ∧ trained e' = true.
Proof.
  destruct (TrainOutput_on_rectangular_data fresh_engine [[1%float]] [[2%float]]
              [1%float] [2%float] eq_refl eq_refl eq_refl)
    as (e' & Htrain & Htr & _).
  - right. repeat constructor.
  - repeat constructor.
  - exists e'. split; [exact Htrain | exact Htr].
Defined.

(** X19. [TrainOutput] on as many target rows as state rows, at least one,
    panics (an index out of range) exactly when a sample is too short: its
    state row is shorter than the first state row while the first target
    row is not empty, or its target row is shorter than the first target
    row.  No error is returned for such data. *)
Theorem TrainOutput_panics_on_ragged_data {Rng : Type} (e : ESN Rng) (states targets : matrix) :
  length states = length targets → states ≠ [] →
  (TrainOutput e states targets = None ↔ ∃ s, short_sample states targets s).
Proof.
  intros Hlen Hne.
  destruct states as [|s0 states']; [done|].
  destruct targets as [|t0 targets']; [done|].
  split.
  - intros Hnone.
    destruct (training_data_cases (s0 :: states') (t0 :: targets') s0 t0 Hlen eq_refl eq_refl)
      as [?|[Hstates Htargets]]; [done|].
    destruct (TrainOutput_rect e (s0 :: states') (t0 :: targets') s0 t0 Hlen eq_refl eq_refl
                Hstates Htargets) as (w & Hw & _).
    by rewrite Hw in Hnone.
  - intros [s Hshort]. by eapply TrainOutput_ragged.
Qed.

(** The witness of X19: the second state row lacks a component. *)
Lemma TrainOutput_panics_on_ragged_data_witness :
  TrainOutput fresh_engine [[1%float; 1%float]; [1%float]] [[1%float]; [1%float]] = None.
Proof.
  apply (TrainOutput_panics_on_ragged_data fresh_engine
           [[1%float; 1%float]; [1%float]] [[1%float]; [1%float]] eq_refl); [done|].
  exists 1%nat, [1%float; 1%float], [1%float], [1%float], [1%float].
  split_and!; try reflexivity. left. simpl. lia.
Defined.

(** X20. [Predict] returns the error "network not trained" on an engine
    that is not trained.  After a [TrainOutput] that returned without
    error the state is as before, and [Predict] returns one value for each
    component of the first target row, provided the state of the engine is
    not longer than the first state row of the training data; when it is
    longer, and the first target row is not empty, [Predict] panics. *)
Theorem Predict_after_training {Rng : Type} (e : ESN Rng) :
  (∀ weights_nil, trained e = false → Predict weights_nil e = Some (inr NotTrained))
  ∧ ∀ states targets e' s0 t0,
      TrainOutput e states targets = Some (e', None) →
      states !! 0%nat = Some s0 → targets !! 0%nat = Some t0 →
      state e' = state e
      ∧ ((length (state e) ≤ length s0)%nat →
         ∃ out, Predict false e' = Some (inl out) ∧ length out = length t0)
      ∧ ((length s0 < length (state e))%nat → (0 < length t0)%nat →
         Predict false e' = None).
Proof.
  split.
  - intros weights_nil Htr. unfold Predict. by rewrite Htr.
  - intros states targets e' s0 t0 Htrain Hs0 Ht0.
    destruct (TrainOutput_success e e' states targets s0 t0 Htrain Hs0 Ht0)
      as (w & -> & Hrows & Hcols).
    destruct (Predict_trained (set_trained Rng w e) eq_refl) as [Hok Hpanic].
    simpl in Hok, Hpanic. split_and!; [done| |].
    + intros Hlen. destruct Hok as (out & Hout & Hlenout).
      * eapply Forall_impl; [exact Hcols|]. intros row Hrow. simpl in *. lia.
      * exists out. split; [done|]. congruence.
    + intros Hlen Hpos. apply Hpanic.
      destruct w as [|row w]; [simpl in Hrows; lia|].
      apply Exists_cons_hd. apply Forall_cons in Hcols as [Hrow _]. lia.
Qed.

(** The witness of X20: the prediction of [fresh_engine] once trained. *)
Lemma Predict_after_training_witness :
  ∃ out, Predict false fresh_engine_trained = Some (inl out) ∧ length out = 1%nat.
Proof.
  assert (Htrain : TrainOutput fresh_engine [[1%float]] [[2%float]]
                   = Some (fresh_engine_trained, None)) by (vm_compute; reflexivity).
  destruct (proj2 (Predict_after_training fresh_engine) [[1%float]] [[2%float]]
              fresh_engine_trained [1%float] [2%float] Htrain eq_refl eq_refl)
    as (_ & Hok & _).
  apply Hok. simpl. lia.
Defined.

(** X21. The membranes of level 0 have no effect on the state: when every
    membrane of the engine has level 0, the membrane pass of [Update]
    leaves the state as it is, whatever the generator draws, since its
    factor [1 - 0.05 · level] is 1. *)
Theorem applyMembraneEvolution_level_0 {Rng : Type} (rng_Float64 : Rng → float * Rng)
    (e : ESN Rng) :
  Forall (λ m, Level m = 0) (membranes e) →
  state (applyMembraneEvolution Rng rng_Float64 e) = state e.
Proof.
  intros Hms. unfold applyMembraneEvolution.
  pose proof (decay_level_0 rng_Float64 (membranes e) (state e) (rng e) Hms) as Hd.
  destruct (foldl _ _ (membranes e)) as [v g]. simpl in *. done.
Qed.

(** The witness of X21: one membrane of level 0 that the draw passes. *)
Lemma applyMembraneEvolution_level_0_witness :
  state (applyMembraneEvolution unit constant_rng one_membrane_engine) = [0.75%float].
Proof.
  apply (applyMembraneEvolution_level_0 constant_rng one_membrane_engine).
  repeat constructor.
Defined.

(* ===================================================================== *)
(** * ComputeDissolution *)
(* ===================================================================== *)

(** X22. [ComputeDissolution] reports a membrane exactly when more than 10
    of its objects have a charge other than 0.  A membrane of at most 10
    objects is never reported; the order of the objects does not matter;
    adding an object without charge changes nothing, and adding any object
    to a reported membrane leaves it reported. *)
Theorem ComputeDissolution_counts_charged_objects (m : Membrane) :
  (ComputeDissolution m = true
   ↔ (10 < length (filter (λ o, (Charge o ≠ 0)%Z) (Objects m)))%nat)
  ∧ ((length (Objects m) ≤ 10)%nat → ComputeDissolution m = false)
  ∧ (∀ m', Objects m' ≡ₚ Objects m → ComputeDissolution m' = ComputeDissolution m)
  ∧ (∀ o, Charge o = 0 → ComputeDissolution (AddObject o m) = ComputeDissolution m)
  ∧ (∀ o, ComputeDissolution m = true → ComputeDissolution (AddObject o m) = true).
Proof.
  unfold ComputeDissolution. split_and!.
  - rewrite Z.ltb_lt. lia.
  - intros Hlen. apply Z.ltb_ge.
    pose proof (length_filter (λ o, Charge o ≠ 0) (Objects m)). lia.
  - intros m' Hperm. by rewrite Hperm.
  - intros o Ho. simpl. rewrite filter_app.
    assert (Hf : filter (λ o, Charge o ≠ 0) [o] = []).
    { apply filter_none. constructor; [|constructor]. intros Hn. by apply Hn. }
    by rewrite Hf, app_nil_r.
  - intros o. rewrite !Z.ltb_lt. simpl. rewrite filter_app, length_app. lia.
Qed.

(** The witness of X22: ten charged objects do not dissolve a membrane. *)
Lemma ComputeDissolution_counts_charged_objects_witness :
  ComputeDissolution (mkMembrane "m" 0 1%float (replicate 10 charged_object) [] None [])
  = false.
Proof.
  apply (proj1 (proj2 (ComputeDissolution_counts_charged_objects
                         (mkMembrane "m" 0 1%float (replicate 10 charged_object) [] None [])))).
  cbn [Objects]. rewrite length_replicate. lia.
Defined.

(* ===================================================================== *)
(** * More of the repository's tests, run on the embedding *)
(* ===================================================================== *)

(** [TestNewESN]: with the default parameters and the default persona
    [NewESN] returns an engine whose state has the reservoir size and which
    has membranes, whatever the generator draws. *)
Example TestNewESN {Rng : Type} (rng_Float64 rng_NormFloat64 : Rng → float * Rng) (g0 : Rng) :
  ∃ e, NewESN rng_Float64 rng_NormFloat64 DefaultESNParams DefaultPersonaTrait g0
       = Some (inl e)
       ∧ Z.of_nat (length (state e)) = ReservoirSize DefaultESNParams
       ∧ length (membranes e) ≠ 0%nat.
Proof.
  destruct (NewESN_valid rng_Float64 rng_NormFloat64 DefaultESNParams DefaultPersonaTrait g0)
    as (e & He & _ & _ & _ & Hstate & _ & _ & _ & Hm); [vm_compute; reflexivity|].
  exists e. split; [exact He|]. rewrite Hstate, Hm. split.
  - vm_compute. reflexivity.
  - vm_compute. discriminate.
Qed.

(** X23. Injection and collection on a system just built by
    [NewMembraneSystem]: after [InjectObject] has put an object into a
    registered membrane, [CollectResults] returns exactly that object when
    the membrane has no children, and nothing when it has: objects held by
    inner membranes are not collected. *)
Theorem CollectResults_after_InjectObject (depth : Z) (h0 : heap) (obj : Object) :
  Int.in_range depth →
  ∃ ms h,
    NewMembraneSystem depth h0 = Some (ms, h)
    ∧ ∀ a m, a ∈ All ms → h !! a = Some m →
        (InjectObject (ID m) obj ms h).2 = None
        ∧ CollectResults ms (InjectObject (ID m) obj ms h).1
          = (if decide (Children m = []) then [obj] else []).
Proof.
  intros [_ Hmax]. eexists _, _. split; [by apply NewMembraneSystem_tree|].
  intros a m Ha Hm. rewrite (tree_inject _ _ _ _ obj a m Ha Hm). split; [done|].
  by apply tree_collect_injected.
Qed.

(** The witness of X23, for the system of depth 2. *)
Lemma CollectResults_after_InjectObject_witness :
  ∃ ms h, NewMembraneSystem 2 [] = Some (ms, h)
          ∧ ∀ a m, a ∈ All ms → h !! a = Some m →
              CollectResults ms (InjectObject (ID m) charged_object ms h).1
              = (if decide (Children m = []) then [charged_object] else []).
Proof.
  assert (Hr : Int.in_range 2) by (unfold Int.in_range, Int.min_int, Int.max_int; lia).
  destruct (CollectResults_after_InjectObject 2 [] charged_object Hr) as (ms & h & Hnew & Hall).
  exists ms, h. split; [exact Hnew|]. intros a m Ha Hm. exact (proj2 (Hall a m Ha Hm)).
Defined.

(* ===================================================================== *)
(** * The rule of highest priority; what a step may change *)
(* ===================================================================== *)

Section Priority.
Implicit Types (objs : list Object) (r : EvolutionRule).

End Priority.



Section StepFrame.
Implicit Types (h : heap) (ms : MembraneSystem) (a : nat) (op : step_op).

#[local] Arguments PassObjects : simpl never.
#[local] Arguments heap_Evolve : simpl never.

Lemma same_but_objects_refl h : same_but_objects h h.
Proof. split; [done|]. intros a m Hm. exists (Objects m). rewrite Hm. by destruct m. Qed.

Lemma same_but_objects_trans h1 h2 h3 :
  same_but_objects h1 h2 → same_but_objects h2 h3 → same_but_objects h1 h3.
Proof.
  intros [Hl1 H12] [Hl2 H23]. split; [congruence|].
  intros a m Hm. destruct (H12 a m Hm) as [objs Hm2].
  destruct (H23 a _ Hm2) as [objs' Hm3]. exists objs'. by rewrite Hm3.
Qed.

Lemma same_but_objects_alter h a (f : Membrane → list Object) :
  same_but_objects h (alter (λ m, set_Objects (f m) m) a h).
Proof.
  split; [by rewrite length_alter|]. intros b m Hm.
  destruct (decide (a = b)) as [->|Hne].
  - rewrite list_lookup_alter_eq, Hm. simpl. by eexists.
  - rewrite list_lookup_alter_ne by done. exists (Objects m). rewrite Hm. by destruct m.
Qed.

Lemma run_op_same_but_objects h op : same_but_objects h (run_op h op).
Proof.
  destruct op as [a|src tgt]; simpl.
  - unfold heap_Evolve. destruct (h !! a) as [m|] eqn:Hm; [|apply same_but_objects_refl].
    simpl. split; [by rewrite length_insert|]. intros b mb Hmb.
    destruct (decide (a = b)) as [->|Hne].
    + rewrite list_lookup_insert_eq by (by eapply lookup_lt_Some).
      assert (mb = m) as -> by congruence. by eexists.
    + rewrite list_lookup_insert_ne by done. exists (Objects mb). rewrite Hmb. by destruct mb.
  - destruct (h !! src) as [ms|] eqn:Hs.
    + rewrite (PassObjects_eq _ _ _ _ Hs). simpl.
      eapply same_but_objects_trans;
        [apply (same_but_objects_alter h tgt
                  (λ m, Objects m ++ filter (λ o, passes (Permeability ms) o) (Objects ms)))|].
      apply (same_but_objects_alter _ src
               (λ _, filter (λ o, ¬ passes (Permeability ms) o) (Objects ms))).
    + unfold PassObjects. rewrite Hs. apply same_but_objects_refl.
Qed.

Lemma run_ops_same_but_objects ops : ∀ h, same_but_objects h (foldl run_op h ops).
Proof.
  induction ops as [|op ops IH]; intros h; simpl; [apply same_but_objects_refl|].
  eapply same_but_objects_trans; [apply run_op_same_but_objects | apply IH].
Qed.
End StepFrame.

(** X25. A step changes nothing but object lists and the step counter: the
    heap keeps its length, and every membrane keeps its identifier, level,
    permeability, rules, parent and children; the root and the registry of
    the system stay the same. *)
Theorem Step_changes_only_objects (ms : MembraneSystem) (h : heap) :
  same_but_objects h (Step ms h).1.2
  ∧ (∀ a m m', h !! a = Some m → (Step ms h).1.2 !! a = Some m' →
       ID m' = ID m ∧ Level m' = Level m ∧ Permeability m' = Permeability m
       ∧ Rules m' = Rules m ∧ Parent m' = Parent m ∧ Children m' = Children m)
  ∧ Root (Step ms h).1.1 = Root ms ∧ All (Step ms h).1.1 = All ms.
Proof.
  rewrite Step_eq. cbn [fst snd Root All].
  assert (Hsame : same_but_objects h
            (foldl run_op (foldl run_op h (map OpEvolve (All ms)))
                   (flat_map (transports_of h) (All ms)))).
  { eapply same_but_objects_trans; apply run_ops_same_but_objects. }
  split_and!; try done.
  intros a m m' Hm Hm'. destruct Hsame as [_ Hsame].
  destruct (Hsame a m Hm) as [objs Hobjs]. rewrite Hobjs in Hm'. by injection Hm' as <-.
Qed.
